(** * gotoon: the TOON encoder, embedded in Rocq

    A shallow embedding of the encoder of [k8scat/gotoon]
    (constants.go, primitives.go, writer.go, normalize.go, types.go,
    encoders.go, toon.go) together with the properties of its
    quoting rules, header grammar and array strategies.

    Go strings are byte sequences: they are modelled by [string]
    (a list of 8-bit [ascii] characters).  Go's [int] lengths and depths
    are never negative here and are modelled by [nat]; the one [int]
    that a caller controls, [EncodeOptions.Indent], is a [Z]. *)

From Stdlib Require Import List String Ascii Bool Arith ZArith Lia.
From Stdlib Require Import DecimalString Permutation Sorted Mergesort Orders.
From Stdlib Require Import SpecFloat.
Import ListNotations.

Local Open Scope list_scope.
Local Open Scope string_scope.

(** ** constants.go *)

Definition ListItemMarker : string := "-".
Definition ListItemPrefix : string := "- ".

Definition Comma : string := ",".
Definition Colon : string := ":".
Definition Space : string := " ".
Definition Pipe : string := "|".
Definition Tab : string := String (ascii_of_nat 9) "".

Definition OpenBracket : string := "[".
Definition CloseBracket : string := "]".
Definition OpenBrace : string := "{".
Definition CloseBrace : string := "}".

Definition NullLiteral : string := "null".
Definition TrueLiteral : string := "true".
Definition FalseLiteral : string := "false".

Definition Backslash : string := "\".
Definition DoubleQuote : string := String (ascii_of_nat 34) "".
Definition Newline : string := String (ascii_of_nat 10) "".
Definition CarriageReturn : string := String (ascii_of_nat 13) "".

Definition DelimiterComma : string := ",".
Definition DelimiterTab : string := Tab.
Definition DelimiterPipe : string := "|".

Definition DefaultDelimiter : string := DelimiterComma.

(** ** The parts of Go's standard library the encoder calls *)

Module GoStrings.

(** [strings.HasPrefix]. *)
Definition HasPrefix (s pre : string) : bool := String.prefix pre s.

(** [strings.Contains]: [substr] occurs somewhere in [s]. *)
Fixpoint Contains (s substr : string) : bool :=
  if String.prefix substr s then true
  else match s with
       | EmptyString => false
       | String _ s' => Contains s' substr
       end.

(** Membership of a byte in a set of bytes given as a string. *)
Fixpoint mem_byte (c : ascii) (chars : string) : bool :=
  match chars with
  | EmptyString => false
  | String c' rest => Ascii.eqb c c' || mem_byte c rest
  end.

(** [strings.ContainsAny] for a set of ASCII characters: UTF-8 never
    uses an ASCII byte inside a multi-byte sequence, so the search is
    a search on bytes. *)
Fixpoint ContainsAny (s chars : string) : bool :=
  match s with
  | EmptyString => false
  | String c s' => mem_byte c chars || ContainsAny s' chars
  end.

(** [strings.ReplaceAll s old new] for a non-empty [old]: the
    non-overlapping occurrences of [old], found left to right, are
    replaced by [new].  [skip] counts the bytes of a matched
    occurrence that are still to be dropped. *)
Fixpoint replace_from (old new : string) (skip : nat) (s : string) : string :=
  match s with
  | EmptyString => EmptyString
  | String c s' =>
      match skip with
      | S k => replace_from old new k s'
      | O =>
          if String.prefix old s
          then new ++ replace_from old new (String.length old - 1) s'
          else String c (replace_from old new 0 s')
      end
  end.

Definition ReplaceAll (s old new : string) : string :=
  replace_from old new 0 s.

(** [strings.Join]. *)
Definition Join (elems : list string) (sep : string) : string :=
  String.concat sep elems.

(** [count] copies of [s]. *)
Fixpoint repeat_string (s : string) (count : nat) : string :=
  match count with
  | O => EmptyString
  | S n => s ++ repeat_string s n
  end.

(** The UTF-8 encodings of the runes for which [unicode.IsSpace]
    holds: the six ASCII spaces, U+0085, U+00A0, U+1680,
    U+2000..U+200A, U+2028, U+2029, U+202F, U+205F and U+3000. *)
Definition bytes (l : list nat) : list ascii := map ascii_of_nat l.

Definition space_runes : list (list ascii) :=
  map bytes
    [ [9]; [10]; [11]; [12]; [13]; [32];
      [194; 133]; [194; 160]; [225; 154; 128];
      [226; 128; 128]; [226; 128; 129]; [226; 128; 130]; [226; 128; 131];
      [226; 128; 132]; [226; 128; 133]; [226; 128; 134]; [226; 128; 135];
      [226; 128; 136]; [226; 128; 137]; [226; 128; 138];
      [226; 128; 168]; [226; 128; 169]; [226; 128; 175];
      [226; 129; 159]; [227; 128; 128] ].

Fixpoint starts_with (pre l : list ascii) : bool :=
  match pre, l with
  | [], _ => true
  | _ :: _, [] => false
  | a :: pre', b :: l' => Ascii.eqb a b && starts_with pre' l'
  end.

(** Length in bytes of the space rune [l] starts with, 0 when it
    starts with none. *)
Definition leading_space (runes : list (list ascii)) (l : list ascii) : nat :=
  match find (fun r => starts_with r l) runes with
  | Some r => List.length r
  | None => 0
  end.

Fixpoint trim_front (runes : list (list ascii)) (steps : nat) (l : list ascii)
  : list ascii :=
  match steps with
  | O => l
  | S n =>
      match leading_space runes l with
      | O => l
      | k => trim_front runes n (skipn k l)
      end
  end.

(** [strings.TrimSpace]: the leading and the trailing space runes are
    removed.  The trailing ones are found as the leading ones of the
    reversed string: a space rune's last bytes are never the end of
    another valid encoding. *)
Definition TrimSpace (s : string) : string :=
  let l := list_ascii_of_string s in
  let front := trim_front space_runes (List.length l) l in
  let back :=
    trim_front (map (@rev ascii) space_runes) (List.length front) (rev front) in
  string_of_list_ascii (rev back).

End GoStrings.

Module GoSort.

(** [sort.Strings]: ascending order of the byte-wise lexicographic
    comparison of Go's [<] on strings. *)
Module StringOrder <: TotalLeBool.
Definition t := string.
Definition leb := String.leb.
Definition leb_total
  : forall a1 a2, leb a1 a2 = true \/ leb a2 a1 = true := String.leb_total.
End StringOrder.

Module StringSort := Sort StringOrder.

Definition Strings (keys : list string) : list string := StringSort.sort keys.

End GoSort.

Module GoRegexp.

(** Regular expressions over bytes, with character classes. *)
Inductive regex : Type :=
| Void : regex
| Eps : regex
| Class : (ascii -> bool) -> regex
| Cat : regex -> regex -> regex
| Alt : regex -> regex -> regex
| Star : regex -> regex.

Definition Lit (c : ascii) : regex := Class (Ascii.eqb c).
Definition Opt (r : regex) : regex := Alt Eps r.
Definition Plus (r : regex) : regex := Cat r (Star r).

Fixpoint nullable (r : regex) : bool :=
  match r with
  | Void => false
  | Eps => true
  | Class _ => false
  | Cat r1 r2 => nullable r1 && nullable r2
  | Alt r1 r2 => nullable r1 || nullable r2
  | Star _ => true
  end.

(** The residual of [r] after the byte [c]. *)
Fixpoint deriv (c : ascii) (r : regex) : regex :=
  match r with
  | Void => Void
  | Eps => Void
  | Class p => if p c then Eps else Void
  | Cat r1 r2 =>
      if nullable r1
      then Alt (Cat (deriv c r1) r2) (deriv c r2)
      else Cat (deriv c r1) r2
  | Alt r1 r2 => Alt (deriv c r1) (deriv c r2)
  | Star r1 => Cat (deriv c r1) (Star r1)
  end.

(** [MatchString] for a pattern whose alternatives are all anchored by
    [^] and [$]: the whole text has to match. *)
Fixpoint MatchString (r : regex) (s : string) : bool :=
  match s with
  | EmptyString => nullable r
  | String c s' => MatchString (deriv c r) s'
  end.

Definition in_range (lo hi c : ascii) : bool :=
  (Ascii.leb lo c && Ascii.leb c hi)%bool.

(** [\d], [\w] of RE2: ASCII only. *)
Definition digit (c : ascii) : bool := in_range "0" "9" c.
Definition word (c : ascii) : bool :=
  digit c || in_range "A" "Z" c || in_range "a" "z" c || Ascii.eqb c "_".

End GoRegexp.

(** ** float64 *)

Module Float64.

(** IEEE 754 binary64, as specified by the standard library's
    [spec_float]: 53 bits of precision, exponents up to 1024. *)
Definition float64 : Type := spec_float.
Definition prec : Z := 53.
Definition emax : Z := 1024.

(** Go's [==] on float64. *)
Definition eqb (f g : float64) : bool := SFeqb f g.

(** The integer part of a finite float, rounded toward zero. *)
Definition truncate (f : float64) : Z :=
  match f with
  | S754_finite s m e =>
      let a := if (0 <=? e)%Z then (Zpos m * 2 ^ e)%Z
               else (Zpos m / 2 ^ (- e))%Z in
      if s then (- a)%Z else a
  | _ => 0%Z
  end.

Definition MinInt64 : Z := (- 2 ^ 63)%Z.
Definition MaxInt64 : Z := (2 ^ 63 - 1)%Z.

(** The conversion [int64(f)].  Go leaves the result open when the
    integer part does not fit; the value given here for that case is
    the one of the amd64 instruction the compiler emits. *)
Definition to_int64 (f : float64) : Z :=
  match f with
  | S754_zero _ => 0%Z
  | S754_finite _ _ _ =>
      let t := truncate f in
      if ((MinInt64 <=? t) && (t <=? MaxInt64))%Z%bool then t else MinInt64
  | _ => MinInt64
  end.

(** The conversion [float64(i)], rounding to nearest even. *)
Definition of_int64 (i : Z) : float64 := binary_normalize prec emax i 0 false.

(** The conversion [float64(u)] of an unsigned integer. *)
Definition of_uint64 (u : Z) : float64 := binary_normalize prec emax u 0 false.

(** The float nearest to [n / d], for writing down literals. *)
Definition of_ratio (n d : Z) : float64 :=
  SFdiv prec emax (of_int64 n) (of_int64 d).

End Float64.

Module GoStrconv.

Import Float64.

(** [strconv.FormatInt i 10], and [strconv.Itoa]. *)
Definition FormatInt (i : Z) : string := NilZero.string_of_int (Z.to_int i).

Definition Itoa (i : nat) : string := FormatInt (Z.of_nat i).

(** [strconv.FormatFloat f 'f' (-1) 64]: the shortest decimal that
    reads back as [f], printed without an exponent.

    A positive finite float [m * 2^e] is the rounding of exactly the
    reals between [lo] and [hi], the midpoints to its neighbours; the
    midpoints themselves belong to it when [m] is even.  With
    [den = 2^(2-e)] (or 1), the three numbers are [lo/den], [mid/den]
    and [hi/den]. *)
Definition interval (m : positive) (e : Z) : Z * Z * Z * Z :=
  let m4 := (4 * Zpos m)%Z in
  let below :=
    if ((Zpos m =? 2 ^ 52) && (-1074 <? e))%Z%bool then (m4 - 1)%Z else (m4 - 2)%Z in
  let e' := (e - 2)%Z in
  if (0 <=? e')%Z
  then ((below * 2 ^ e')%Z, (m4 * 2 ^ e')%Z, ((m4 + 2) * 2 ^ e')%Z, 1%Z)
  else (below, m4, (m4 + 2)%Z, (2 ^ (- e'))%Z).

(** The digits [D] of the multiple [D * 10^k] of [10^k] nearest to the
    float among those that read back as it, when there is one. *)
Definition multiple_in_interval (lo mid hi den : Z) (incl : bool) (k : Z)
  : option Z :=
  let up_scale := if (0 <=? k)%Z then 1%Z else (10 ^ (- k))%Z in
  let down_scale := if (0 <=? k)%Z then (10 ^ k)%Z else 1%Z in
  let unit := (down_scale * den)%Z in
  let l := (lo * up_scale)%Z in
  let c := (mid * up_scale)%Z in
  let h := (hi * up_scale)%Z in
  let inside (d : Z) :=
    let x := (d * unit)%Z in
    if incl then ((l <=? x) && (x <=? h))%Z%bool else ((l <? x) && (x <? h))%Z%bool in
  let dn := (c / unit)%Z in
  let up := (dn + 1)%Z in
  match ((0 <? dn)%Z && inside dn)%bool, inside up with
  | true, true =>
      let below := (c - dn * unit)%Z in
      let above := (up * unit - c)%Z in
      if (below <? above)%Z then Some dn
      else if (above <? below)%Z then Some up
      else if Z.even dn then Some dn else Some up
  | true, false => Some dn
  | false, true => Some up
  | false, false => None
  end.

Fixpoint shortest_from (lo mid hi den : Z) (incl : bool) (k : Z) (steps : nat)
  : Z * Z :=
  match multiple_in_interval lo mid hi den incl k, steps with
  | Some d, _ => (d, k)
  | None, S n => shortest_from lo mid hi den incl (k - 1) n
  | None, O => (0%Z, 0%Z)
  end.

Definition zeros (n : nat) : string := GoStrings.repeat_string "0" n.

(** [d * 10^k] in the [%f] layout. *)
Definition fixed_layout (d k : Z) : string :=
  let ds := FormatInt d in
  if (0 <=? k)%Z then ds ++ zeros (Z.to_nat k)
  else
    let frac := Z.to_nat (- k) in
    let padded := zeros (S frac - String.length ds) ++ ds in
    let int_len := String.length padded - frac in
    String.substring 0 int_len padded ++ "." ++ String.substring int_len frac padded.

Definition FormatFloat (f : float64) : string :=
  match f with
  | S754_zero s => if s then "-0" else "0"
  | S754_infinity s => if s then "-Inf" else "+Inf"
  | S754_nan => "NaN"
  | S754_finite s m e =>
      let '(lo, mid, hi, den) := interval m e in
      let top := Z.of_nat (String.length (FormatInt (hi / den + 1))) in
      let bottom := Z.min 0 (e - 2) in
      let '(d, k) :=
        shortest_from lo mid hi den (Z.even (Zpos m)) top
                      (Z.to_nat (top - bottom)) in
      (if s then "-" else "") ++ fixed_layout d k
  end.

End GoStrconv.

Import GoStrings GoStrconv GoRegexp.

(** ** The normalized value model

    What [normalizeValue] returns: [nil], [bool], [float64], [string],
    [[]interface{}] and [map[string]interface{}].  A Go map has no
    order of its own and [range] visits it in an arbitrary one; an
    object is modelled by the list of its entries in the order a
    [range] visits them.  The keys of a map are distinct
    ([wf_value]). *)

#[local] Set Warnings "-register-all".

Inductive value : Type :=
| VNil : value
| VBool : bool -> value
| VNumber : Float64.float64 -> value
| VString : string -> value
| VArray : list value -> value
| VObject : list (string * value) -> value.

Definition object : Type := list (string * value).

(** [for k := range obj]: the keys in iteration order. *)
Definition range_keys (obj : object) : list string := map fst obj.

(** [v, exists := obj[key]]. *)
Fixpoint lookup (obj : object) (key : string) : option value :=
  match obj with
  | [] => None
  | (k, v) :: rest => if String.eqb k key then Some v else lookup rest key
  end.

(** [obj[key]]: [nil] when the key is absent. *)
Definition index (obj : object) (key : string) : value :=
  match lookup obj key with
  | Some v => v
  | None => VNil
  end.

(** ** normalize.go: the type guards *)

Definition isPrimitive (v : value) : bool :=
  match v with
  | VNil => true
  | VBool _ | VNumber _ | VString _ => true
  | _ => false
  end.

Definition isArray (v : value) : bool :=
  match v with
  | VArray _ => true
  | _ => false
  end.

Definition isObject (v : value) : bool :=
  match v with
  | VObject _ => true
  | _ => false
  end.

Definition isArrayOfPrimitives (arr : list value) : bool := forallb isPrimitive arr.
Definition isArrayOfArrays (arr : list value) : bool := forallb isArray arr.
Definition isArrayOfObjects (arr : list value) : bool := forallb isObject arr.

(** ** primitives.go *)

Definition formatNumber (f : Float64.float64) : string :=
  if Float64.eqb f (Float64.of_int64 (Float64.to_int64 f))
  then FormatInt (Float64.to_int64 f)
  else FormatFloat f.

Definition escapeString (value : string) : string :=
  let value := ReplaceAll value Backslash (Backslash ++ Backslash) in
  let value := ReplaceAll value DoubleQuote (Backslash ++ DoubleQuote) in
  let value := ReplaceAll value Newline (Backslash ++ "n") in
  let value := ReplaceAll value CarriageReturn (Backslash ++ "r") in
  let value := ReplaceAll value Tab (Backslash ++ "t") in
  value.

(** [^-?\d+(?:\.\d+)?(?:[eE][+-]?\d+)?$|^0\d+$] *)
Definition numericPattern : regex :=
  Alt (Cat (Opt (Lit "-"))
        (Cat (Plus (Class digit))
          (Cat (Opt (Cat (Lit ".") (Plus (Class digit))))
               (Opt (Cat (Class (fun c => mem_byte c "eE"))
                      (Cat (Opt (Class (fun c => mem_byte c "+-")))
                           (Plus (Class digit))))))))
      (Cat (Lit "0") (Plus (Class digit))).

Definition isNumericLike (value : string) : bool := MatchString numericPattern value.

Definition isSafeUnquoted (value delimiter : string) : bool :=
  if String.eqb value "" then false
  else if negb (String.eqb (TrimSpace value) value) then false
  else if String.eqb value TrueLiteral || String.eqb value FalseLiteral
          || String.eqb value NullLiteral then false
  else if isNumericLike value then false
  else if Contains value Colon then false
  else if Contains value DoubleQuote || Contains value Backslash then false
  else if ContainsAny value "[]{}" then false
  else if ContainsAny value (Newline ++ CarriageReturn ++ Tab) then false
  else if Contains value delimiter then false
  else if HasPrefix value ListItemMarker then false
  else true.

Definition encodeStringLiteral (value delimiter : string) : string :=
  if isSafeUnquoted value delimiter then value
  else DoubleQuote ++ escapeString value ++ DoubleQuote.

Definition encodePrimitive (v : value) (delimiter : string) : string :=
  match v with
  | VNil => NullLiteral
  | VBool b => if b then TrueLiteral else FalseLiteral
  | VNumber f => formatNumber f
  | VString s => encodeStringLiteral s delimiter
  | _ => NullLiteral
  end.

(** [^[A-Za-z_][\w.]*$] *)
Definition validKeyPattern : regex :=
  Cat (Class (fun c => in_range "A" "Z" c || in_range "a" "z" c || Ascii.eqb c "_"))
      (Star (Class (fun c => word c || Ascii.eqb c "."))).

Definition isValidUnquotedKey (key : string) : bool := MatchString validKeyPattern key.

Definition encodeKey (key : string) : string :=
  if isValidUnquotedKey key then key
  else DoubleQuote ++ escapeString key ++ DoubleQuote.

Definition joinEncodedValues (values : list value) (delimiter : string) : string :=
  Join (map (fun v => encodePrimitive v delimiter) values) delimiter.

Record headerOptions : Type := mkHeaderOptions {
  key : string;
  fields : list string;
  delimiter : string;
  lengthMarker : bool
}.

Definition formatHeader (length : nat) (options : headerOptions) : string :=
  let sb := "" in
  let sb := if negb (String.eqb (key options) "")
            then sb ++ encodeKey (key options) else sb in
  let sb := sb ++ OpenBracket in
  let sb := if lengthMarker options then sb ++ "#" else sb in
  let sb := sb ++ Itoa length in
  let sb := if negb (String.eqb (delimiter options) DefaultDelimiter)
            then sb ++ delimiter options else sb in
  let sb := sb ++ CloseBracket in
  let sb :=
    if (0 <? List.length (fields options))%nat
    then
      let quotedFields := map encodeKey (fields options) in
      sb ++ OpenBrace ++ Join quotedFields (delimiter options) ++ CloseBrace
    else sb in
  sb ++ Colon.

Definition formatInlineArray (values : list value) (delimiter prefix : string)
  (lengthMarker : bool) : string :=
  let header := formatHeader (List.length values)
                  (mkHeaderOptions prefix [] delimiter lengthMarker) in
  if (List.length values =? 0)%nat then header
  else
    let joined := joinEncodedValues values delimiter in
    header ++ " " ++ joined.

(** ** writer.go *)

(** A Go call either returns or panics. *)
Inductive outcome (A : Type) : Type :=
| Returns : A -> outcome A
| Panics : string -> outcome A.
Arguments Returns {A} _.
Arguments Panics {A} _.

(** [strings.Repeat], which panics on a negative count. *)
Definition Repeat (s : string) (count : Z) : outcome string :=
  if (count <? 0)%Z then Panics "strings: negative Repeat count"
  else Returns (repeat_string s (Z.to_nat count)).

Record LineWriter : Type := mkLineWriter {
  lines : list string;
  indentationString : string
}.

Definition NewLineWriter (indentSize : Z) : outcome LineWriter :=
  match Repeat " " indentSize with
  | Returns indent => Returns (mkLineWriter [] indent)
  | Panics msg => Panics msg
  end.

(** [depth] is a [nat]: the [strings.Repeat] of [Push] has no negative
    count to panic on. *)
Definition Push (w : LineWriter) (depth : nat) (content : string) : LineWriter :=
  let indent := repeat_string (indentationString w) depth in
  mkLineWriter (List.app (lines w) [indent ++ content]) (indentationString w).

Definition LineWriter_String (w : LineWriter) : string := Join (lines w) Newline.

(** ** types.go *)

Record EncodeOptions : Type := mkEncodeOptions {
  Indent : Z;
  Delimiter : string;
  LengthMarker : bool
}.

Definition EncodeOption : Type := EncodeOptions -> EncodeOptions.

Definition WithIndent (n : Z) : EncodeOption :=
  fun opts => mkEncodeOptions n (Delimiter opts) (LengthMarker opts).

Definition WithDelimiter (d : string) : EncodeOption :=
  fun opts => mkEncodeOptions (Indent opts) d (LengthMarker opts).

Definition WithLengthMarker : EncodeOption :=
  fun opts => mkEncodeOptions (Indent opts) (Delimiter opts) true.

Definition defaultOptions : EncodeOptions :=
  mkEncodeOptions 2 DefaultDelimiter false.

Definition resolveOptions (opts : list EncodeOption) : EncodeOptions :=
  fold_left (fun options opt => opt options) opts defaultOptions.

(** ** encoders.go *)

(** The cast [item.(map[string]interface{})] of an element that
    [isArrayOfObjects] has checked. *)
Definition as_object (item : value) : object :=
  match item with
  | VObject obj => obj
  | _ => []
  end.

Definition as_objects (arr : list value) : list object := map as_object arr.

Definition encodeInlinePrimitiveArray (prefix : string) (values : list value)
  (writer : LineWriter) (depth : nat) (opts : EncodeOptions) : LineWriter :=
  let formatted := formatInlineArray values (Delimiter opts) prefix (LengthMarker opts) in
  Push writer depth formatted.

Definition encodeArrayOfArraysAsListItems (prefix : string) (arrays : list value)
  (writer : LineWriter) (depth : nat) (opts : EncodeOptions) : LineWriter :=
  let header := formatHeader (List.length arrays)
                  (mkHeaderOptions prefix [] (Delimiter opts) (LengthMarker opts)) in
  let writer := Push writer depth header in
  fold_left
    (fun writer item =>
       match item with
       | VArray arr =>
           if isArrayOfPrimitives arr
           then
             let inline := formatInlineArray arr (Delimiter opts) "" (LengthMarker opts) in
             Push writer (depth + 1) (ListItemPrefix ++ inline)
           else writer
       | _ => writer
       end)
    arrays writer.

Definition isTabularArray (objects : list object) (header : list string) : bool :=
  forallb
    (fun obj =>
       (List.length obj =? List.length header)%nat
       && forallb
            (fun key =>
               match lookup obj key with
               | None => false
               | Some value => isPrimitive value
               end)
            header)
    objects.

(** [None] is the [nil] slice. *)
Definition detectTabularHeader (objects : list object) : option (list string) :=
  match objects with
  | [] => None
  | firstObj :: _ =>
      if (List.length firstObj =? 0)%nat then None
      else
        let firstKeys := GoSort.Strings (range_keys firstObj) in
        if isTabularArray objects firstKeys then Some firstKeys else None
  end.

Definition writeTabularRows (objects : list object) (header : list string)
  (writer : LineWriter) (depth : nat) (opts : EncodeOptions) : LineWriter :=
  fold_left
    (fun writer obj =>
       let values := map (fun key => index obj key) header in
       let joined := joinEncodedValues values (Delimiter opts) in
       Push writer depth joined)
    objects writer.

Definition encodeArrayOfObjectsAsTabular (prefix : string) (objects : list object)
  (header : list string) (writer : LineWriter) (depth : nat) (opts : EncodeOptions)
  : LineWriter :=
  let headerStr := formatHeader (List.length objects)
                     (mkHeaderOptions prefix header (Delimiter opts) (LengthMarker opts)) in
  let writer := Push writer depth headerStr in
  writeTabularRows objects header writer (depth + 1) opts.

(** The five remaining encoders call each other.  Their recursion
    follows the nesting of the value: each is first written with the
    encoders it calls on the elements of its argument as parameters,
    and [encodeKeyValuePair] and [encodeListItem] close the recursion
    on the value.  [with_entry key found absent obj] is [found obj[key]],
    written so that [obj[key]] is visibly a part of [obj]; [absent] is
    the result for the [nil] of a missing key. *)
Definition with_entry {B : Type} (key : string) (found : value -> B) (absent : B)
  : object -> B :=
  fix scan (obj : object) : B :=
    match obj with
    | [] => absent
    | (k, v) :: rest => if String.eqb k key then found v else scan rest
    end.

(** The branch of [encodeKeyValuePair] for a primitive value. *)
Definition pushKeyPrimitive (key : string) (v : value) (writer : LineWriter)
  (depth : nat) (opts : EncodeOptions) : LineWriter :=
  Push writer depth (encodeKey key ++ ": " ++ encodePrimitive v (Delimiter opts)).

Section Bodies.

Variable encodeKeyValuePair :
  string -> value -> LineWriter -> nat -> EncodeOptions -> LineWriter.
Variable encodeListItem : value -> LineWriter -> nat -> EncodeOptions -> LineWriter.

Definition encodeObject_body (obj : object) (writer : LineWriter) (depth : nat)
  (opts : EncodeOptions) : LineWriter :=
  let keys := GoSort.Strings (range_keys obj) in
  fold_left
    (fun writer key =>
       with_entry key
         (fun v => encodeKeyValuePair key v writer depth opts)
         (pushKeyPrimitive key VNil writer depth opts)
         obj)
    keys writer.

Definition encodeMixedArrayAsListItems_body (prefix : string) (items : list value)
  (writer : LineWriter) (depth : nat) (opts : EncodeOptions) : LineWriter :=
  let header := formatHeader (List.length items)
                  (mkHeaderOptions prefix [] (Delimiter opts) (LengthMarker opts)) in
  let writer := Push writer depth header in
  fold_left
    (fun writer item =>
       match item with
       | VArray arr =>
           if isArrayOfPrimitives arr
           then
             let inline := formatInlineArray arr (Delimiter opts) "" (LengthMarker opts) in
             Push writer (depth + 1) (ListItemPrefix ++ inline)
           else writer
       | VObject _ => encodeListItem item writer (depth + 1) opts
       | _ =>
           Push writer (depth + 1)
                (ListItemPrefix ++ encodePrimitive item (Delimiter opts))
       end)
    items writer.

Definition encodeArray_body (key : string) (arr : list value) (writer : LineWriter)
  (depth : nat) (opts : EncodeOptions) : LineWriter :=
  if (List.length arr =? 0)%nat then
    let header := formatHeader 0
                    (mkHeaderOptions key [] (Delimiter opts) (LengthMarker opts)) in
    Push writer depth header
  else if isArrayOfPrimitives arr then
    encodeInlinePrimitiveArray key arr writer depth opts
  else if isArrayOfArrays arr
          && forallb (fun item =>
                        match item with
                        | VArray itemArr => isArrayOfPrimitives itemArr
                        | _ => true
                        end) arr then
    encodeArrayOfArraysAsListItems key arr writer depth opts
  else if isArrayOfObjects arr then
    let objects := as_objects arr in
    match detectTabularHeader objects with
    | Some header => encodeArrayOfObjectsAsTabular key objects header writer depth opts
    | None => encodeMixedArrayAsListItems_body key arr writer depth opts
    end
  else encodeMixedArrayAsListItems_body key arr writer depth opts.

(** What [encodeObjectAsListItem] does with the value of the first
    key. *)
Definition encodeFirstField (firstKey : string) (firstValue : value)
  (writer : LineWriter) (depth : nat) (opts : EncodeOptions) : LineWriter :=
  let encodedKey := encodeKey firstKey in
  match firstValue with
  | VArray arr =>
      if isArrayOfPrimitives arr then
        let formatted :=
          formatInlineArray arr (Delimiter opts) firstKey (LengthMarker opts) in
        Push writer depth (ListItemPrefix ++ formatted)
      else if isArrayOfObjects arr then
        let objects := as_objects arr in
        match detectTabularHeader objects with
        | Some header =>
            let headerStr :=
              formatHeader (List.length arr)
                (mkHeaderOptions firstKey header (Delimiter opts) (LengthMarker opts)) in
            let writer := Push writer depth (ListItemPrefix ++ headerStr) in
            writeTabularRows objects header writer (depth + 1) opts
        | None =>
            let writer :=
              Push writer depth
                   (ListItemPrefix ++ encodedKey ++ "[" ++ Itoa (List.length arr) ++ "]:") in
            fold_left
              (fun writer item =>
                 match item with
                 | VObject _ => encodeListItem item writer (depth + 1) opts
                 | _ => writer
                 end)
              arr writer
        end
      else
        let writer :=
          Push writer depth
               (ListItemPrefix ++ encodedKey ++ "[" ++ Itoa (List.length arr) ++ "]:") in
        fold_left
          (fun writer item =>
             match item with
             | VArray itemArr =>
                 if isArrayOfPrimitives itemArr
                 then
                   let inline :=
                     formatInlineArray itemArr (Delimiter opts) "" (LengthMarker opts) in
                   Push writer (depth + 1) (ListItemPrefix ++ inline)
                 else writer
             | VObject _ => encodeListItem item writer (depth + 1) opts
             | _ =>
                 Push writer (depth + 1)
                      (ListItemPrefix ++ encodePrimitive item (Delimiter opts))
             end)
          arr writer
  | VObject nestedObj =>
      if (List.length (range_keys nestedObj) =? 0)%nat then
        Push writer depth (ListItemPrefix ++ encodedKey ++ Colon)
      else
        let writer := Push writer depth (ListItemPrefix ++ encodedKey ++ Colon) in
        encodeObject_body nestedObj writer (depth + 2) opts
  | _ =>
      Push writer depth
           (ListItemPrefix ++ encodedKey ++ ": "
              ++ encodePrimitive firstValue (Delimiter opts))
  end.

Definition encodeObjectAsListItem_body (obj : object) (writer : LineWriter)
  (depth : nat) (opts : EncodeOptions) : LineWriter :=
  let keys := GoSort.Strings (range_keys obj) in
  match keys with
  | [] => Push writer depth ListItemMarker
  | firstKey :: remaining =>
      let writer :=
        with_entry firstKey
          (fun firstValue => encodeFirstField firstKey firstValue writer depth opts)
          (encodeFirstField firstKey VNil writer depth opts)
          obj in
      fold_left
        (fun writer key =>
           with_entry key
             (fun v => encodeKeyValuePair key v writer (depth + 1) opts)
             (pushKeyPrimitive key VNil writer (depth + 1) opts)
             obj)
        remaining writer
  end.

End Bodies.

Fixpoint encodeKeyValuePair (key : string) (value : value) (writer : LineWriter)
  (depth : nat) (opts : EncodeOptions) {struct value} : LineWriter :=
  match value with
  | VArray arr => encodeArray_body encodeListItem key arr writer depth opts
  | VObject obj =>
      if (List.length (range_keys obj) =? 0)%nat then
        Push writer depth (encodeKey key ++ Colon)
      else
        let writer := Push writer depth (encodeKey key ++ Colon) in
        encodeObject_body encodeKeyValuePair obj writer (depth + 1) opts
  | _ => pushKeyPrimitive key value writer depth opts
  end

with encodeListItem (item : value) (writer : LineWriter) (depth : nat)
  (opts : EncodeOptions) {struct item} : LineWriter :=
  match item with
  | VObject obj =>
      encodeObjectAsListItem_body encodeKeyValuePair encodeListItem
        obj writer depth opts
  | _ => writer
  end.

Definition encodeObject : object -> LineWriter -> nat -> EncodeOptions -> LineWriter :=
  encodeObject_body encodeKeyValuePair.

Definition encodeArray
  : string -> list value -> LineWriter -> nat -> EncodeOptions -> LineWriter :=
  encodeArray_body encodeListItem.

Definition encodeMixedArrayAsListItems
  : string -> list value -> LineWriter -> nat -> EncodeOptions -> LineWriter :=
  encodeMixedArrayAsListItems_body encodeListItem.

Definition encodeObjectAsListItem (obj : object) (writer : LineWriter) (depth : nat)
  (opts : EncodeOptions) : LineWriter :=
  encodeListItem (VObject obj) writer depth opts.

Definition encodeValue (value : value) (opts : EncodeOptions) : outcome string :=
  if isPrimitive value then Returns (encodePrimitive value (Delimiter opts))
  else
    match NewLineWriter (Indent opts) with
    | Panics msg => Panics msg
    | Returns writer =>
        let writer :=
          match value with
          | VArray arr => encodeArray "" arr writer 0 opts
          | VObject obj => encodeObject obj writer 0 opts
          | _ => writer
          end in
        Returns (LineWriter_String writer)
    end.

(** ** normalize.go: [normalizeValue]

    The values [reflect] tells apart, by [Kind]: the integer kinds
    carry their value, both float kinds their value as a float64, an
    array is a slice, a map carries its entries in iteration order when
    its keys are strings and nothing otherwise, a [time.Time] carries
    its [Format(time.RFC3339Nano)], a struct its fields in declaration
    order (name, exported and interfaceable, [json] tag, value), and a
    pointer or interface its target unless it is nil.  A Go value that
    reaches itself through pointers has no counterpart here. *)

Inductive goValue : Type :=
| GoNil : goValue
| GoBool : bool -> goValue
| GoInt : Z -> goValue
| GoUint : Z -> goValue
| GoFloat : Float64.float64 -> goValue
| GoString : string -> goValue
| GoSlice : list goValue -> goValue
| GoMap : option (list (string * goValue)) -> goValue
| GoTime : string -> goValue
| GoStruct : list (string * bool * string * goValue) -> goValue
| GoPtr : option goValue -> goValue
| GoOther : goValue.

(** [obj[key] = v] on a map. *)
Fixpoint map_set (obj : object) (key : string) (v : value) : object :=
  match obj with
  | [] => [(key, v)]
  | (k, old) :: rest =>
      if String.eqb k key then (k, v) :: rest else (k, old) :: map_set rest key v
  end.

Definition isNaN (f : Float64.float64) : bool :=
  match f with
  | S754_nan => true
  | _ => false
  end.

Definition isInf (f : Float64.float64) : bool :=
  match f with
  | S754_infinity _ => true
  | _ => false
  end.

Fixpoint normalizeValue (input : goValue) : value :=
  match input with
  | GoNil => VNil
  | GoBool b => VBool b
  | GoInt i => VNumber (Float64.of_int64 i)
  | GoUint u => VNumber (Float64.of_uint64 u)
  | GoFloat f =>
      if isNaN f || isInf f then VNil
      else if Float64.eqb f (S754_zero false) then VNumber (S754_zero false)
      else VNumber f
  | GoString s => VString s
  | GoSlice elems => VArray (map normalizeValue elems)
  | GoMap None => VNil
  | GoMap (Some entries) =>
      VObject
        ((fix each (entries : list (string * goValue)) (obj : object) : object :=
            match entries with
            | [] => obj
            | (key, v) :: rest => each rest (map_set obj key (normalizeValue v))
            end) entries [])
  | GoTime formatted => VString formatted
  | GoStruct fields =>
      VObject
        ((fix each (fields : list (string * bool * string * goValue)) (obj : object)
            : object :=
            match fields with
            | [] => obj
            | (name, exported, tag, fieldValue) :: rest =>
                if exported then
                  let name :=
                    if negb (String.eqb tag "") && negb (String.eqb tag "-")
                    then tag else name in
                  each rest (map_set obj name (normalizeValue fieldValue))
                else each rest obj
            end) fields [])
  | GoPtr None => VNil
  | GoPtr (Some target) => normalizeValue target
  | GoOther => VNil
  end.

(** ** toon.go

    The result of [Encode] is the pair of the text and the error, which
    is always [nil] ([None]). *)
Definition Encode (input : goValue) (opts : list EncodeOption)
  : outcome (string * option string) :=
  let normalized := normalizeValue input in
  let options := resolveOptions opts in
  match encodeValue normalized options with
  | Returns result => Returns (result, None)
  | Panics msg => Panics msg
  end.

(** * Notions used in the statements *)

(** The order of [sort.Strings]: Go's [<=] on strings. *)
Definition lex_le (a b : string) : Prop := String.leb a b = true.

(** The keys of a Go map are distinct. *)
Definition distinct_keys (obj : object) : Prop := NoDup (range_keys obj).

(** [obj] has the keys of [first], no more and no fewer. *)
Definition same_key_set (obj first : object) : Prop :=
  forall k, In k (range_keys obj) <-> In k (range_keys first).

(** Every field of [obj] holds a scalar. *)
Definition all_scalar (obj : object) : Prop :=
  forall k v, In (k, v) obj -> isPrimitive v = true.

(** Every object has the key set of [first] and scalar fields only. *)
Definition uniform (objects : list object) (first : object) : Prop :=
  Forall (fun obj => same_key_set obj first /\ all_scalar obj) objects.

(** The strings a regular expression matches. *)
Inductive matches : regex -> string -> Prop :=
| matches_eps : matches Eps EmptyString
| matches_class : forall p c, p c = true -> matches (Class p) (String c EmptyString)
| matches_cat : forall r1 r2 s1 s2,
    matches r1 s1 -> matches r2 s2 -> matches (Cat r1 r2) (s1 ++ s2)
| matches_alt_l : forall r1 r2 s, matches r1 s -> matches (Alt r1 r2) s
| matches_alt_r : forall r1 r2 s, matches r2 s -> matches (Alt r1 r2) s
| matches_star_nil : forall r, matches (Star r) EmptyString
| matches_star_cons : forall r s1 s2,
    matches r s1 -> matches (Star r) s2 -> matches (Star r) (s1 ++ s2).

(** [s] holds the byte [c]. *)
Definition has_byte (c : ascii) (s : string) : Prop := In c (list_ascii_of_string s).

(** [sub] occurs in [s]. *)
Definition has_substring (sub s : string) : Prop := exists a b, s = a ++ sub ++ b.

(** One or more decimal digits. *)
Definition is_digit (c : ascii) : Prop := 48 <= nat_of_ascii c <= 57.

Definition digits (s : string) : Prop :=
  s <> EmptyString /\ Forall is_digit (list_ascii_of_string s).

(** [-?digits(.digits)?([eE][+-]?digits)?] *)
Definition numeric_literal (s : string) : Prop :=
  exists sign int frac exp,
    s = sign ++ int ++ frac ++ exp
    /\ (sign = EmptyString \/ sign = "-")
    /\ digits int
    /\ (frac = EmptyString \/ exists f, frac = "." ++ f /\ digits f)
    /\ (exp = EmptyString
        \/ exists e sg x,
             exp = e ++ sg ++ x /\ (e = "e" \/ e = "E")
             /\ (sg = EmptyString \/ sg = "+" \/ sg = "-") /\ digits x).

(** The leading-zero integer form [0digits]. *)
Definition leading_zero_integer (s : string) : Prop :=
  exists ds, s = "0" ++ ds /\ digits ds.

(** The conditions under which a string is quoted, in the order of
    [isSafeUnquoted]. *)
Definition needs_quotes (s d : string) : Prop :=
  s = EmptyString
  \/ TrimSpace s <> s
  \/ (s = "true" \/ s = "false" \/ s = "null")
  \/ (numeric_literal s \/ leading_zero_integer s)
  \/ has_byte ":" s
  \/ (has_byte (ascii_of_nat 34) s \/ has_byte "\" s)
  \/ (has_byte "[" s \/ has_byte "]" s \/ has_byte "{" s \/ has_byte "}" s)
  \/ (has_byte (ascii_of_nat 10) s \/ has_byte (ascii_of_nat 13) s
      \/ has_byte (ascii_of_nat 9) s)
  \/ has_substring d s
  \/ (exists rest, s = "-" ++ rest).

(** The replacement of every byte [old] of [s] by [new]. *)
Fixpoint replace_byte (old : ascii) (new s : string) : string :=
  match s with
  | EmptyString => EmptyString
  | String c rest =>
      (if Ascii.eqb c old then new else String c EmptyString)
        ++ replace_byte old new rest
  end.

(** The escape of one byte. *)
Definition escape_byte (c : ascii) : string :=
  if Ascii.eqb c "\" then "\\"
  else if Ascii.eqb c (ascii_of_nat 34) then "\" ++ DoubleQuote
  else if Ascii.eqb c (ascii_of_nat 10) then "\n"
  else if Ascii.eqb c (ascii_of_nat 13) then "\r"
  else if Ascii.eqb c (ascii_of_nat 9) then "\t"
  else String c EmptyString.

Fixpoint escape_bytes (s : string) : string :=
  match s with
  | EmptyString => EmptyString
  | String c rest => escape_byte c ++ escape_bytes rest
  end.

(** Modelled from the spec: the unescape rule of a reader of the
    notation, which the repository (an encoder only) does not contain.
    A backslash introduces one of the five escapes and stands for the
    escaped byte; every other byte stands for itself.  [None] is a text
    that is no escaped string. *)
Fixpoint unescapeString (s : string) : option string :=
  match s with
  | EmptyString => Some EmptyString
  | String c rest =>
      if Ascii.eqb c "\" then
        match rest with
        | EmptyString => None
        | String e rest' =>
            let decoded :=
              if Ascii.eqb e "\" then Some "\"%char
              else if Ascii.eqb e (ascii_of_nat 34) then Some (ascii_of_nat 34)
              else if Ascii.eqb e "n" then Some (ascii_of_nat 10)
              else if Ascii.eqb e "r" then Some (ascii_of_nat 13)
              else if Ascii.eqb e "t" then Some (ascii_of_nat 9)
              else None in
            match decoded, unescapeString rest' with
            | Some b, Some tail => Some (String b tail)
            | _, _ => None
            end
        end
      else
        match unescapeString rest with
        | Some tail => Some (String c tail)
        | None => None
        end
  end.

(** A value as [normalizeValue] builds it: the keys of every object
    are distinct. *)
Inductive wf_value : value -> Prop :=
| wf_nil : wf_value VNil
| wf_bool : forall b, wf_value (VBool b)
| wf_number : forall f, wf_value (VNumber f)
| wf_string : forall s, wf_value (VString s)
| wf_array : forall arr, Forall wf_value arr -> wf_value (VArray arr)
| wf_object : forall obj,
    distinct_keys obj -> Forall (fun e => wf_value (snd e)) obj ->
    wf_value (VObject obj).

(** The same value with its maps visited in another order, at any
    depth: the entries of an object are those of the other one, in a
    different order and with their values reordered in turn. *)
Inductive reordered : value -> value -> Prop :=
| reordered_scalar : forall v, isPrimitive v = true -> reordered v v
| reordered_array : forall arr1 arr2,
    Forall2 reordered arr1 arr2 -> reordered (VArray arr1) (VArray arr2)
| reordered_object : forall obj1 obj2 obj2',
    Forall2 (fun e1 e2 => fst e1 = fst e2 /\ reordered (snd e1) (snd e2)) obj1 obj2' ->
    Permutation obj2' obj2 ->
    reordered (VObject obj1) (VObject obj2).

Fixpoint value_size (v : value) : nat :=
  match v with
  | VArray arr => S (list_sum (map value_size arr))
  | VObject obj => S (list_sum (map (fun e => value_size (snd e)) obj))
  | _ => 1
  end.

(** The two entries found under a key of two objects that are
    reorderings of each other: none in both, or reordered values. *)
Definition lookup_related (found1 found2 : option value) : Prop :=
  (found1 = None /\ found2 = None)
  \/ (exists a b, found1 = Some a /\ found2 = Some b /\ reordered a b).

(** The two encoders that recurse on a value give the same lines for
    [v1] and [v2]. *)
Definition encoders_agree (v1 v2 : value) : Prop :=
  (forall key w depth opts,
      encodeKeyValuePair key v1 w depth opts = encodeKeyValuePair key v2 w depth opts)
  /\ (forall w depth opts,
        encodeListItem v1 w depth opts = encodeListItem v2 w depth opts).

(** Reordering does not change what the encoders give for values
    smaller than [n]. *)
Definition invariant_below (n : nat) : Prop :=
  forall v1 v2,
    value_size v1 < n -> wf_value v1 -> reordered v1 v2 -> encoders_agree v1 v2.

(** What the list encoders do with one element. *)
Definition encodeItem (depth : nat) (opts : EncodeOptions) (writer : LineWriter)
  (item : value) : LineWriter :=
  match item with
  | VArray arr =>
      if isArrayOfPrimitives arr
      then Push writer (depth + 1)
             (ListItemPrefix
                ++ formatInlineArray arr (Delimiter opts) EmptyString (LengthMarker opts))
      else writer
  | VObject obj => encodeObjectAsListItem obj writer (depth + 1) opts
  | _ => Push writer (depth + 1)
           (ListItemPrefix ++ encodePrimitive item (Delimiter opts))
  end.

(** Shorthands for writing down inputs and expected outputs: a Go map
    with string keys, the outcome of a call that returns the given lines
    and a nil error, and a text between double quotes. *)
Definition obj_ (entries : list (string * goValue)) : goValue := GoMap (Some entries).

Definition text (ls : list string) : outcome (string * option string) :=
  Returns (Join ls Newline, None).

Definition quoted (s : string) : string := DoubleQuote ++ s ++ DoubleQuote.

(** ** Notions of the further properties *)

(** The bytes of a key that needs no quotes: [A-Za-z_] at its start,
    [A-Za-z0-9_.] after it. *)
Definition key_start (c : ascii) : Prop :=
  65 <= nat_of_ascii c <= 90 \/ 97 <= nat_of_ascii c <= 122 \/ nat_of_ascii c = 95.

Definition key_byte (c : ascii) : Prop :=
  key_start c \/ is_digit c \/ nat_of_ascii c = 46.

Definition identifier_key (k : string) : Prop :=
  exists c rest,
    k = String c rest /\ key_start c /\ Forall key_byte (list_ascii_of_string rest).

(** [s] holds no newline, no carriage return and no tab. *)
Definition one_line (s : string) : Prop :=
  ~ has_byte (ascii_of_nat 10) s /\ ~ has_byte (ascii_of_nat 13) s
  /\ ~ has_byte (ascii_of_nat 9) s.

(** A scalar other than a number. *)
Definition plain_scalar (v : value) : Prop :=
  match v with
  | VNil | VBool _ | VString _ => True
  | _ => False
  end.

(** A line at nesting depth [depth] or deeper: it starts with [depth]
    copies of the indentation string. *)
Definition at_depth (indent : string) (depth : nat) (line : string) : Prop :=
  exists rest, line = repeat_string indent depth ++ rest.

(** [run] appends lines to a writer whose indentation string is
    [indent], the same lines whatever the writer already holds, each of
    them satisfying [P], and leaves the rest of the writer alone. *)
Definition emits (indent : string) (P : string -> Prop)
  (run : LineWriter -> LineWriter) : Prop :=
  exists new,
    Forall P new
    /\ forall w, indentationString w = indent ->
                 run w = mkLineWriter (List.app (lines w) new) indent.

(** The two encoders that recurse on a value only append lines at
    their depth or deeper, for values smaller than [n]. *)
Definition emits_below (n : nat) : Prop :=
  forall v, value_size v < n ->
  forall indent,
    (forall key depth opts,
        emits indent (at_depth indent depth)
          (fun w => encodeKeyValuePair key v w depth opts))
    /\ (forall depth opts,
          emits indent (at_depth indent depth)
            (fun w => encodeListItem v w depth opts)).

(** The cast [item.([]interface{})] of an element that
    [isArrayOfArrays] has checked. *)
Definition as_array (item : value) : list value :=
  match item with
  | VArray arr => arr
  | _ => []
  end.

(** The name a struct field is stored under: its [json] tag, unless
    the tag is empty or [-]. *)
Definition external_name (name tag : string) : string :=
  if negb (String.eqb tag "") && negb (String.eqb tag "-") then tag else name.

(** The calls of the three option constructors of types.go. *)
Inductive optionCall : Type :=
| CallWithIndent : Z -> optionCall
| CallWithDelimiter : string -> optionCall
| CallWithLengthMarker : optionCall.

Definition call (c : optionCall) : EncodeOption :=
  match c with
  | CallWithIndent n => WithIndent n
  | CallWithDelimiter d => WithDelimiter d
  | CallWithLengthMarker => WithLengthMarker
  end.

(** A decimal without an exponent: [-?digits(.digits)?]. *)
Definition plain_decimal (s : string) : Prop :=
  exists sign int frac,
    s = sign ++ int ++ frac
    /\ (sign = EmptyString \/ sign = "-")
    /\ digits int
    /\ (frac = EmptyString \/ exists f, frac = "." ++ f /\ digits f).

(** A value whose numbers are all finite, as [normalizeValue] lets no
    NaN and no infinity through. *)
Inductive finite_value : value -> Prop :=
| finite_nil : finite_value VNil
| finite_bool : forall b, finite_value (VBool b)
| finite_number : forall f, isNaN f = false -> isInf f = false -> finite_value (VNumber f)
| finite_string : forall s, finite_value (VString s)
| finite_array : forall arr, Forall finite_value arr -> finite_value (VArray arr)
| finite_object : forall obj,
    Forall (fun e => finite_value (snd e)) obj -> finite_value (VObject obj).

(** The two encoders that recurse on a value only append lines
    without a line break, for values smaller than [n] whose numbers are
    finite. *)
Definition one_line_below (indent : string) (opts : EncodeOptions) (n : nat) : Prop :=
  forall v, value_size v < n -> finite_value v ->
    (forall key depth,
        emits indent one_line (fun w => encodeKeyValuePair key v w depth opts))
    /\ (forall depth,
          emits indent one_line (fun w => encodeListItem v w depth opts)).

(** A number of the value model: not NaN, not infinite, and not the
    negative zero. *)
Definition proper_number (f : Float64.float64) : Prop :=
  isNaN f = false /\ isInf f = false /\ f <> S754_zero true.

(** Every number of a value, at any depth, satisfies [P]. *)
Inductive every_number (P : Float64.float64 -> Prop) : value -> Prop :=
| every_nil : every_number P VNil
| every_bool : forall b, every_number P (VBool b)
| every_float : forall f, P f -> every_number P (VNumber f)
| every_string : forall s, every_number P (VString s)
| every_array : forall arr, Forall (every_number P) arr -> every_number P (VArray arr)
| every_object : forall obj,
    Forall (fun e => every_number P (snd e)) obj -> every_number P (VObject obj).

(** A Go value whose integers are those of the 64-bit kinds [reflect]
    reads with [Int] and [Uint]. *)
Inductive host_ints_fit : goValue -> Prop :=
| fit_nil : host_ints_fit GoNil
| fit_bool : forall b, host_ints_fit (GoBool b)
| fit_int : forall i,
    (Float64.MinInt64 <= i <= Float64.MaxInt64)%Z -> host_ints_fit (GoInt i)
| fit_uint : forall u, (0 <= u < 2 ^ 64)%Z -> host_ints_fit (GoUint u)
| fit_float : forall f, host_ints_fit (GoFloat f)
| fit_string : forall s, host_ints_fit (GoString s)
| fit_slice : forall elems, Forall host_ints_fit elems -> host_ints_fit (GoSlice elems)
| fit_map_other : host_ints_fit (GoMap None)
| fit_map : forall entries,
    Forall (fun e => host_ints_fit (snd e)) entries ->
    host_ints_fit (GoMap (Some entries))
| fit_time : forall formatted, host_ints_fit (GoTime formatted)
| fit_struct : forall fields,
    Forall (fun field => host_ints_fit (snd field)) fields ->
    host_ints_fit (GoStruct fields)
| fit_ptr_nil : host_ints_fit (GoPtr None)
| fit_ptr : forall target, host_ints_fit target -> host_ints_fit (GoPtr (Some target))
| fit_other : host_ints_fit GoOther.

(** The check of [one_line] on a text that is written out. *)
Definition one_lineb (s : string) : bool :=
  negb (mem_byte (ascii_of_nat 10) s) && negb (mem_byte (ascii_of_nat 13) s)
  && negb (mem_byte (ascii_of_nat 9) s).

(** [run], called at a depth, appends to a writer whose indentation
    string is [indent] the lines [new], the same at every depth and
    for every writer, each after the indentation of the depth. *)
Definition shifts (indent : string) (run : nat -> LineWriter -> LineWriter) : Prop :=
  exists new,
    forall depth w,
      indentationString w = indent ->
      run depth w
      = mkLineWriter
          (List.app (lines w)
             (map (fun line => repeat_string indent depth ++ line) new))
          indent.

(** The two encoders that recurse on a value do so, for values smaller
    than [n]. *)
Definition shifts_below (indent : string) (n : nat) : Prop :=
  forall v, value_size v < n ->
    (forall key opts,
        shifts indent (fun depth w => encodeKeyValuePair key v w depth opts))
    /\ (forall opts,
          shifts indent (fun depth w => encodeListItem v w depth opts)).

(** * Properties *)

(** ** Strings *)

Lemma append_nil_r (s : string) : s ++ "" = s.
Proof. induction s as [|c s IH]; simpl; [reflexivity | now rewrite IH]. Qed.

Lemma append_assoc (a b c : string) : (a ++ b) ++ c = a ++ b ++ c.
Proof. induction a as [|x a IH]; simpl; [reflexivity | now rewrite IH]. Qed.

Lemma length_append (a b : string) :
  String.length (a ++ b) = String.length a + String.length b.
Proof. induction a as [|x a IH]; simpl; [reflexivity | now rewrite IH]. Qed.

(** ** The line writer *)

Lemma Push_lines (w : LineWriter) (depth : nat) (content : string) :
  lines (Push w depth content)
  = List.app (lines w) [repeat_string (indentationString w) depth ++ content].
Proof. reflexivity. Qed.

Lemma Push_indentation (w : LineWriter) (depth : nat) (content : string) :
  indentationString (Push w depth content) = indentationString w.
Proof. reflexivity. Qed.

Lemma NewLineWriter_returns (indentSize : Z) :
  (0 <= indentSize)%Z ->
  NewLineWriter indentSize
  = Returns (mkLineWriter [] (repeat_string " " (Z.to_nat indentSize))).
Proof.
  intros H. unfold NewLineWriter, Repeat.
  destruct (indentSize <? 0)%Z eqn:E; [apply Z.ltb_lt in E; lia | reflexivity].
Qed.

Lemma NewLineWriter_panics (indentSize : Z) :
  (indentSize < 0)%Z ->
  NewLineWriter indentSize = Panics "strings: negative Repeat count".
Proof.
  intros H. unfold NewLineWriter, Repeat.
  destruct (indentSize <? 0)%Z eqn:E; [reflexivity | apply Z.ltb_ge in E; lia].
Qed.

(** ** [obj[key]] and the equations of the encoders *)

Lemma with_entry_lookup {B : Type} (key : string) (found : value -> B) (absent : B)
  (obj : object) :
  with_entry key found absent obj
  = match lookup obj key with
    | Some v => found v
    | None => absent
    end.
Proof.
  induction obj as [|[k v] rest IH]; simpl; [reflexivity|].
  destruct (String.eqb k key); [reflexivity | exact IH].
Qed.

Lemma encodeKeyValuePair_primitive (key : string) (v : value) (w : LineWriter)
  (depth : nat) (opts : EncodeOptions) :
  isPrimitive v = true ->
  encodeKeyValuePair key v w depth opts
  = Push w depth (encodeKey key ++ ": " ++ encodePrimitive v (Delimiter opts)).
Proof. destruct v; simpl; intros H; try discriminate H; reflexivity. Qed.

Lemma with_entry_pair (key : string) (obj : object) (w : LineWriter) (depth : nat)
  (opts : EncodeOptions) :
  with_entry key (fun v => encodeKeyValuePair key v w depth opts)
    (pushKeyPrimitive key VNil w depth opts) obj
  = encodeKeyValuePair key (index obj key) w depth opts.
Proof.
  rewrite with_entry_lookup. unfold index.
  destruct (lookup obj key); reflexivity.
Qed.

Lemma fold_left_ext {A B : Type} (f g : A -> B -> A) (l : list B) (a : A) :
  (forall x y, f x y = g x y) -> fold_left f l a = fold_left g l a.
Proof.
  intros H. revert a. induction l as [|y l IH]; intros a; simpl;
    [reflexivity | now rewrite H, IH].
Qed.

(** [encodeObject] as the source writes it. *)
Lemma encodeObject_eq (obj : object) (w : LineWriter) (depth : nat)
  (opts : EncodeOptions) :
  encodeObject obj w depth opts
  = fold_left
      (fun writer key => encodeKeyValuePair key (index obj key) writer depth opts)
      (GoSort.Strings (range_keys obj)) w.
Proof.
  unfold encodeObject, encodeObject_body.
  apply fold_left_ext. intros x y. apply with_entry_pair.
Qed.

Lemma encodeObject_empty (w : LineWriter) (depth : nat) (opts : EncodeOptions) :
  encodeObject [] w depth opts = w.
Proof. reflexivity. Qed.

(** [encodeKeyValuePair] as the source writes it. *)
Lemma encodeKeyValuePair_eq (key : string) (v : value) (w : LineWriter) (depth : nat)
  (opts : EncodeOptions) :
  encodeKeyValuePair key v w depth opts
  = match v with
    | VArray arr => encodeArray key arr w depth opts
    | VObject obj =>
        encodeObject obj (Push w depth (encodeKey key ++ Colon)) (depth + 1) opts
    | _ => Push w depth (encodeKey key ++ ": " ++ encodePrimitive v (Delimiter opts))
    end.
Proof.
  destruct v as [| | | |arr|obj]; try reflexivity.
  simpl. destruct obj; reflexivity.
Qed.

(** [encodeMixedArrayAsListItems] as the source writes it. *)
Lemma encodeMixedArrayAsListItems_eq (prefix : string) (items : list value)
  (w : LineWriter) (depth : nat) (opts : EncodeOptions) :
  encodeMixedArrayAsListItems prefix items w depth opts
  = fold_left
      (fun writer item =>
         match item with
         | VArray arr =>
             if isArrayOfPrimitives arr
             then Push writer (depth + 1)
                    (ListItemPrefix
                       ++ formatInlineArray arr (Delimiter opts) "" (LengthMarker opts))
             else writer
         | VObject obj => encodeObjectAsListItem obj writer (depth + 1) opts
         | _ => Push writer (depth + 1)
                  (ListItemPrefix ++ encodePrimitive item (Delimiter opts))
         end)
      items
      (Push w depth
         (formatHeader (List.length items)
            (mkHeaderOptions prefix [] (Delimiter opts) (LengthMarker opts)))).
Proof.
  unfold encodeMixedArrayAsListItems, encodeMixedArrayAsListItems_body.
  apply fold_left_ext. intros x [| | | | |]; reflexivity.
Qed.

(** ** The top-level call *)

Lemma resolveOptions_nil : resolveOptions [] = defaultOptions.
Proof. reflexivity. Qed.

Lemma encodeValue_primitive (v : value) (opts : EncodeOptions) :
  isPrimitive v = true ->
  encodeValue v opts = Returns (encodePrimitive v (Delimiter opts)).
Proof. intros H. unfold encodeValue. now rewrite H. Qed.

Lemma encodeValue_returns (v : value) (opts : EncodeOptions) :
  (0 <= Indent opts)%Z ->
  exists result, encodeValue v opts = Returns result.
Proof.
  intros H. unfold encodeValue.
  destruct (isPrimitive v); [eexists; reflexivity|].
  rewrite (NewLineWriter_returns _ H). eexists; reflexivity.
Qed.

Lemma encodeValue_panics (v : value) (opts : EncodeOptions) :
  (Indent opts < 0)%Z -> isPrimitive v = false ->
  encodeValue v opts = Panics "strings: negative Repeat count".
Proof.
  intros H Hv. unfold encodeValue. rewrite Hv.
  now rewrite (NewLineWriter_panics _ H).
Qed.



Lemma encodeKey_valid_fields (fs : list string) :
  forallb isValidUnquotedKey fs = true -> map encodeKey fs = fs.
Proof.
  induction fs as [|f fs IH]; simpl; [reflexivity|].
  intros H. apply andb_true_iff in H. destruct H as [Hf Hfs].
  unfold encodeKey at 1. rewrite Hf. now rewrite IH.
Qed.

(** C5.  [formatHeader] writes the header grammar: the encoded key when
    there is one, the bracketed length with [#] before it when the
    length marker is on and the delimiter after it when it is not the
    comma, the braced field list (each name through [encodeKey]) when
    there are fields, and the colon; the tab-delimited example of the
    tests follows.  But not every header the encoder emits comes from
    [formatHeader]: for an object in a list whose first field holds an
    array of objects that is not tabular (or a mixed array),
    [encodeObjectAsListItem] writes the header itself, with neither the
    length marker nor the delimiter, as the last part shows. *)
Theorem C5_header_grammar_and_list_item_header :
  (forall (n : nat) (k : string) (fs : list string) (d : string) (marker : bool),
      formatHeader n (mkHeaderOptions k fs d marker)
      = (if String.eqb k EmptyString then EmptyString else encodeKey k)
          ++ "[" ++ (if marker then "#" else EmptyString) ++ Itoa n
          ++ (if String.eqb d "," then EmptyString else d) ++ "]"
          ++ match fs with
             | [] => EmptyString
             | _ :: _ => "{" ++ Join (map encodeKey fs) d ++ "}"
             end
          ++ ":")
  /\ Encode (obj_ [("tags", GoSlice [GoString "a"; GoString "b"; GoString "c"])])
            [WithDelimiter Tab]
     = text ["tags[3" ++ Tab ++ "]: a" ++ Tab ++ "b" ++ Tab ++ "c"]
  /\ Encode (GoSlice [obj_ [("a", GoSlice [obj_ [("x", obj_ [])]])]])
            [WithLengthMarker; WithDelimiter "|"]
     = text ["[#1|]:"; "  - a[1]:"; "    - x:"].
Proof.
  split; [|split].
  - intros n k fs d marker.
    unfold formatHeader. simpl key. simpl fields. simpl delimiter. simpl lengthMarker.
    unfold DefaultDelimiter, DelimiterComma, OpenBracket, CloseBracket, OpenBrace,
      CloseBrace, Colon.
    destruct (String.eqb k EmptyString); destruct marker;
      destruct (String.eqb d ","); destruct fs;
      cbn [negb List.length Nat.ltb Nat.leb];
      rewrite ?append_assoc, ?append_nil_r; reflexivity.
  - vm_compute. reflexivity.
  - vm_compute. reflexivity.
Qed.

(** C3.  The array whose one element is an array holding an array is
    not empty, not an array of primitives, not an array of arrays of
    primitives and not an array of objects; it is rendered as a list,
    and the list has a header announcing one element and no item: the
    element that is neither a primitive, an array of primitives nor an
    object is dropped.  So is, in any list, every element that is an
    array but not an array of primitives (last part). *)
Theorem C3_nested_array_element_is_dropped :
  let arr := [VArray [VArray [VNumber (Float64.of_int64 1)]]] in
  isArrayOfPrimitives arr = false
  /\ isArrayOfObjects arr = false
  /\ (forall key w depth opts,
        encodeArray key arr w depth opts
        = encodeMixedArrayAsListItems key arr w depth opts)
  /\ (forall key w depth opts,
        lines (encodeMixedArrayAsListItems key arr w depth opts)
        = List.app (lines w)
            [repeat_string (indentationString w) depth
               ++ formatHeader 1
                    (mkHeaderOptions key [] (Delimiter opts) (LengthMarker opts))])
  /\ encodeValue (VArray arr) defaultOptions = Returns "[1]:"
  /\ (forall depth opts w inner,
        isArrayOfPrimitives inner = false ->
        encodeItem depth opts w (VArray inner) = w).
Proof.
  cbv zeta. repeat split.
  intros depth opts w inner H. simpl. now rewrite H.
Qed.


Lemma encodeValue_inline (vs : list value) (opts : EncodeOptions) :
  (0 <= Indent opts)%Z -> vs <> [] -> isArrayOfPrimitives vs = true ->
  encodeValue (VArray vs) opts
  = Returns (formatHeader (List.length vs)
               (mkHeaderOptions EmptyString [] (Delimiter opts) (LengthMarker opts))
             ++ " " ++ joinEncodedValues vs (Delimiter opts)).
Proof.
  intros Hi Hne Hp. unfold encodeValue. simpl isPrimitive. cbv iota.
  rewrite (NewLineWriter_returns _ Hi).
  unfold encodeArray, encodeArray_body.
  destruct vs as [|v vs]; [contradiction|].
  change (List.length (v :: vs) =? 0)%nat with false. cbv iota.
  rewrite Hp. unfold encodeInlinePrimitiveArray, formatInlineArray.
  change (List.length (v :: vs) =? 0)%nat with false. cbv iota.
  unfold LineWriter_String, Push. reflexivity.
Qed.



(** ** The order of [sort.Strings] *)

Lemma ascii_compare_refl (a : ascii) : Ascii.compare a a = Eq.
Proof. unfold Ascii.compare. apply N.compare_refl. Qed.

Lemma ascii_compare_lt_trans (a b c : ascii) :
  Ascii.compare a b = Lt -> Ascii.compare b c = Lt -> Ascii.compare a c = Lt.
Proof.
  unfold Ascii.compare. rewrite !N.compare_lt_iff. apply N.lt_trans.
Qed.

Lemma string_compare_refl (s : string) : String.compare s s = Eq.
Proof.
  induction s as [|c s IH]; simpl; [reflexivity|].
  now rewrite ascii_compare_refl.
Qed.

Lemma string_compare_lt_trans (a b c : string) :
  String.compare a b = Lt -> String.compare b c = Lt -> String.compare a c = Lt.
Proof.
  revert b c. induction a as [|x a IH]; intros [|y b] [|z c]; simpl;
    try discriminate; try reflexivity.
  destruct (Ascii.compare x y) eqn:Exy; try discriminate;
    destruct (Ascii.compare y z) eqn:Eyz; try discriminate; intros H1 H2.
  - apply Ascii.compare_eq_iff in Exy, Eyz. subst.
    rewrite ascii_compare_refl. eapply IH; eassumption.
  - apply Ascii.compare_eq_iff in Exy. subst. now rewrite Eyz.
  - apply Ascii.compare_eq_iff in Eyz. subst. now rewrite Exy.
  - now rewrite (ascii_compare_lt_trans _ _ _ Exy Eyz).
Qed.

Lemma lex_le_cases (a b : string) :
  lex_le a b <-> a = b \/ String.compare a b = Lt.
Proof.
  unfold lex_le, String.leb. split.
  - destruct (String.compare a b) eqn:E; intros H; try discriminate.
    + left. now apply String.compare_eq_iff.
    + now right.
  - intros [->|H]; [now rewrite string_compare_refl | now rewrite H].
Qed.

Lemma lex_le_trans (a b c : string) : lex_le a b -> lex_le b c -> lex_le a c.
Proof.
  rewrite !lex_le_cases. intros [->|H1] [->|H2]; auto.
  right. eapply string_compare_lt_trans; eassumption.
Qed.

Lemma lex_le_antisym (a b : string) : lex_le a b -> lex_le b a -> a = b.
Proof. apply String.leb_antisym. Qed.

Lemma Strings_permutation (keys : list string) :
  Permutation keys (GoSort.Strings keys).
Proof. apply GoSort.StringSort.Permuted_sort. Qed.

Lemma Strings_sorted (keys : list string) :
  StronglySorted lex_le (GoSort.Strings keys).
Proof.
  apply GoSort.StringSort.StronglySorted_sort.
  intros a b c. apply lex_le_trans.
Qed.

Lemma Strings_first_is_least (keys : list string) (first : string)
  (remaining : list string) :
  GoSort.Strings keys = first :: remaining ->
  In first keys /\ Forall (lex_le first) keys.
Proof.
  intros H. pose proof (Strings_sorted keys) as Hs.
  pose proof (Strings_permutation keys) as Hp. rewrite H in Hs, Hp.
  split.
  - apply (Permutation_in _ (Permutation_sym Hp)). now left.
  - apply Forall_forall. intros k Hk.
    apply (Permutation_in _ Hp) in Hk. destruct Hk as [<-|Hk].
    + apply lex_le_cases. now left.
    + apply StronglySorted_inv in Hs. destruct Hs as [_ Hall].
      rewrite Forall_forall in Hall. now apply Hall.
Qed.

Lemma Strings_nil_inv (keys : list string) : GoSort.Strings keys = [] -> keys = [].
Proof.
  intros H. pose proof (Strings_permutation keys) as Hp. rewrite H in Hp.
  now apply Permutation_sym, Permutation_nil in Hp.
Qed.

(** ** Objects as list items *)

(** [encodeObjectAsListItem] as the source writes it: the first sorted
    key goes with the bullet, the remaining ones one level deeper. *)
Lemma encodeObjectAsListItem_eq (obj : object) (w : LineWriter) (depth : nat)
  (opts : EncodeOptions) :
  encodeObjectAsListItem obj w depth opts
  = match GoSort.Strings (range_keys obj) with
    | [] => Push w depth ListItemMarker
    | firstKey :: remaining =>
        fold_left
          (fun writer key =>
             encodeKeyValuePair key (index obj key) writer (depth + 1) opts)
          remaining
          (encodeFirstField encodeKeyValuePair encodeListItem
             firstKey (index obj firstKey) w depth opts)
    end.
Proof.
  unfold encodeObjectAsListItem. simpl. unfold encodeObjectAsListItem_body.
  destruct (GoSort.Strings (range_keys obj)) as [|firstKey remaining]; [reflexivity|].
  rewrite with_entry_lookup.
  replace (match lookup obj firstKey with
           | Some v => encodeFirstField encodeKeyValuePair encodeListItem firstKey v w depth opts
           | None => encodeFirstField encodeKeyValuePair encodeListItem firstKey VNil w depth opts
           end)
    with (encodeFirstField encodeKeyValuePair encodeListItem
            firstKey (index obj firstKey) w depth opts)
    by (unfold index; destruct (lookup obj firstKey); reflexivity).
  apply fold_left_ext. intros x y. apply with_entry_pair.
Qed.

(** C9.  An object as a list item.  Without keys it is the bare
    marker.  Otherwise its least key [firstKey] shares the line of the
    bullet: with a scalar it is [- key: scalar], with an array of
    primitives the inline form under that key, and with an object
    [- key:] followed by the nested object two levels below the
    bullet; the remaining sorted keys follow as key/value pairs one
    level below the bullet. *)
Theorem C9_object_as_list_item (obj : object) (w : LineWriter) (depth : nat)
  (opts : EncodeOptions) :
  (obj = [] -> encodeObjectAsListItem obj w depth opts = Push w depth "-")
  /\ (forall firstKey remaining,
        GoSort.Strings (range_keys obj) = firstKey :: remaining ->
        let rest := fun first_line =>
          fold_left
            (fun writer key =>
               encodeKeyValuePair key (index obj key) writer (depth + 1) opts)
            remaining first_line in
        In firstKey (range_keys obj)
        /\ Forall (lex_le firstKey) (range_keys obj)
        /\ (isPrimitive (index obj firstKey) = true ->
            encodeObjectAsListItem obj w depth opts
            = rest (Push w depth
                      ("- " ++ encodeKey firstKey ++ ": "
                         ++ encodePrimitive (index obj firstKey) (Delimiter opts))))
        /\ (forall arr,
              index obj firstKey = VArray arr -> isArrayOfPrimitives arr = true ->
              encodeObjectAsListItem obj w depth opts
              = rest (Push w depth
                        ("- " ++ formatInlineArray arr (Delimiter opts) firstKey
                                   (LengthMarker opts))))
        /\ (forall nested,
              index obj firstKey = VObject nested ->
              encodeObjectAsListItem obj w depth opts
              = rest (encodeObject nested
                        (Push w depth ("- " ++ encodeKey firstKey ++ ":"))
                        (depth + 2) opts))).
Proof.
  split.
  - intros ->. reflexivity.
  - intros firstKey remaining Hk rest.
    destruct (Strings_first_is_least _ _ _ Hk) as [Hin Hleast].
    split; [exact Hin|]. split; [exact Hleast|].
    rewrite encodeObjectAsListItem_eq, Hk. fold rest.
    split; [|split].
    + intros Hp. f_equal.
      destruct (index obj firstKey); try discriminate Hp; reflexivity.
    + intros arr -> Hp. f_equal. simpl. now rewrite Hp.
    + intros nested ->. f_equal. simpl.
      destruct nested; reflexivity.
Qed.

Lemma C9_object_as_list_item_witness :
  encodeObjectAsListItem
    [("b", VBool true); ("a", VObject [("x", VNil)])]
    (mkLineWriter [] "  ") 1 defaultOptions
  = fold_left
      (fun writer key =>
         encodeKeyValuePair key
           (index [("b", VBool true); ("a", VObject [("x", VNil)])] key)
           writer (1 + 1) defaultOptions)
      ["b"]
      (encodeObject [("x", VNil)]
         (Push (mkLineWriter [] "  ") 1 ("- " ++ encodeKey "a" ++ ":"))
         (1 + 2) defaultOptions).
Proof.
  refine (proj2 (proj2 (proj2 (proj2
           (proj2 (C9_object_as_list_item
                     [("b", VBool true); ("a", VObject [("x", VNil)])]
                     (mkLineWriter [] "  ") 1 defaultOptions)
               "a" ["b"] eq_refl)))) [("x", VNil)] eq_refl).
Defined.

Example C9_lines :
  lines (encodeObjectAsListItem
           [("b", VBool true); ("a", VObject [("x", VNil)])]
           (mkLineWriter [] "  ") 1 defaultOptions)
  = ["  - a:"; "      x: null"; "    b: true"].
Proof. reflexivity. Qed.

(** ** Lookups in an object *)

Lemma lookup_In (obj : object) (k : string) (v : value) :
  lookup obj k = Some v -> In (k, v) obj.
Proof.
  induction obj as [|[k' v'] rest IH]; simpl; [discriminate|].
  destruct (String.eqb k' k) eqn:E.
  - apply String.eqb_eq in E. subst. intros [= ->]. now left.
  - intros H. right. now apply IH.
Qed.

Lemma In_keys_lookup (obj : object) (k : string) :
  In k (range_keys obj) -> exists v, lookup obj k = Some v.
Proof.
  induction obj as [|[k' v'] rest IH]; simpl; [contradiction|].
  intros [->|H].
  - rewrite String.eqb_refl. now exists v'.
  - destruct (String.eqb k' k); [now exists v' | now apply IH].
Qed.

Lemma lookup_In_keys (obj : object) (k : string) (v : value) :
  lookup obj k = Some v -> In k (range_keys obj).
Proof.
  intros H. apply lookup_In in H. unfold range_keys.
  change k with (fst (k, v)). now apply in_map.
Qed.

Lemma In_lookup (obj : object) (k : string) (v : value) :
  distinct_keys obj -> In (k, v) obj -> lookup obj k = Some v.
Proof.
  unfold distinct_keys, range_keys.
  induction obj as [|[k' v'] rest IH]; simpl; [contradiction|].
  intros Hnd [H|H].
  - injection H as -> ->. now rewrite String.eqb_refl.
  - apply NoDup_cons_iff in Hnd. destruct Hnd as [Hnot Hnd].
    destruct (String.eqb k' k) eqn:E.
    + apply String.eqb_eq in E. subst. exfalso. apply Hnot.
      change k with (fst (k, v)). now apply in_map.
    + now apply IH.
Qed.

Lemma range_keys_length (obj : object) :
  List.length (range_keys obj) = List.length obj.
Proof. apply length_map. Qed.

(** ** Tabular arrays *)

Lemma isArrayOfObjects_objects (objects : list object) :
  isArrayOfObjects (map VObject objects) = true.
Proof. induction objects as [|o l IH]; simpl; [reflexivity | exact IH]. Qed.

Lemma as_objects_objects (objects : list object) :
  as_objects (map VObject objects) = objects.
Proof.
  unfold as_objects. induction objects as [|o l IH]; simpl;
    [reflexivity | now rewrite IH].
Qed.

Lemma isTabularArray_uniform (objects : list object) (header : list string) :
  Forall distinct_keys objects -> NoDup header ->
  (isTabularArray objects header = true
   <-> Forall (fun obj =>
                 (forall k, In k (range_keys obj) <-> In k header) /\ all_scalar obj)
         objects).
Proof.
  intros Hd Hh. unfold isTabularArray. rewrite forallb_forall, Forall_forall.
  rewrite Forall_forall in Hd.
  split.
  - intros H obj Hobj. specialize (H obj Hobj). specialize (Hd obj Hobj).
    apply andb_true_iff in H. destruct H as [Hlen Hkeys].
    apply Nat.eqb_eq in Hlen. rewrite forallb_forall in Hkeys.
    assert (Hincl : incl header (range_keys obj)).
    { intros k Hk. specialize (Hkeys k Hk).
      destruct (lookup obj k) eqn:E; [|discriminate].
      eapply lookup_In_keys; eassumption. }
    assert (Hback : incl (range_keys obj) header).
    { apply NoDup_length_incl; [exact Hh| |exact Hincl].
      rewrite range_keys_length. lia. }
    split.
    + intros k. split; [apply Hback | apply Hincl].
    + intros k v Hin.
      assert (Hk : In k header).
      { apply Hback. change k with (fst (k, v)). now apply in_map. }
      specialize (Hkeys k Hk). rewrite (In_lookup _ _ _ Hd Hin) in Hkeys.
      exact Hkeys.
  - intros H obj Hobj. destruct (H obj Hobj) as [Hsame Hscalar].
    specialize (Hd obj Hobj).
    apply andb_true_iff. split.
    + apply Nat.eqb_eq. rewrite <- range_keys_length.
      apply Permutation_length. apply NoDup_Permutation; assumption.
    + apply forallb_forall. intros k Hk. apply Hsame in Hk.
      destruct (In_keys_lookup _ _ Hk) as [v Hv]. rewrite Hv.
      eapply Hscalar, lookup_In; eassumption.
Qed.

Lemma Strings_In (keys : list string) (k : string) :
  In k (GoSort.Strings keys) <-> In k keys.
Proof.
  split; apply Permutation_in;
    [apply Permutation_sym|]; apply Strings_permutation.
Qed.

Lemma Strings_NoDup (keys : list string) : NoDup keys -> NoDup (GoSort.Strings keys).
Proof. apply Permutation_NoDup, Strings_permutation. Qed.

Lemma Strings_length (keys : list string) :
  List.length (GoSort.Strings keys) = List.length keys.
Proof. symmetry. apply Permutation_length, Strings_permutation. Qed.

(** [detectTabularHeader] accepts exactly the uniform arrays whose
    first object has a key. *)
Lemma detectTabularHeader_spec (first : object) (others : list object) :
  Forall distinct_keys (first :: others) ->
  (first <> [] /\ uniform (first :: others) first ->
   detectTabularHeader (first :: others) = Some (GoSort.Strings (range_keys first)))
  /\ (first = [] \/ ~ uniform (first :: others) first ->
      detectTabularHeader (first :: others) = None).
Proof.
  intros Hd.
  assert (Hfirst : distinct_keys first) by now inversion Hd.
  pose proof (isTabularArray_uniform (first :: others)
                (GoSort.Strings (range_keys first)) Hd
                (Strings_NoDup _ Hfirst)) as Hspec.
  assert (Huni : uniform (first :: others) first
                 <-> Forall (fun obj =>
                       (forall k, In k (range_keys obj)
                                  <-> In k (GoSort.Strings (range_keys first)))
                       /\ all_scalar obj) (first :: others)).
  { unfold uniform, same_key_set. rewrite !Forall_forall.
    split; intros H obj Hobj; destruct (H obj Hobj) as [Hs Ha]; split; auto;
      intros k; rewrite (Hs k), Strings_In; reflexivity. }
  unfold detectTabularHeader. split.
  - intros [Hne Hu]. destruct first as [|e first]; [contradiction|].
    change (List.length (e :: first) =? 0)%nat with false. cbv iota.
    apply Huni, Hspec in Hu. now rewrite Hu.
  - intros [->|Hn]; [reflexivity|].
    destruct (List.length first =? 0)%nat; [reflexivity|].
    destruct (isTabularArray (first :: others) (GoSort.Strings (range_keys first)))
      eqn:E; [|reflexivity].
    exfalso. apply Hn, Huni, Hspec. reflexivity.
Qed.

Lemma fold_left_Push (A : Type) (f : A -> string) (l : list A) (w : LineWriter)
  (depth : nat) :
  fold_left (fun writer x => Push writer depth (f x)) l w
  = mkLineWriter
      (List.app (lines w)
         (map (fun x => repeat_string (indentationString w) depth ++ f x) l))
      (indentationString w).
Proof.
  revert w. induction l as [|x l IH]; intros w; simpl.
  - rewrite List.app_nil_r. now destruct w.
  - rewrite IH. simpl. now rewrite <- List.app_assoc.
Qed.

Lemma encodeArrayOfObjectsAsTabular_lines (prefix : string) (objects : list object)
  (header : list string) (w : LineWriter) (depth : nat) (opts : EncodeOptions) :
  lines (encodeArrayOfObjectsAsTabular prefix objects header w depth opts)
  = List.app (lines w)
      ((repeat_string (indentationString w) depth
          ++ formatHeader (List.length objects)
               (mkHeaderOptions prefix header (Delimiter opts) (LengthMarker opts)))
       :: map (fun obj =>
                 repeat_string (indentationString w) (depth + 1)
                   ++ Join (map (fun k => encodePrimitive (index obj k) (Delimiter opts))
                              header)
                        (Delimiter opts))
            objects).
Proof.
  unfold encodeArrayOfObjectsAsTabular, writeTabularRows.
  rewrite (fold_left_Push _
             (fun obj => joinEncodedValues (map (fun key => index obj key) header)
                           (Delimiter opts))).
  simpl. rewrite <- List.app_assoc. simpl. f_equal. f_equal.
  apply map_ext. intros obj. unfold joinEncodedValues. now rewrite map_map.
Qed.

Lemma encodeArray_objects (key : string) (first : object) (others : list object)
  (w : LineWriter) (depth : nat) (opts : EncodeOptions) :
  encodeArray key (map VObject (first :: others)) w depth opts
  = match detectTabularHeader (first :: others) with
    | Some header =>
        encodeArrayOfObjectsAsTabular key (first :: others) header w depth opts
    | None =>
        encodeMixedArrayAsListItems key (map VObject (first :: others)) w depth opts
    end.
Proof.
  unfold encodeArray, encodeArray_body.
  rewrite isArrayOfObjects_objects, as_objects_objects. reflexivity.
Qed.

(** C1, as stated, fails on an array of objects without keys: every
    object has the (empty) key set of the first one and no field that
    is not a scalar, yet the array is rendered as a list of bare
    markers and not as a header followed by one (empty) row per
    object. *)
Lemma C1_empty_objects_are_not_tabular :
  let objects := [ [] ] : list object in
  let w := mkLineWriter [] "  " in
  uniform objects [] /\ Forall distinct_keys objects
  /\ detectTabularHeader objects = None
  /\ lines (encodeArray EmptyString (map VObject objects) w 0 defaultOptions)
     = ["[1]:"; "  -"]
  /\ lines (encodeArrayOfObjectsAsTabular EmptyString objects
              (GoSort.Strings (range_keys [])) w 0 defaultOptions)
     = ["[1]:"; "  "]
  /\ encodeArray EmptyString (map VObject objects) w 0 defaultOptions
     <> encodeArrayOfObjectsAsTabular EmptyString objects
          (GoSort.Strings (range_keys [])) w 0 defaultOptions.
Proof.
  cbv zeta. repeat split.
  - constructor; [|constructor]. split; [intros k; reflexivity|].
    intros k v [].
  - constructor; [constructor | constructor].
  - discriminate.
Qed.

(** C1, amended.  An array of objects whose first object has a key,
    in which every object has the key set of the first and scalar
    fields only, is rendered as a table: a header whose fields are the
    sorted keys of the first object (as many as any object has keys),
    then one row per object, the scalar encodings of its fields in the
    order of the header joined by the delimiter.  When the first object
    has no key, or an object differs in key set or holds a field that is
    not a scalar, the array is rendered as a list. *)
Theorem C1_tabular_rendering (key : string) (first : object) (others : list object)
  (w : LineWriter) (depth : nat) (opts : EncodeOptions) :
  let objects := first :: others in
  let header := GoSort.Strings (range_keys first) in
  Forall distinct_keys objects ->
  (first <> [] /\ uniform objects first ->
   StronglySorted lex_le header
   /\ (forall k, In k header <-> In k (range_keys first))
   /\ Forall (fun obj => List.length obj = List.length header) objects
   /\ lines (encodeArray key (map VObject objects) w depth opts)
      = List.app (lines w)
          ((repeat_string (indentationString w) depth
              ++ formatHeader (List.length objects)
                   (mkHeaderOptions key header (Delimiter opts) (LengthMarker opts)))
           :: map (fun obj =>
                     repeat_string (indentationString w) (depth + 1)
                       ++ Join (map (fun k =>
                                       encodePrimitive (index obj k) (Delimiter opts))
                                  header)
                            (Delimiter opts))
                objects))
  /\ (first = [] \/ ~ uniform objects first ->
      encodeArray key (map VObject objects) w depth opts
      = encodeMixedArrayAsListItems key (map VObject objects) w depth opts).
Proof.
  intros objects header Hd.
  destruct (detectTabularHeader_spec first others Hd) as [Hyes Hno].
  split.
  - intros Hu. pose proof (Hyes Hu) as Hdet. destruct Hu as [Hne Hu].
    split; [apply Strings_sorted|]. split; [intros k; apply Strings_In|]. split.
    + unfold uniform in Hu. rewrite Forall_forall in Hu, Hd |- *.
      intros obj Hobj. destruct (Hu obj Hobj) as [Hsame _].
      unfold header. rewrite Strings_length, <- !range_keys_length.
      apply Permutation_length, NoDup_Permutation.
      * apply (Hd obj Hobj).
      * apply (Hd first). now left.
      * exact Hsame.
    + unfold objects. rewrite encodeArray_objects, Hdet.
      apply encodeArrayOfObjectsAsTabular_lines.
  - intros Hn. unfold objects. rewrite encodeArray_objects, (Hno Hn). reflexivity.
Qed.

Lemma C1_tabular_rendering_witness :
  lines (encodeArray "users"
           (map VObject
              [ [("name", VString "Alice"); ("id", VNumber (Float64.of_int64 1))];
                [("id", VNumber (Float64.of_int64 2)); ("name", VString "Bob")] ])
           (mkLineWriter [] "  ") 0 defaultOptions)
  = ["users[2]{id,name}:"; "  1,Alice"; "  2,Bob"].
Proof.
  refine (proj2 (proj2 (proj2
           (proj1 (C1_tabular_rendering "users"
                     [("name", VString "Alice"); ("id", VNumber (Float64.of_int64 1))]
                     [ [("id", VNumber (Float64.of_int64 2)); ("name", VString "Bob")] ]
                     (mkLineWriter [] "  ") 0 defaultOptions _) _)))).
  - repeat constructor; simpl; intuition discriminate.
  - split; [discriminate|].
    assert (Hscalar : forall obj : object,
               forallb (fun e => isPrimitive (snd e)) obj = true -> all_scalar obj).
    { intros obj H k v Hin. rewrite forallb_forall in H. apply (H (k, v) Hin). }
    constructor; [|constructor; [|constructor]];
      (split; [intros k; simpl; tauto | now apply Hscalar]).
Defined.

(** ** Searching in strings *)

Lemma append_eq_empty (a b : string) :
  a ++ b = EmptyString -> a = EmptyString /\ b = EmptyString.
Proof. destruct a; simpl; [auto | discriminate]. Qed.

Lemma prefix_spec (p s : string) :
  String.prefix p s = true <-> exists rest, s = p ++ rest.
Proof.
  revert s. induction p as [|c p IH]; intros s; simpl.
  - destruct s; split; eauto.
  - destruct s as [|c' s]; simpl.
    + split; [discriminate | intros [rest H]; discriminate].
    + destruct (ascii_dec c c') as [->|Hne].
      * split.
        -- intros H. apply IH in H. destruct H as [rest ->]. now exists rest.
        -- intros [rest H]. injection H as ->. apply IH. now exists rest.
      * split; [discriminate | intros [rest H]; congruence].
Qed.

Lemma HasPrefix_spec (s p : string) :
  HasPrefix s p = true <-> exists rest, s = p ++ rest.
Proof. apply prefix_spec. Qed.

Lemma Contains_spec (s sub : string) :
  Contains s sub = true <-> has_substring sub s.
Proof.
  unfold has_substring. induction s as [|c s IH].
  - cbn [Contains]. destruct (String.prefix sub EmptyString) eqn:E.
    + split; [|reflexivity]. intros _. apply prefix_spec in E.
      destruct E as [rest E]. exists EmptyString, rest. exact E.
    + split; [discriminate|]. intros [a [b H]].
      symmetry in H. apply append_eq_empty in H. destruct H as [_ H].
      apply append_eq_empty in H. destruct H as [-> _]. discriminate E.
  - cbn [Contains]. destruct (String.prefix sub (String c s)) eqn:E.
    + split; [|reflexivity]. intros _. apply prefix_spec in E.
      destruct E as [rest E]. exists EmptyString, rest. exact E.
    + rewrite IH. split.
      * intros [a [b H]]. exists (String c a), b. simpl. now rewrite H.
      * intros [a [b H]]. destruct a as [|c' a].
        -- simpl in H.
           assert (String.prefix sub (String c s) = true)
             by (apply prefix_spec; now exists b).
           congruence.
        -- simpl in H. injection H as _ H. now exists a, b.
Qed.

Lemma has_substring_byte (c : ascii) (s : string) :
  has_substring (String c EmptyString) s <-> has_byte c s.
Proof.
  unfold has_substring, has_byte. induction s as [|c' s IH]; simpl.
  - split; [|contradiction]. intros [[|x a] [b H]]; discriminate.
  - split.
    + intros [[|x a] [b H]]; simpl in H; injection H as -> H.
      * now left.
      * right. apply IH. now exists a, b.
    + intros [->|H].
      * now exists EmptyString, s.
      * apply IH in H. destruct H as [a [b ->]]. now exists (String c' a), b.
Qed.

Lemma Contains_byte (s : string) (c : ascii) :
  Contains s (String c EmptyString) = true <-> has_byte c s.
Proof. now rewrite Contains_spec, has_substring_byte. Qed.

Lemma mem_byte_spec (c : ascii) (chars : string) :
  mem_byte c chars = true <-> has_byte c chars.
Proof.
  unfold has_byte. induction chars as [|c' chars IH]; simpl.
  - split; [discriminate | contradiction].
  - rewrite orb_true_iff, IH, Ascii.eqb_eq. split; intros [H|H]; auto.
Qed.

Lemma ContainsAny_spec (s chars : string) :
  ContainsAny s chars = true <-> exists c, has_byte c chars /\ has_byte c s.
Proof.
  induction s as [|c s IH]; simpl.
  - split; [discriminate | intros [x [_ []]]].
  - rewrite orb_true_iff, IH, mem_byte_spec. unfold has_byte at 3 5. simpl. split.
    + intros [H|[x [H1 H2]]]; [exists c | exists x]; auto.
    + intros [x [H1 [->|H2]]]; [now left | right; now exists x].
Qed.

(** ** Regular expressions *)

Lemma nullable_spec (r : regex) : nullable r = true <-> matches r EmptyString.
Proof.
  split.
  - induction r; simpl; intros H; try discriminate.
    + constructor.
    + apply andb_true_iff in H. destruct H.
      change EmptyString with (EmptyString ++ EmptyString). constructor; auto.
    + apply orb_true_iff in H. destruct H; [apply matches_alt_l | apply matches_alt_r];
        auto.
    + constructor.
  - intros H. remember EmptyString as s eqn:Hs.
    induction H; simpl; try reflexivity; try discriminate.
    + apply append_eq_empty in Hs. destruct Hs. apply andb_true_iff. auto.
    + apply orb_true_iff. auto.
    + apply orb_true_iff. auto.
Qed.

Lemma deriv_sound (c : ascii) (r : regex) (s : string) :
  matches (deriv c r) s -> matches r (String c s).
Proof.
  revert s. induction r; intros s; simpl; intros H.
  - inversion H.
  - inversion H.
  - destruct (b c) eqn:E; inversion H; subst. now constructor.
  - assert (Hcat : matches (Cat (deriv c r1) r2) s -> matches (Cat r1 r2) (String c s)).
    { intros Hc. inversion Hc; subst.
      change (String c (s1 ++ s2)) with (String c s1 ++ s2). constructor; auto. }
    destruct (nullable r1) eqn:E; [|auto].
    inversion H; subst; [auto|].
    change (String c s) with (EmptyString ++ String c s).
    constructor; [now apply nullable_spec | auto].
  - inversion H; subst; [apply matches_alt_l | apply matches_alt_r]; auto.
  - inversion H; subst.
    change (String c (s1 ++ s2)) with (String c s1 ++ s2). constructor; auto.
Qed.

Lemma deriv_complete (r : regex) (t : string) :
  matches r t -> forall c s, t = String c s -> matches (deriv c r) s.
Proof.
  induction 1 as [ | p c0 Hp | r1 r2 s1 s2 H1 IH1 H2 IH2 | r1 r2 s0 H1 IH1
                 | r1 r2 s0 H2 IH2 | r | r s1 s2 H1 IH1 H2 IH2 ];
    intros c s Heq; simpl.
  - discriminate.
  - injection Heq as -> <-. rewrite Hp. constructor.
  - destruct s1 as [|c1 s1]; simpl in Heq.
    + assert (E : nullable r1 = true) by now apply nullable_spec.
      rewrite E. apply matches_alt_r. now apply IH2.
    + injection Heq as -> <-.
      assert (matches (Cat (deriv c r1) r2) (s1 ++ s2))
        by (constructor; [now apply IH1 | assumption]).
      destruct (nullable r1); [now apply matches_alt_l | assumption].
  - apply matches_alt_l. now apply IH1.
  - apply matches_alt_r. now apply IH2.
  - discriminate.
  - destruct s1 as [|c1 s1]; simpl in Heq.
    + now apply IH2.
    + injection Heq as -> <-. constructor; [now apply IH1 | assumption].
Qed.

Lemma MatchString_spec (r : regex) (s : string) :
  MatchString r s = true <-> matches r s.
Proof.
  revert r. induction s as [|c s IH]; intros r; simpl.
  - apply nullable_spec.
  - rewrite IH. split; [apply deriv_sound|].
    intros H. eapply deriv_complete; [exact H | reflexivity].
Qed.

Lemma matches_alt_iff (a b : regex) (s : string) :
  matches (Alt a b) s <-> matches a s \/ matches b s.
Proof.
  split.
  - intros H. inversion H; auto.
  - intros [H|H]; [apply matches_alt_l | apply matches_alt_r]; assumption.
Qed.

Lemma matches_cat_iff (a b : regex) (s : string) :
  matches (Cat a b) s <-> exists s1 s2, s = s1 ++ s2 /\ matches a s1 /\ matches b s2.
Proof.
  split.
  - intros H. inversion H; subst. eauto.
  - intros [s1 [s2 [-> [H1 H2]]]]. now constructor.
Qed.

Lemma matches_eps_iff (s : string) : matches Eps s <-> s = EmptyString.
Proof. split; [intros H; now inversion H | intros ->; constructor]. Qed.

Lemma matches_opt_iff (a : regex) (s : string) :
  matches (Opt a) s <-> s = EmptyString \/ matches a s.
Proof. unfold Opt. now rewrite matches_alt_iff, matches_eps_iff. Qed.

Lemma matches_class_iff (p : ascii -> bool) (s : string) :
  matches (Class p) s <-> exists c, s = String c EmptyString /\ p c = true.
Proof.
  split.
  - intros H. inversion H; subst. eauto.
  - intros [c [-> H]]. now constructor.
Qed.

Lemma matches_lit_iff (c : ascii) (s : string) :
  matches (Lit c) s <-> s = String c EmptyString.
Proof.
  unfold Lit. rewrite matches_class_iff. split.
  - intros [x [-> H]]. apply Ascii.eqb_eq in H. now subst.
  - intros ->. exists c. split; [reflexivity | apply Ascii.eqb_refl].
Qed.

Lemma matches_star_class (p : ascii -> bool) (s : string) :
  matches (Star (Class p)) s
  <-> Forall (fun c => p c = true) (list_ascii_of_string s).
Proof.
  split.
  - intros H. remember (Star (Class p)) as r eqn:Hr.
    induction H; try discriminate; injection Hr as ->.
    + constructor.
    + inversion H; subst. simpl. constructor; auto.
  - induction s as [|c s IH]; simpl; intros H.
    + constructor.
    + inversion H; subst.
      change (String c s) with (String c EmptyString ++ s).
      constructor; [now constructor | auto].
Qed.

Lemma matches_plus_class (p : ascii -> bool) (s : string) :
  matches (Plus (Class p)) s
  <-> s <> EmptyString /\ Forall (fun c => p c = true) (list_ascii_of_string s).
Proof.
  unfold Plus. rewrite matches_cat_iff. split.
  - intros [s1 [s2 [-> [H1 H2]]]]. apply matches_class_iff in H1.
    destruct H1 as [c [-> Hc]]. apply matches_star_class in H2.
    simpl. split; [discriminate | now constructor].
  - intros [Hne H]. destruct s as [|c s]; [contradiction|].
    simpl in H. inversion H; subst.
    exists (String c EmptyString), s. split; [reflexivity|].
    split; [now constructor | now apply matches_star_class].
Qed.

(** ** The numeric pattern *)

Lemma digit_spec (c : ascii) : digit c = true <-> is_digit c.
Proof.
  unfold digit, in_range, is_digit, Ascii.leb, Ascii.compare.
  rewrite andb_true_iff.
  assert (Hle : forall a b : N, (if (a ?= b)%N is Gt then false else true) = true
                                <-> (a <= b)%N).
  { intros a b. unfold N.le. destruct (a ?= b)%N; split; congruence. }
  rewrite !Hle. unfold nat_of_ascii.
  change (N_of_ascii "0") with 48%N. change (N_of_ascii "9") with 57%N. lia.
Qed.

Lemma matches_digits (s : string) : matches (Plus (Class digit)) s <-> digits s.
Proof.
  rewrite matches_plus_class. unfold digits.
  rewrite !Forall_forall. split; intros [Hne H]; (split; [exact Hne|]);
    intros c Hc; apply digit_spec; auto.
Qed.

Lemma mem_byte_two (a b c : ascii) :
  mem_byte c (String a (String b EmptyString)) = true <-> c = a \/ c = b.
Proof.
  simpl. rewrite orb_false_r, orb_true_iff, !Ascii.eqb_eq. tauto.
Qed.

Lemma matches_numeric_literal (s : string) :
  matches
    (Cat (Opt (Lit "-"))
       (Cat (Plus (Class digit))
          (Cat (Opt (Cat (Lit ".") (Plus (Class digit))))
               (Opt (Cat (Class (fun c => mem_byte c "eE"))
                      (Cat (Opt (Class (fun c => mem_byte c "+-")))
                           (Plus (Class digit)))))))) s
  <-> numeric_literal s.
Proof.
  unfold numeric_literal. rewrite matches_cat_iff. split.
  + intros [sign [t1 [-> [Hsign H1]]]].
    apply matches_opt_iff in Hsign. rewrite matches_lit_iff in Hsign.
    apply matches_cat_iff in H1. destruct H1 as [int [t2 [-> [Hint H2]]]].
    apply matches_digits in Hint.
    apply matches_cat_iff in H2. destruct H2 as [frac [exp [-> [Hfrac Hexp]]]].
    exists sign, int, frac, exp. split; [reflexivity|].
    split; [exact Hsign|]. split; [exact Hint|]. split.
    * apply matches_opt_iff in Hfrac. destruct Hfrac as [->|Hfrac]; [now left|].
      right. apply matches_cat_iff in Hfrac.
      destruct Hfrac as [dot [f [-> [Hdot Hf]]]].
      apply matches_lit_iff in Hdot. subst dot. apply matches_digits in Hf.
      now exists f.
    * apply matches_opt_iff in Hexp. destruct Hexp as [->|Hexp]; [now left|].
      right. apply matches_cat_iff in Hexp.
      destruct Hexp as [e [t3 [-> [He H3]]]].
      apply matches_class_iff in He. destruct He as [ce [-> Hce]].
      apply mem_byte_two in Hce.
      apply matches_cat_iff in H3. destruct H3 as [sg [x [-> [Hsg Hx]]]].
      apply matches_digits in Hx. apply matches_opt_iff in Hsg.
      exists (String ce EmptyString), sg, x. split; [reflexivity|].
      split; [destruct Hce as [->| ->]; auto|]. split; [|exact Hx].
      destruct Hsg as [->|Hsg]; [now left|]. right.
      apply matches_class_iff in Hsg. destruct Hsg as [cs [-> Hcs]].
      apply mem_byte_two in Hcs. destruct Hcs as [->| ->]; auto.
  + intros [sign [int [frac [exp [-> [Hsign [Hint [Hfrac Hexp]]]]]]]].
    exists sign, (int ++ frac ++ exp). split; [reflexivity|]. split.
    * apply matches_opt_iff. now rewrite matches_lit_iff.
    * apply matches_cat_iff. exists int, (frac ++ exp). split; [reflexivity|].
      split; [now apply matches_digits|].
      apply matches_cat_iff. exists frac, exp. split; [reflexivity|]. split.
      -- apply matches_opt_iff. destruct Hfrac as [->|[f [-> Hf]]]; [now left|].
         right. apply matches_cat_iff. exists ".", f.
         split; [reflexivity|]. split; [now apply matches_lit_iff|].
         now apply matches_digits.
      -- apply matches_opt_iff.
         destruct Hexp as [->|[e [sg [x [-> [He [Hsg Hx]]]]]]]; [now left|].
         right. apply matches_cat_iff. exists e, (sg ++ x).
         split; [reflexivity|]. split.
         ++ apply matches_class_iff.
            destruct He as [->| ->]; eexists; split; reflexivity.
         ++ apply matches_cat_iff. exists sg, x. split; [reflexivity|].
            split; [|now apply matches_digits].
            apply matches_opt_iff. destruct Hsg as [->|[->| ->]]; [now left| |];
              right; apply matches_class_iff; eexists; split; reflexivity.
Qed.

Lemma matches_leading_zero_integer (s : string) :
  matches (Cat (Lit "0") (Plus (Class digit))) s <-> leading_zero_integer s.
Proof.
  unfold leading_zero_integer. rewrite matches_cat_iff. split.
  + intros [z [ds [-> [Hz Hds]]]]. apply matches_lit_iff in Hz. subst z.
    apply matches_digits in Hds. now exists ds.
  + intros [ds [-> Hds]]. exists "0", ds. split; [reflexivity|].
    split; [now apply matches_lit_iff | now apply matches_digits].
Qed.

Lemma isNumericLike_spec (s : string) :
  isNumericLike s = true <-> numeric_literal s \/ leading_zero_integer s.
Proof.
  unfold isNumericLike. rewrite MatchString_spec. unfold numericPattern.
  now rewrite matches_alt_iff, matches_numeric_literal, matches_leading_zero_integer.
Qed.

(** ** Quoting *)

Lemma isSafeUnquoted_false_iff (s d : string) :
  isSafeUnquoted s d = false <-> needs_quotes s d.
Proof.
  unfold isSafeUnquoted, needs_quotes.
  unfold TrueLiteral, FalseLiteral, NullLiteral, Colon, DoubleQuote, Backslash,
    Newline, CarriageReturn, Tab, ListItemMarker.
  destruct (String.eqb_spec s EmptyString) as [He|He]; [tauto|].
  destruct (String.eqb_spec (TrimSpace s) s) as [Ht|Ht]; cbn [negb]; [|tauto].
  destruct (String.eqb_spec s "true") as [H1|H1]; [tauto|].
  destruct (String.eqb_spec s "false") as [H2|H2]; [tauto|].
  destruct (String.eqb_spec s "null") as [H3|H3]; [tauto|].
  cbn [orb].
  destruct (isNumericLike s) eqn:En.
  { apply isNumericLike_spec in En. tauto. }
  assert (Hn : ~ (numeric_literal s \/ leading_zero_integer s)).
  { intros H. apply isNumericLike_spec in H. congruence. }
  destruct (Contains s ":") eqn:E1.
  { apply Contains_byte in E1. tauto. }
  assert (N1 : ~ has_byte ":" s) by (rewrite <- Contains_byte; congruence).
  destruct (Contains s (String (ascii_of_nat 34) EmptyString)) eqn:E2.
  { apply Contains_byte in E2. tauto. }
  assert (N2 : ~ has_byte (ascii_of_nat 34) s) by (rewrite <- Contains_byte; congruence).
  destruct (Contains s "\") eqn:E3.
  { apply Contains_byte in E3. tauto. }
  assert (N3 : ~ has_byte "\" s) by (rewrite <- Contains_byte; congruence).
  cbn [orb].
  destruct (ContainsAny s "[]{}") eqn:E4.
  { apply ContainsAny_spec in E4. destruct E4 as [x [Hx Hs]].
    unfold has_byte in Hx. simpl in Hx.
    split; [intros _|reflexivity]. do 6 right. left.
    destruct Hx as [<-|[<-|[<-|[<-|[]]]]]; tauto. }
  assert (N4 : ~ (has_byte "[" s \/ has_byte "]" s \/ has_byte "{" s \/ has_byte "}" s)).
  { intros H.
    assert (ContainsAny s "[]{}" = true); [|congruence].
    apply ContainsAny_spec. unfold has_byte at 1. simpl.
    destruct H as [H|[H|[H|H]]]; eexists; (split; [|exact H]); tauto. }
  destruct (ContainsAny s (String (ascii_of_nat 10) EmptyString
                             ++ String (ascii_of_nat 13) EmptyString
                             ++ String (ascii_of_nat 9) EmptyString)) eqn:E5.
  { apply ContainsAny_spec in E5. destruct E5 as [x [Hx Hs]].
    unfold has_byte in Hx. simpl in Hx.
    split; [intros _|reflexivity]. do 7 right. left.
    destruct Hx as [<-|[<-|[<-|[]]]]; tauto. }
  assert (N5 : ~ (has_byte (ascii_of_nat 10) s \/ has_byte (ascii_of_nat 13) s
                  \/ has_byte (ascii_of_nat 9) s)).
  { intros H.
    assert (ContainsAny s (String (ascii_of_nat 10) EmptyString
                             ++ String (ascii_of_nat 13) EmptyString
                             ++ String (ascii_of_nat 9) EmptyString) = true);
      [|congruence].
    apply ContainsAny_spec. unfold has_byte at 1. simpl.
    destruct H as [H|[H|H]]; eexists; (split; [|exact H]); tauto. }
  destruct (Contains s d) eqn:E6.
  { apply Contains_spec in E6. tauto. }
  assert (N6 : ~ has_substring d s) by (rewrite <- Contains_spec; congruence).
  destruct (HasPrefix s "-") eqn:E7.
  { apply HasPrefix_spec in E7. tauto. }
  assert (N7 : ~ exists rest, s = "-" ++ rest)
    by (rewrite <- HasPrefix_spec; congruence).
  split; [discriminate|]. tauto.
Qed.

(** ** Escaping *)

Lemma ReplaceAll_byte (s : string) (old : ascii) (new : string) :
  ReplaceAll s (String old EmptyString) new = replace_byte old new s.
Proof.
  unfold ReplaceAll. induction s as [|c s IH]; [reflexivity|].
  cbn [replace_from replace_byte String.prefix String.length Nat.sub].
  destruct (ascii_dec old c) as [->|Hne].
  - rewrite Ascii.eqb_refl. replace (String.prefix EmptyString s) with true
      by (destruct s; reflexivity).
    now rewrite IH.
  - assert (E : Ascii.eqb c old = false) by (apply Ascii.eqb_neq; congruence).
    rewrite E. simpl. now rewrite IH.
Qed.

Lemma replace_byte_append (old : ascii) (new a b : string) :
  replace_byte old new (a ++ b) = replace_byte old new a ++ replace_byte old new b.
Proof.
  induction a as [|c a IH]; simpl; [reflexivity|].
  now rewrite IH, append_assoc.
Qed.

Lemma escapeString_replace_byte (s : string) :
  escapeString s
  = replace_byte (ascii_of_nat 9) "\t"
      (replace_byte (ascii_of_nat 13) "\r"
         (replace_byte (ascii_of_nat 10) "\n"
            (replace_byte (ascii_of_nat 34) (String "\" (String (ascii_of_nat 34) EmptyString))
               (replace_byte "\" "\\" s)))).
Proof.
  unfold escapeString, Backslash, DoubleQuote, Newline, CarriageReturn, Tab.
  now rewrite !ReplaceAll_byte.
Qed.

Lemma escapeString_one (c : ascii) :
  escapeString (String c EmptyString) = escape_byte c.
Proof. destruct c as [[] [] [] [] [] [] [] []]; reflexivity. Qed.

Lemma escapeString_cons (c : ascii) (s : string) :
  escapeString (String c s) = escapeString (String c EmptyString) ++ escapeString s.
Proof.
  rewrite !escapeString_replace_byte.
  change (String c s) with (String c EmptyString ++ s).
  now rewrite !replace_byte_append.
Qed.

(** The five replacements of [escapeString], in their order, escape
    each byte on its own. *)
Lemma escapeString_bytes (s : string) : escapeString s = escape_bytes s.
Proof.
  induction s as [|c s IH]; [reflexivity|].
  rewrite escapeString_cons, escapeString_one, IH. reflexivity.
Qed.

Lemma escape_byte_length (c : ascii) : 1 <= String.length (escape_byte c).
Proof.
  unfold escape_byte.
  repeat match goal with |- context [if ?b then _ else _] => destruct b end;
    simpl; lia.
Qed.

Lemma escapeString_length (s : string) :
  String.length s <= String.length (escapeString s).
Proof.
  rewrite escapeString_bytes. induction s as [|c s IH]; simpl; [lia|].
  rewrite length_append. pose proof (escape_byte_length c). lia.
Qed.

Lemma unescape_escape_byte (c : ascii) (t : string) :
  unescapeString (escape_byte c ++ t)
  = match unescapeString t with
    | Some tail => Some (String c tail)
    | None => None
    end.
Proof.
  destruct c as [[] [] [] [] [] [] [] []]; simpl;
    destruct (unescapeString t); reflexivity.
Qed.

Lemma unescape_escape (s : string) : unescapeString (escapeString s) = Some s.
Proof.
  rewrite escapeString_bytes. induction s as [|c s IH]; [reflexivity|].
  simpl escape_bytes. now rewrite unescape_escape_byte, IH.
Qed.

Lemma encodeStringLiteral_quoted (s d : string) :
  isSafeUnquoted s d = false ->
  encodeStringLiteral s d = DoubleQuote ++ escapeString s ++ DoubleQuote.
Proof. intros H. unfold encodeStringLiteral. now rewrite H. Qed.

Lemma encodeStringLiteral_unquoted_iff (s d : string) :
  encodeStringLiteral s d = s <-> isSafeUnquoted s d = true.
Proof.
  unfold encodeStringLiteral. destruct (isSafeUnquoted s d); split; auto.
  - intros H. apply (f_equal String.length) in H.
    rewrite !length_append in H. pose proof (escapeString_length s).
    unfold DoubleQuote in H. simpl in H. lia.
  - discriminate.
Qed.

(** C2.  The scalar encoder writes a string unquoted exactly when
    [isSafeUnquoted] holds, and [isSafeUnquoted] is false exactly when the
    string is empty, is changed by trimming, is one of the three
    literals, matches the numeric pattern or the leading-zero form,
    holds a colon, a double quote or a backslash, a bracket or a brace,
    a newline, carriage return or tab, holds the delimiter, or starts
    with a hyphen; it is true otherwise. *)
Theorem C2_unquoted_iff_safe (s d : string) :
  (encodePrimitive (VString s) d = s <-> isSafeUnquoted s d = true)
  /\ (isSafeUnquoted s d = false <-> needs_quotes s d)
  /\ (isSafeUnquoted s d = true <-> ~ needs_quotes s d).
Proof.
  split; [apply encodeStringLiteral_unquoted_iff|].
  split; [apply isSafeUnquoted_false_iff|].
  rewrite <- isSafeUnquoted_false_iff.
  destruct (isSafeUnquoted s d); split; congruence.
Qed.

Lemma C2_unquoted_iff_safe_witness :
  isSafeUnquoted "12:30" "," = false.
Proof.
  apply (proj1 (proj2 (C2_unquoted_iff_safe "12:30" ","))).
  do 4 right. left. unfold has_byte. simpl. tauto.
Defined.

(** C8.  A string that is not safe unquoted -- empty, padded with
    white space, a reserved literal, numeric-looking, holding a colon,
    a quote, a backslash, a bracket, a brace, a newline, carriage return
    or tab, or the delimiter, or starting with a hyphen -- is written
    between double quotes with its bytes escaped; the five replacements
    in their order escape each byte on its own (backslash first, so the
    backslashes the later ones introduce are not doubled), and the
    unescape rule gives the string back. *)
Theorem C8_quoted_and_round_trips (s d : string) :
  needs_quotes s d ->
  isSafeUnquoted s d = false
  /\ encodePrimitive (VString s) d = DoubleQuote ++ escapeString s ++ DoubleQuote
  /\ escapeString s
     = replace_byte (ascii_of_nat 9) "\t"
         (replace_byte (ascii_of_nat 13) "\r"
            (replace_byte (ascii_of_nat 10) "\n"
               (replace_byte (ascii_of_nat 34)
                  (String "\" (String (ascii_of_nat 34) EmptyString))
                  (replace_byte "\" "\\" s))))
  /\ escapeString s = escape_bytes s
  /\ unescapeString (escapeString s) = Some s.
Proof.
  intros H. apply isSafeUnquoted_false_iff in H.
  split; [exact H|]. split; [now apply encodeStringLiteral_quoted|].
  split; [apply escapeString_replace_byte|].
  split; [apply escapeString_bytes | apply unescape_escape].
Qed.

Lemma C8_quoted_and_round_trips_witness :
  needs_quotes ("a\b" ++ Tab) ","
  /\ unescapeString (escapeString ("a\b" ++ Tab)) = Some ("a\b" ++ Tab).
Proof.
  assert (H : needs_quotes ("a\b" ++ Tab) ",").
  { right. left. discriminate. }
  split; [exact H|].
  apply (C8_quoted_and_round_trips ("a\b" ++ Tab) "," H).
Defined.

Example escapeString_ex :
  escapeString ("a\b" ++ Tab ++ DoubleQuote) = "a\\b\t\" ++ DoubleQuote.
Proof. reflexivity. Qed.

(** ** Reordering the entries of objects *)

Lemma sorted_permutation_unique (l1 l2 : list string) :
  StronglySorted lex_le l1 -> StronglySorted lex_le l2 -> Permutation l1 l2 ->
  l1 = l2.
Proof.
  revert l2. induction l1 as [|a t1 IH]; intros l2 H1 H2 Hp.
  - apply Permutation_nil in Hp. now subst.
  - destruct l2 as [|b t2].
    { apply Permutation_sym, Permutation_nil in Hp. discriminate. }
    apply StronglySorted_inv in H1, H2.
    destruct H1 as [H1 F1], H2 as [H2 F2].
    assert (Hab : a = b).
    { rewrite Forall_forall in F1, F2.
      assert (Ha : In a (b :: t2)) by (apply (Permutation_in _ Hp); now left).
      assert (Hb : In b (a :: t1))
        by (apply (Permutation_in _ (Permutation_sym Hp)); now left).
      destruct Ha as [Ha|Ha]; [now symmetry|].
      destruct Hb as [Hb|Hb]; [exact Hb|].
      apply lex_le_antisym; auto. }
    subst b. f_equal. apply IH; auto.
    eapply Permutation_cons_inv; eassumption.
Qed.

Lemma Strings_Permutation (keys1 keys2 : list string) :
  Permutation keys1 keys2 -> GoSort.Strings keys1 = GoSort.Strings keys2.
Proof.
  intros Hp. apply sorted_permutation_unique; try apply Strings_sorted.
  eapply Permutation_trans; [apply Permutation_sym, Strings_permutation|].
  eapply Permutation_trans; [exact Hp | apply Strings_permutation].
Qed.

Lemma lookup_None (obj : object) (k : string) :
  lookup obj k = None <-> ~ In k (range_keys obj).
Proof.
  split.
  - intros H Hin. destruct (In_keys_lookup _ _ Hin) as [v Hv]. congruence.
  - intros H. destruct (lookup obj k) eqn:E; [|reflexivity].
    exfalso. apply H. eapply lookup_In_keys; eassumption.
Qed.

Lemma lookup_Permutation (obj obj' : object) (k : string) :
  distinct_keys obj -> Permutation obj obj' -> lookup obj k = lookup obj' k.
Proof.
  intros Hd Hp.
  assert (Hk : Permutation (range_keys obj) (range_keys obj'))
    by (apply Permutation_map; exact Hp).
  assert (Hd' : distinct_keys obj') by (eapply Permutation_NoDup; eassumption).
  destruct (lookup obj k) eqn:E.
  - symmetry. apply In_lookup; [exact Hd'|].
    apply (Permutation_in _ Hp). now apply lookup_In.
  - symmetry. apply lookup_None. apply lookup_None in E.
    intros Hin. apply E. apply (Permutation_in _ (Permutation_sym Hk)). exact Hin.
Qed.

Lemma entries_keys (obj1 obj2 : object) :
  Forall2 (fun e1 e2 => fst e1 = fst e2 /\ reordered (snd e1) (snd e2)) obj1 obj2 ->
  range_keys obj1 = range_keys obj2.
Proof.
  induction 1 as [|[k1 v1] [k2 v2] l1 l2 [Hk _] _ IH]; simpl; [reflexivity|].
  simpl in Hk. now rewrite Hk, IH.
Qed.

Lemma entries_lookup (obj1 obj2 : object) (k : string) :
  Forall2 (fun e1 e2 => fst e1 = fst e2 /\ reordered (snd e1) (snd e2)) obj1 obj2 ->
  lookup_related (lookup obj1 k) (lookup obj2 k).
Proof.
  induction 1 as [|[k1 v1] [k2 v2] l1 l2 [Hk Hv] _ IH]; simpl.
  - left. now split.
  - simpl in Hk, Hv. subst k2. destruct (String.eqb k1 k); [|exact IH].
    right. now exists v1, v2.
Qed.

Lemma reordered_object_facts (obj1 obj2 obj2' : object) :
  distinct_keys obj1 ->
  Forall2 (fun e1 e2 => fst e1 = fst e2 /\ reordered (snd e1) (snd e2)) obj1 obj2' ->
  Permutation obj2' obj2 ->
  List.length obj1 = List.length obj2
  /\ GoSort.Strings (range_keys obj1) = GoSort.Strings (range_keys obj2)
  /\ forall k, lookup_related (lookup obj1 k) (lookup obj2 k).
Proof.
  intros Hd Hf Hp. pose proof (entries_keys _ _ Hf) as Hk.
  assert (Hd' : distinct_keys obj2') by (unfold distinct_keys; now rewrite <- Hk).
  split; [|split].
  - rewrite <- (Permutation_length Hp). eapply Forall2_length; eassumption.
  - rewrite Hk. apply Strings_Permutation, Permutation_map, Hp.
  - intros k. rewrite <- (lookup_Permutation _ _ k Hd' Hp).
    now apply entries_lookup.
Qed.

Lemma reordered_isPrimitive (v1 v2 : value) :
  reordered v1 v2 -> isPrimitive v1 = isPrimitive v2.
Proof. destruct 1; reflexivity. Qed.

Lemma reordered_scalar_eq (v1 v2 : value) :
  reordered v1 v2 -> isPrimitive v1 = true -> v1 = v2.
Proof. destruct 1; simpl; intros; [reflexivity | discriminate | discriminate]. Qed.

Lemma reordered_encodePrimitive (v1 v2 : value) (d : string) :
  reordered v1 v2 -> encodePrimitive v1 d = encodePrimitive v2 d.
Proof. destruct 1; reflexivity. Qed.

Lemma reordered_isArray (v1 v2 : value) : reordered v1 v2 -> isArray v1 = isArray v2.
Proof. destruct 1; reflexivity. Qed.

Lemma reordered_isObject (v1 v2 : value) :
  reordered v1 v2 -> isObject v1 = isObject v2.
Proof. destruct 1; reflexivity. Qed.

Lemma Forall2_forallb {A B : Type} (R : A -> B -> Prop) (p : A -> bool)
  (q : B -> bool) (l1 : list A) (l2 : list B) :
  Forall2 R l1 l2 -> (forall x y, In x l1 -> R x y -> p x = q y) ->
  forallb p l1 = forallb q l2.
Proof.
  induction 1 as [|x y l1 l2 Hxy _ IH]; intros H; simpl; [reflexivity|].
  rewrite (H x y (or_introl eq_refl) Hxy), IH; [reflexivity|].
  intros a b Ha. apply H. now right.
Qed.

Lemma Forall2_map_eq {A B C : Type} (R : A -> B -> Prop) (f : A -> C) (g : B -> C)
  (l1 : list A) (l2 : list B) :
  Forall2 R l1 l2 -> (forall x y, In x l1 -> R x y -> f x = g y) ->
  map f l1 = map g l2.
Proof.
  induction 1 as [|x y l1 l2 Hxy _ IH]; intros H; simpl; [reflexivity|].
  rewrite (H x y (or_introl eq_refl) Hxy), IH; [reflexivity|].
  intros a b Ha. apply H. now right.
Qed.

Lemma Forall2_fold_left {A B W : Type} (R : A -> B -> Prop) (f : W -> A -> W)
  (g : W -> B -> W) (l1 : list A) (l2 : list B) :
  Forall2 R l1 l2 -> (forall w x y, In x l1 -> R x y -> f w x = g w y) ->
  forall w, fold_left f l1 w = fold_left g l2 w.
Proof.
  induction 1 as [|x y l1 l2 Hxy _ IH]; intros H w; simpl; [reflexivity|].
  rewrite (H w x y (or_introl eq_refl) Hxy). apply IH.
  intros w' a b Ha. apply H. now right.
Qed.

Lemma Forall2_eq {A : Type} (R : A -> A -> Prop) (l1 l2 : list A) :
  Forall2 R l1 l2 -> (forall x y, In x l1 -> R x y -> x = y) -> l1 = l2.
Proof.
  intros H He. rewrite <- (map_id l1), <- (map_id l2).
  eapply Forall2_map_eq; eassumption.
Qed.

Lemma reordered_primitives_eq (arr1 arr2 : list value) :
  Forall2 reordered arr1 arr2 -> isArrayOfPrimitives arr1 = true -> arr1 = arr2.
Proof.
  intros H Hp. eapply Forall2_eq; [exact H|].
  intros x y Hx Hxy. apply reordered_scalar_eq; [exact Hxy|].
  unfold isArrayOfPrimitives in Hp. rewrite forallb_forall in Hp. now apply Hp.
Qed.

Lemma reordered_isArrayOfPrimitives (arr1 arr2 : list value) :
  Forall2 reordered arr1 arr2 -> isArrayOfPrimitives arr1 = isArrayOfPrimitives arr2.
Proof.
  intros H. eapply Forall2_forallb; [exact H|].
  intros x y _. apply reordered_isPrimitive.
Qed.

Lemma wf_array_inv (arr : list value) : wf_value (VArray arr) -> Forall wf_value arr.
Proof. intros H. now inversion H. Qed.

Lemma wf_object_inv (obj : object) :
  wf_value (VObject obj) ->
  distinct_keys obj /\ Forall (fun e => wf_value (snd e)) obj.
Proof. intros H. now inversion H. Qed.

Lemma as_object_reordered (x y : value) :
  wf_value x -> reordered x y ->
  List.length (as_object x) = List.length (as_object y)
  /\ GoSort.Strings (range_keys (as_object x)) = GoSort.Strings (range_keys (as_object y))
  /\ forall k, lookup_related (lookup (as_object x) k) (lookup (as_object y) k).
Proof.
  intros Hwf H. destruct H as [v Hv|arr1 arr2 Ha|obj1 obj2 obj2' Hf Hp].
  - destruct v; try discriminate Hv; (repeat split; intros k; left; now split).
  - repeat split. intros k. left. now split.
  - apply wf_object_inv in Hwf. destruct Hwf as [Hd _].
    now apply (reordered_object_facts obj1 obj2 obj2').
Qed.

Lemma list_sum_In (A : Type) (f : A -> nat) (x : A) (l : list A) :
  In x l -> f x <= list_sum (map f l).
Proof.
  induction l as [|y l IH]; simpl; [contradiction|].
  intros [->|H]; [lia|]. specialize (IH H). lia.
Qed.

Lemma value_size_element (x : value) (arr : list value) :
  In x arr -> value_size x < value_size (VArray arr).
Proof.
  intros H. simpl. pose proof (list_sum_In _ value_size x arr H). lia.
Qed.

Lemma value_size_field (k : string) (v : value) (obj : object) :
  In (k, v) obj -> value_size v < value_size (VObject obj).
Proof.
  intros H. simpl.
  pose proof (list_sum_In _ (fun e => value_size (snd e)) (k, v) obj H) as Hs.
  simpl in Hs. lia.
Qed.

Lemma forallb_pointwise {A : Type} (p q : A -> bool) (l : list A) :
  (forall x, p x = q x) -> forallb p l = forallb q l.
Proof.
  intros H. induction l as [|x l IH]; simpl; [reflexivity | now rewrite H, IH].
Qed.

Lemma index_reordered (x y : value) (k d : string) :
  wf_value x -> reordered x y ->
  encodePrimitive (index (as_object x) k) d = encodePrimitive (index (as_object y) k) d.
Proof.
  intros Hwf H. destruct (as_object_reordered x y Hwf H) as [_ [_ Hl]].
  unfold index. destruct (Hl k) as [[-> ->]|[a [b [-> [-> Hab]]]]]; [reflexivity|].
  now apply reordered_encodePrimitive.
Qed.

Lemma isTabularArray_cons (obj : object) (objects : list object)
  (header : list string) :
  isTabularArray (obj :: objects) header
  = ((List.length obj =? List.length header)%nat
     && forallb (fun key =>
                   match lookup obj key with
                   | None => false
                   | Some value => isPrimitive value
                   end) header)
    && isTabularArray objects header.
Proof. reflexivity. Qed.

Lemma isTabularArray_reordered (arr1 arr2 : list value) (header : list string) :
  Forall wf_value arr1 -> Forall2 reordered arr1 arr2 ->
  isTabularArray (as_objects arr1) header = isTabularArray (as_objects arr2) header.
Proof.
  intros Hwf H. induction H as [|x y l1 l2 Hxy _ IH]; [reflexivity|].
  inversion Hwf as [|? ? Hx Hl]; subst.
  change (as_objects (x :: l1)) with (as_object x :: as_objects l1).
  change (as_objects (y :: l2)) with (as_object y :: as_objects l2).
  rewrite !isTabularArray_cons, (IH Hl).
  destruct (as_object_reordered x y Hx Hxy) as [Hlen [_ Hlook]].
  rewrite Hlen. f_equal. f_equal. apply forallb_pointwise. intros k.
  destruct (Hlook k) as [[-> ->]|[a [b [-> [-> Hab]]]]]; [reflexivity|].
  now apply reordered_isPrimitive.
Qed.

Lemma detectTabularHeader_reordered (arr1 arr2 : list value) :
  Forall wf_value arr1 -> Forall2 reordered arr1 arr2 ->
  detectTabularHeader (as_objects arr1) = detectTabularHeader (as_objects arr2).
Proof.
  intros Hwf H. pose proof (isTabularArray_reordered arr1 arr2) as Htab.
  destruct H as [|x y l1 l2 Hxy Hl]; [reflexivity|].
  specialize (fun h => Htab h Hwf (Forall2_cons _ _ Hxy Hl)).
  inversion Hwf as [|? ? Hx _]; subst.
  destruct (as_object_reordered x y Hx Hxy) as [Hlen [Hkeys _]].
  change (as_objects (x :: l1)) with (as_object x :: as_objects l1) in *.
  change (as_objects (y :: l2)) with (as_object y :: as_objects l2) in *.
  unfold detectTabularHeader. now rewrite Hlen, Hkeys, Htab.
Qed.

Lemma writeTabularRows_reordered (arr1 arr2 : list value) (header : list string)
  (w : LineWriter) (depth : nat) (opts : EncodeOptions) :
  Forall wf_value arr1 -> Forall2 reordered arr1 arr2 ->
  writeTabularRows (as_objects arr1) header w depth opts
  = writeTabularRows (as_objects arr2) header w depth opts.
Proof.
  intros Hwf H. unfold writeTabularRows.
  rewrite !(fold_left_Push _
              (fun obj => joinEncodedValues (map (fun key => index obj key) header)
                            (Delimiter opts))).
  f_equal. f_equal. unfold as_objects. rewrite !map_map.
  eapply Forall2_map_eq; [exact H|]. intros x y Hx Hxy. f_equal.
  unfold joinEncodedValues. rewrite !map_map. f_equal.
  apply map_ext. intros k. apply index_reordered; [|exact Hxy].
  rewrite Forall_forall in Hwf. now apply Hwf.
Qed.

Lemma encodeItem_eq (depth : nat) (opts : EncodeOptions) (w : LineWriter)
  (item : value) :
  encodeItem depth opts w item
  = match item with
    | VArray arr =>
        if isArrayOfPrimitives arr
        then Push w (depth + 1)
               (ListItemPrefix
                  ++ formatInlineArray arr (Delimiter opts) EmptyString
                       (LengthMarker opts))
        else w
    | VObject _ => encodeListItem item w (depth + 1) opts
    | _ => Push w (depth + 1) (ListItemPrefix ++ encodePrimitive item (Delimiter opts))
    end.
Proof. destruct item; reflexivity. Qed.

(** The encoders on values of size at most [n], given that reordering
    does not matter below [n]. *)
Section Reordering.

Variable n : nat.
Hypothesis Hinv : invariant_below n.

Lemma encodeItem_reordered (depth : nat) (opts : EncodeOptions) (w : LineWriter)
  (x y : value) :
  value_size x < n -> wf_value x -> reordered x y ->
  encodeItem depth opts w x = encodeItem depth opts w y.
Proof.
  intros Hs Hwf Hr. destruct (Hinv x y Hs Hwf Hr) as [_ Hitem].
  destruct Hr as [v Hv|arr1 arr2 Ha|obj1 obj2 obj2' Hf Hp].
  - reflexivity.
  - simpl. rewrite <- (reordered_isArrayOfPrimitives _ _ Ha).
    destruct (isArrayOfPrimitives arr1) eqn:E; [|reflexivity].
    now rewrite (reordered_primitives_eq _ _ Ha E).
  - simpl. apply Hitem.
Qed.

Lemma encodeMixed_reordered (key : string) (arr1 arr2 : list value)
  (w : LineWriter) (depth : nat) (opts : EncodeOptions) :
  value_size (VArray arr1) <= n ->
  Forall wf_value arr1 -> Forall2 reordered arr1 arr2 ->
  encodeMixedArrayAsListItems key arr1 w depth opts
  = encodeMixedArrayAsListItems key arr2 w depth opts.
Proof.
  intros Hs Hwf H. rewrite !encodeMixedArrayAsListItems_eq.
  rewrite (Forall2_length H).
  apply (Forall2_fold_left reordered (encodeItem depth opts) (encodeItem depth opts));
    [exact H|].
  intros w' x y Hx Hxy. apply encodeItem_reordered; auto.
  - pose proof (value_size_element x arr1 Hx). lia.
  - rewrite Forall_forall in Hwf. now apply Hwf.
Qed.

Lemma reordered_primitive_arrays_eq (arr1 arr2 : list value) :
  Forall2 reordered arr1 arr2 ->
  isArrayOfArrays arr1 = true ->
  forallb (fun item =>
             match item with
             | VArray itemArr => isArrayOfPrimitives itemArr
             | _ => true
             end) arr1 = true ->
  arr1 = arr2.
Proof.
  intros H Ha Hp. eapply Forall2_eq; [exact H|].
  intros x y Hx Hxy. unfold isArrayOfArrays in Ha.
  rewrite forallb_forall in Ha, Hp. specialize (Ha x Hx). specialize (Hp x Hx).
  destruct Hxy as [v Hv|a1 a2 Hf|o1 o2 o2' Hf Hperm]; [reflexivity| |discriminate Ha].
  now rewrite (reordered_primitives_eq _ _ Hf Hp).
Qed.

Lemma encodeArray_reordered (key : string) (arr1 arr2 : list value)
  (w : LineWriter) (depth : nat) (opts : EncodeOptions) :
  value_size (VArray arr1) <= n ->
  Forall wf_value arr1 -> Forall2 reordered arr1 arr2 ->
  encodeArray key arr1 w depth opts = encodeArray key arr2 w depth opts.
Proof.
  intros Hs Hwf H.
  pose proof (encodeMixed_reordered key arr1 arr2 w depth opts Hs Hwf H)
    as Hmixed.
  unfold encodeMixedArrayAsListItems in Hmixed.
  unfold encodeArray, encodeArray_body.
  rewrite <- (Forall2_length H).
  rewrite <- (reordered_isArrayOfPrimitives _ _ H).
  assert (Harrs : isArrayOfArrays arr1 = isArrayOfArrays arr2).
  { eapply Forall2_forallb; [exact H|]. intros x y _. apply reordered_isArray. }
  assert (Hobjs : isArrayOfObjects arr1 = isArrayOfObjects arr2).
  { eapply Forall2_forallb; [exact H|]. intros x y _. apply reordered_isObject. }
  assert (Hsub : forallb (fun item =>
                            match item with
                            | VArray itemArr => isArrayOfPrimitives itemArr
                            | _ => true
                            end) arr1
                 = forallb (fun item =>
                              match item with
                              | VArray itemArr => isArrayOfPrimitives itemArr
                              | _ => true
                              end) arr2).
  { eapply Forall2_forallb; [exact H|]. intros x y _ Hxy.
    destruct Hxy; [reflexivity| |reflexivity].
    now apply reordered_isArrayOfPrimitives. }
  rewrite <- Harrs, <- Hobjs, <- Hsub.
  destruct (List.length arr1 =? 0)%nat; [reflexivity|].
  destruct (isArrayOfPrimitives arr1) eqn:Ep.
  { now rewrite (reordered_primitives_eq _ _ H Ep). }
  destruct (isArrayOfArrays arr1) eqn:Ea; cbn [andb].
  - destruct (forallb _ arr1) eqn:Es.
    { now rewrite (reordered_primitive_arrays_eq _ _ H Ea Es). }
    destruct (isArrayOfObjects arr1); [|exact Hmixed].
    rewrite <- (detectTabularHeader_reordered _ _ Hwf H).
    destruct (detectTabularHeader (as_objects arr1)); [|exact Hmixed].
    unfold encodeArrayOfObjectsAsTabular, as_objects. rewrite !length_map.
    rewrite <- (Forall2_length H). apply writeTabularRows_reordered; assumption.
  - destruct (isArrayOfObjects arr1); [|exact Hmixed].
    rewrite <- (detectTabularHeader_reordered _ _ Hwf H).
    destruct (detectTabularHeader (as_objects arr1)); [|exact Hmixed].
    unfold encodeArrayOfObjectsAsTabular, as_objects. rewrite !length_map.
    rewrite <- (Forall2_length H). apply writeTabularRows_reordered; assumption.
Qed.

Lemma encodeObject_reordered (obj1 obj2 obj2' : object) (w : LineWriter)
  (depth : nat) (opts : EncodeOptions) :
  value_size (VObject obj1) <= n -> wf_value (VObject obj1) ->
  Forall2 (fun e1 e2 => fst e1 = fst e2 /\ reordered (snd e1) (snd e2)) obj1 obj2' ->
  Permutation obj2' obj2 ->
  encodeObject obj1 w depth opts = encodeObject obj2 w depth opts.
Proof.
  intros Hs Hwf Hf Hp. apply wf_object_inv in Hwf. destruct Hwf as [Hd Hwf].
  destruct (reordered_object_facts _ _ _ Hd Hf Hp) as [_ [Hkeys Hlook]].
  rewrite !encodeObject_eq, Hkeys. apply fold_left_ext. intros w' k.
  unfold index. destruct (Hlook k) as [[-> ->]|[a [b [Ha [Hb Hab]]]]]; [reflexivity|].
  rewrite Ha, Hb. apply lookup_In in Ha.
  apply (Hinv a b); [|  |exact Hab].
  - pose proof (value_size_field _ _ _ Ha). lia.
  - rewrite Forall_forall in Hwf. apply (Hwf (k, a) Ha).
Qed.

Lemma encodeFirstField_reordered (firstKey : string) (a b : value)
  (w : LineWriter) (depth : nat) (opts : EncodeOptions) :
  value_size a < n -> wf_value a -> reordered a b ->
  encodeFirstField encodeKeyValuePair encodeListItem firstKey a w depth opts
  = encodeFirstField encodeKeyValuePair encodeListItem firstKey b w depth opts.
Proof.
  intros Hs Hwf Hr.
  destruct Hr as [v Hv|arr1 arr2 Ha|obj1 obj2 obj2' Hf Hp].
  - reflexivity.
  - apply wf_array_inv in Hwf.
    assert (Hitem : forall w' x y, In x arr1 -> reordered x y ->
                      encodeItem depth opts w' x = encodeItem depth opts w' y).
    { intros w' x y Hx Hxy. apply encodeItem_reordered; auto.
      - pose proof (value_size_element x arr1 Hx). lia.
      - rewrite Forall_forall in Hwf. now apply Hwf. }
    unfold encodeFirstField.
    rewrite <- (reordered_isArrayOfPrimitives _ _ Ha).
    destruct (isArrayOfPrimitives arr1) eqn:Ep.
    { now rewrite (reordered_primitives_eq _ _ Ha Ep). }
    assert (Hobjs : isArrayOfObjects arr1 = isArrayOfObjects arr2).
    { eapply Forall2_forallb; [exact Ha|]. intros x y _. apply reordered_isObject. }
    rewrite <- Hobjs, <- (Forall2_length Ha).
    destruct (isArrayOfObjects arr1).
    + rewrite <- (detectTabularHeader_reordered _ _ Hwf Ha).
      destruct (detectTabularHeader (as_objects arr1)).
      * now apply writeTabularRows_reordered.
      * apply (Forall2_fold_left reordered); [exact Ha|].
        intros w' x y Hx Hxy. specialize (Hitem w' x y Hx Hxy).
        rewrite !encodeItem_eq in Hitem.
        destruct Hxy; [reflexivity | reflexivity | exact Hitem].
    + apply (Forall2_fold_left reordered); [exact Ha|].
      intros w' x y Hx Hxy. specialize (Hitem w' x y Hx Hxy).
      now rewrite !encodeItem_eq in Hitem.
  - pose proof Hwf as Hwf'. apply wf_object_inv in Hwf'. destruct Hwf' as [Hd _].
    destruct (reordered_object_facts _ _ _ Hd Hf Hp) as [Hlen _].
    unfold encodeFirstField. rewrite !range_keys_length, <- Hlen.
    destruct (List.length obj1 =? 0)%nat; [reflexivity|].
    apply (encodeObject_reordered obj1 obj2 obj2'); auto. lia.
Qed.

Lemma encodeObjectAsListItem_reordered (obj1 obj2 obj2' : object)
  (w : LineWriter) (depth : nat) (opts : EncodeOptions) :
  value_size (VObject obj1) <= n -> wf_value (VObject obj1) ->
  Forall2 (fun e1 e2 => fst e1 = fst e2 /\ reordered (snd e1) (snd e2)) obj1 obj2' ->
  Permutation obj2' obj2 ->
  encodeObjectAsListItem obj1 w depth opts = encodeObjectAsListItem obj2 w depth opts.
Proof.
  intros Hs Hwf Hf Hp. apply wf_object_inv in Hwf. destruct Hwf as [Hd Hwf].
  destruct (reordered_object_facts _ _ _ Hd Hf Hp) as [_ [Hkeys Hlook]].
  assert (Hfield : forall k a b,
             lookup obj1 k = Some a -> lookup obj2 k = Some b -> reordered a b ->
             value_size a < n /\ wf_value a).
  { intros k a b Ha _ _. apply lookup_In in Ha. split.
    - pose proof (value_size_field _ _ _ Ha). lia.
    - rewrite Forall_forall in Hwf. apply (Hwf (k, a) Ha). }
  rewrite !encodeObjectAsListItem_eq, Hkeys.
  destruct (GoSort.Strings (range_keys obj2)) as [|firstKey remaining]; [reflexivity|].
  assert (Hfirst :
            encodeFirstField encodeKeyValuePair encodeListItem firstKey
              (index obj1 firstKey) w depth opts
            = encodeFirstField encodeKeyValuePair encodeListItem firstKey
                (index obj2 firstKey) w depth opts).
  { unfold index.
    destruct (Hlook firstKey) as [[-> ->]|[a [b [Ha [Hb Hab]]]]]; [reflexivity|].
    rewrite Ha, Hb. destruct (Hfield _ _ _ Ha Hb Hab).
    now apply encodeFirstField_reordered. }
  rewrite Hfirst. apply fold_left_ext. intros w' k.
  unfold index. destruct (Hlook k) as [[-> ->]|[a [b [Ha [Hb Hab]]]]]; [reflexivity|].
  rewrite Ha, Hb. destruct (Hfield _ _ _ Ha Hb Hab). now apply (Hinv a b).
Qed.

End Reordering.

Lemma invariant_below_all (n : nat) : invariant_below n.
Proof.
  induction n as [|n IH]; intros v1 v2 Hs Hwf Hr; [lia|].
  assert (Hle : value_size v1 <= n) by lia.
  destruct Hr as [v Hv|arr1 arr2 Ha|obj1 obj2 obj2' Hf Hp].
  - split; reflexivity.
  - split; [|reflexivity]. intros key w depth opts.
    apply (encodeArray_reordered n IH); auto. now apply wf_array_inv.
  - split.
    + intros key w depth opts. rewrite !encodeKeyValuePair_eq.
      now apply (encodeObject_reordered n IH obj1 obj2 obj2').
    + intros w depth opts.
      now apply (encodeObjectAsListItem_reordered n IH obj1 obj2 obj2').
Qed.

Lemma encodeValue_reordered (v1 v2 : value) (opts : EncodeOptions) :
  wf_value v1 -> reordered v1 v2 -> encodeValue v1 opts = encodeValue v2 opts.
Proof.
  intros Hwf Hr. unfold encodeValue. rewrite <- (reordered_isPrimitive _ _ Hr).
  destruct (isPrimitive v1) eqn:Ep.
  { now rewrite (reordered_scalar_eq _ _ Hr Ep). }
  destruct (NewLineWriter (Indent opts)) as [w|msg]; [|reflexivity].
  f_equal. f_equal.
  pose proof (invariant_below_all (S (value_size v1))) as Hinv.
  destruct Hr as [v Hv|arr1 arr2 Ha|obj1 obj2 obj2' Hf Hp].
  - reflexivity.
  - apply (encodeArray_reordered _ Hinv); auto. now apply wf_array_inv.
  - apply (encodeObject_reordered _ Hinv obj1 obj2 obj2'); auto.
Qed.

(** ** What [normalizeValue] builds is well formed *)

Lemma map_set_keys (obj : object) (k : string) (v : value) :
  range_keys (map_set obj k v)
  = if existsb (String.eqb k) (range_keys obj)
    then range_keys obj
    else List.app (range_keys obj) [k].
Proof.
  induction obj as [|[k' v'] rest IH]; simpl; [reflexivity|].
  rewrite (String.eqb_sym k k'). destruct (String.eqb k' k) eqn:E; simpl.
  - reflexivity.
  - rewrite IH. now destruct (existsb (String.eqb k) (range_keys rest)).
Qed.

Lemma map_set_distinct (obj : object) (k : string) (v : value) :
  distinct_keys obj -> distinct_keys (map_set obj k v).
Proof.
  unfold distinct_keys. intros H. rewrite map_set_keys.
  destruct (existsb (String.eqb k) (range_keys obj)) eqn:E; [exact H|].
  apply NoDup_app; [exact H | repeat constructor; intros [] |].
  intros x Hx [Hk|[]]. subst x.
  assert (existsb (String.eqb k) (range_keys obj) = true); [|congruence].
  apply existsb_exists. exists k. split; [exact Hx | apply String.eqb_refl].
Qed.

Lemma map_set_wf (obj : object) (k : string) (v : value) :
  Forall (fun e => wf_value (snd e)) obj -> wf_value v ->
  Forall (fun e => wf_value (snd e)) (map_set obj k v).
Proof.
  intros H Hv. induction obj as [|[k' v'] rest IH]; simpl.
  - now repeat constructor.
  - inversion H; subst. destruct (String.eqb k' k); constructor; auto.
Qed.

Lemma normalizeValue_wf : forall input : goValue, wf_value (normalizeValue input).
Proof.
  fix normalizeValue_wf 1. intros input.
  destruct input as [ |b|i|u|f|s|elems|entries|formatted|fields|target| ]; simpl.
  - constructor.
  - constructor.
  - constructor.
  - constructor.
  - destruct (isNaN f || isInf f); [constructor|].
    destruct (Float64.eqb f (S754_zero false)); constructor.
  - constructor.
  - constructor.
    induction elems as [|x elems IH]; simpl; constructor;
      [apply normalizeValue_wf | exact IH].
  - destruct entries as [entries|]; [|constructor].
    assert (H : forall obj : object,
               distinct_keys obj /\ Forall (fun e => wf_value (snd e)) obj ->
               let result :=
                 (fix each (entries : list (string * goValue)) (obj : object) : object :=
                    match entries with
                    | [] => obj
                    | (key, v) :: rest =>
                        each rest (map_set obj key (normalizeValue v))
                    end) entries obj in
               distinct_keys result /\ Forall (fun e => wf_value (snd e)) result).
    { induction entries as [|[key v] rest IH]; intros obj [Hd Hw]; simpl.
      - now split.
      - apply IH. split; [now apply map_set_distinct|].
        apply map_set_wf; [exact Hw | apply normalizeValue_wf]. }
    destruct (H []) as [Hd Hw]; [split; constructor|]. now constructor.
  - constructor.
  - assert (H : forall obj : object,
               distinct_keys obj /\ Forall (fun e => wf_value (snd e)) obj ->
               let result :=
                 (fix each (fields : list (string * bool * string * goValue))
                    (obj : object) : object :=
                    match fields with
                    | [] => obj
                    | (name, exported, tag, fieldValue) :: rest =>
                        if exported then
                          let name :=
                            if negb (String.eqb tag "") && negb (String.eqb tag "-")
                            then tag else name in
                          each rest (map_set obj name (normalizeValue fieldValue))
                        else each rest obj
                    end) fields obj in
               distinct_keys result /\ Forall (fun e => wf_value (snd e)) result).
    { induction fields as [|[[[name exported] tag] v] rest IH]; intros obj [Hd Hw]; simpl.
      - now split.
      - destruct exported; apply IH; [|now split].
        split; [now apply map_set_distinct|].
        apply map_set_wf; [exact Hw | apply normalizeValue_wf]. }
    destruct (H []) as [Hd Hw]; [split; constructor|]. now constructor.
  - destruct target as [target|]; [apply normalizeValue_wf | constructor].
  - constructor.
Qed.

(** C4.  The encoder is a function of the value and the options, and
    of the value up to the order of the entries of its objects: two
    values that differ only in the order in which their maps are
    visited, at any depth, have the same outcome, and so have two
    inputs of [Encode] that normalize to such values.  The reason is
    that an object is written key by key in the ascending order of the
    keys, whatever order they come in. *)
Theorem C4_output_independent_of_key_order (v1 v2 : value) (opts : EncodeOptions) :
  wf_value v1 -> reordered v1 v2 ->
  encodeValue v1 opts = encodeValue v2 opts
  /\ (forall (obj : object) (w : LineWriter) (depth : nat),
        exists keys,
          Permutation (range_keys obj) keys
          /\ StronglySorted lex_le keys
          /\ encodeObject obj w depth opts
             = fold_left
                 (fun writer key =>
                    encodeKeyValuePair key (index obj key) writer depth opts)
                 keys w)
  /\ (forall (input1 input2 : goValue) (options : list EncodeOption),
        reordered (normalizeValue input1) (normalizeValue input2) ->
        Encode input1 options = Encode input2 options).
Proof.
  intros Hwf Hr. split; [now apply encodeValue_reordered|]. split.
  - intros obj w depth. exists (GoSort.Strings (range_keys obj)).
    split; [apply Strings_permutation|]. split; [apply Strings_sorted|].
    apply encodeObject_eq.
  - intros input1 input2 options H. unfold Encode.
    now rewrite (encodeValue_reordered _ _ (resolveOptions options)
                   (normalizeValue_wf input1) H).
Qed.

Lemma C4_output_independent_of_key_order_witness :
  encodeValue
    (VObject [("b", VArray [VObject [("y", VNil); ("x", VBool true)]]);
              ("a", VString "one")])
    defaultOptions
  = encodeValue
      (VObject [("a", VString "one");
                ("b", VArray [VObject [("x", VBool true); ("y", VNil)]])])
      defaultOptions.
Proof.
  refine (proj1 (C4_output_independent_of_key_order _ _ defaultOptions _ _)).
  - repeat match goal with
           | |- wf_value _ => constructor
           | |- Forall _ _ => constructor
           | |- distinct_keys _ => unfold distinct_keys; simpl
           | |- NoDup _ => constructor
           | |- ~ In _ _ => simpl; intuition discriminate
           end.
  - apply (reordered_object _ _
             [("b", VArray [VObject [("x", VBool true); ("y", VNil)]]);
              ("a", VString "one")]).
    + constructor; [|constructor; [|constructor]].
      * split; [reflexivity|]. simpl. constructor. constructor; [|constructor].
        apply (reordered_object _ _ [("y", VNil); ("x", VBool true)]).
        -- constructor; [|constructor; [|constructor]];
             (split; [reflexivity | now constructor]).
        -- apply perm_swap.
      * split; [reflexivity | now constructor].
    + apply perm_swap.
Defined.

(** ** The tests of the repository, replayed on the model *)

Example TestEncodePrimitives :
  Encode GoNil [] = text ["null"]
  /\ Encode (GoBool true) [] = text ["true"]
  /\ Encode (GoBool false) [] = text ["false"]
  /\ Encode (GoInt 42) [] = text ["42"]
  /\ Encode (GoFloat (Float64.of_ratio 314 100)) [] = text ["3.14"]
  /\ Encode (GoString "hello") [] = text ["hello"]
  /\ Encode (GoString "hello world") [] = text ["hello world"].
Proof. repeat split; vm_compute; reflexivity. Qed.

Example TestEncodeObject :
  Encode (obj_ [("id", GoInt 123); ("name", GoString "Ada")]) []
  = text ["id: 123"; "name: Ada"]
  /\ Encode (obj_ [("user", obj_ [("id", GoInt 123); ("name", GoString "Ada")])]) []
     = text ["user:"; "  id: 123"; "  name: Ada"]
  /\ Encode (obj_ [("name", GoString "test"); ("active", GoBool true)]) []
     = text ["active: true"; "name: test"].
Proof. repeat split; vm_compute; reflexivity. Qed.

Example TestEncodePrimitiveArray :
  Encode (GoSlice []) [] = text ["[0]:"]
  /\ Encode (GoSlice [GoString "reading"; GoString "gaming"]) []
     = text ["[2]: reading,gaming"]
  /\ Encode (GoSlice [GoInt 1; GoInt 2; GoInt 3]) [] = text ["[3]: 1,2,3"]
  /\ Encode (obj_ [("tags", GoSlice [GoString "admin"; GoString "ops"; GoString "dev"])])
            []
     = text ["tags[3]: admin,ops,dev"].
Proof. repeat split; vm_compute; reflexivity. Qed.

Example TestEncodeTabularArray :
  Encode (obj_ [("items",
                 GoSlice [obj_ [("id", GoInt 1); ("name", GoString "Alice");
                                ("role", GoString "admin")];
                          obj_ [("id", GoInt 2); ("name", GoString "Bob");
                                ("role", GoString "user")]])]) []
  = text ["items[2]{id,name,role}:"; "  1,Alice,admin"; "  2,Bob,user"]
  /\ Encode (obj_ [("items",
                    GoSlice [obj_ [("sku", GoString "A1"); ("qty", GoInt 2);
                                   ("price", GoFloat (Float64.of_ratio 999 100))];
                             obj_ [("sku", GoString "B2"); ("qty", GoInt 1);
                                   ("price", GoFloat (Float64.of_ratio 145 10))]])]) []
     = text ["items[2]{price,qty,sku}:"; "  9.99,2,A1"; "  14.5,1,B2"].
Proof. repeat split; vm_compute; reflexivity. Qed.

Example TestEncodeMixedArray :
  Encode (obj_ [("items", GoSlice [GoInt 1; GoString "text"; obj_ [("a", GoInt 1)]])]) []
  = text ["items[3]:"; "  - 1"; "  - text"; "  - a: 1"]
  /\ Encode (obj_ [("items",
                    GoSlice [obj_ [("id", GoInt 1); ("name", GoString "First")];
                             obj_ [("id", GoInt 2); ("name", GoString "Second");
                                   ("extra", GoBool true)]])]) []
     = text ["items[2]:"; "  - id: 1"; "    name: First";
             "  - extra: true"; "    id: 2"; "    name: Second"].
Proof. repeat split; vm_compute; reflexivity. Qed.

Example TestEncodeWithOptions :
  let input := obj_ [("tags", GoSlice [GoString "a"; GoString "b"; GoString "c"])] in
  Encode input [WithIndent 4] = text ["tags[3]: a,b,c"]
  /\ Encode input [WithDelimiter Tab]
     = text ["tags[3" ++ Tab ++ "]: a" ++ Tab ++ "b" ++ Tab ++ "c"]
  /\ Encode input [WithLengthMarker] = text ["tags[#3]: a,b,c"].
Proof. repeat split; vm_compute; reflexivity. Qed.

Example TestEncodeStruct :
  Encode (obj_ [("users",
                 GoSlice [GoStruct [("ID", true, "id", GoInt 1);
                                    ("Name", true, "name", GoString "Alice");
                                    ("Role", true, "role", GoString "admin")];
                          GoStruct [("ID", true, "id", GoInt 2);
                                    ("Name", true, "name", GoString "Bob");
                                    ("Role", true, "role", GoString "user")]])]) []
  = text ["users[2]{id,name,role}:"; "  1,Alice,admin"; "  2,Bob,user"].
Proof. vm_compute; reflexivity. Qed.

Example TestEncodeTime :
  Encode (obj_ [("timestamp", GoTime "2025-01-15T10:30:00Z")]) []
  = text ["timestamp: " ++ quoted "2025-01-15T10:30:00Z"].
Proof. vm_compute; reflexivity. Qed.

Example TestEncodeQuoting :
  Encode (obj_ [("note", GoString "hello, world")]) []
  = text ["note: " ++ quoted "hello, world"]
  /\ Encode (obj_ [("items", GoSlice [GoString "true"; GoString "false"])]) []
     = text ["items[2]: " ++ quoted "true" ++ "," ++ quoted "false"]
  /\ Encode (obj_ [("name", GoString EmptyString)]) []
     = text ["name: " ++ quoted EmptyString]
  /\ Encode (obj_ [("text", GoString ("say " ++ quoted "hi"))]) []
     = text ["text: " ++ quoted ("say \" ++ DoubleQuote ++ "hi\" ++ DoubleQuote)].
Proof. repeat split; vm_compute; reflexivity. Qed.

(** Numbers: whole values through [FormatInt], the others through the
    shortest decimal of [FormatFloat], never with an exponent. *)
Example formatNumber_examples :
  formatNumber (Float64.of_int64 0) = "0"
  /\ formatNumber (Float64.of_int64 (-17)) = "-17"
  /\ formatNumber (Float64.of_int64 (2 ^ 53)) = "9007199254740992"
  /\ formatNumber (Float64.of_ratio 1 10) = "0.1"
  /\ formatNumber (Float64.of_ratio (-5) 1000) = "-0.005"
  /\ formatNumber (Float64.of_ratio 1 10000000) = "0.0000001"
  /\ formatNumber (Float64.of_ratio 1 3) = "0.3333333333333333"
  /\ formatNumber (Float64.of_uint64 (10 ^ 21)) = "1000000000000000000000".
Proof. repeat split; vm_compute; reflexivity. Qed.

(** Quoting at the edges: white space of more than one byte is
    trimmed, a number needs digits on both sides of its point, and the
    empty delimiter occurs in every string. *)
Example quoting_examples :
  TrimSpace (string_of_list_ascii (bytes [194; 160; 97; 226; 128; 168])) = "a"
  /\ isSafeUnquoted "hello world" "," = true
  /\ isSafeUnquoted "-x" "," = false
  /\ isSafeUnquoted "1e5" "," = false
  /\ isSafeUnquoted "007" "," = false
  /\ isSafeUnquoted "1." "," = true
  /\ isSafeUnquoted "a|b" "|" = false
  /\ isSafeUnquoted "a|b" "," = true
  /\ isSafeUnquoted "x" EmptyString = false
  /\ encodeKey "a.b_1" = "a.b_1"
  /\ encodeKey "1a" = quoted "1a".
Proof. repeat split. Qed.

(** * Further properties of the code *)

(** ** Keys and scalars *)

Lemma in_range_spec (lo hi c : ascii) :
  in_range lo hi c = true
  <-> nat_of_ascii lo <= nat_of_ascii c <= nat_of_ascii hi.
Proof.
  unfold in_range, Ascii.leb, Ascii.compare.
  rewrite andb_true_iff.
  assert (Hle : forall a b : N, (if (a ?= b)%N is Gt then false else true) = true
                                <-> (a <= b)%N).
  { intros a b. unfold N.le. destruct (a ?= b)%N; split; congruence. }
  rewrite !Hle. unfold nat_of_ascii. lia.
Qed.

Lemma ascii_eqb_nat (c d : ascii) :
  Ascii.eqb c d = true <-> nat_of_ascii c = nat_of_ascii d.
Proof.
  rewrite Ascii.eqb_eq. split; [now intros ->|].
  intros H. rewrite <- (ascii_nat_embedding c), <- (ascii_nat_embedding d).
  now rewrite H.
Qed.

Lemma key_start_spec (c : ascii) :
  (in_range "A" "Z" c || in_range "a" "z" c || Ascii.eqb c "_") = true
  <-> key_start c.
Proof.
  rewrite !orb_true_iff, !in_range_spec, ascii_eqb_nat. unfold key_start.
  change (nat_of_ascii "A") with 65. change (nat_of_ascii "Z") with 90.
  change (nat_of_ascii "a") with 97. change (nat_of_ascii "z") with 122.
  change (nat_of_ascii "_") with 95. tauto.
Qed.

Lemma key_byte_spec (c : ascii) :
  (word c || Ascii.eqb c ".") = true <-> key_byte c.
Proof.
  unfold word, key_byte, key_start.
  rewrite !orb_true_iff, digit_spec, !in_range_spec, !ascii_eqb_nat.
  change (nat_of_ascii "A") with 65. change (nat_of_ascii "Z") with 90.
  change (nat_of_ascii "a") with 97. change (nat_of_ascii "z") with 122.
  change (nat_of_ascii "_") with 95. change (nat_of_ascii ".") with 46. tauto.
Qed.

Lemma isValidUnquotedKey_spec (k : string) :
  isValidUnquotedKey k = true <-> identifier_key k.
Proof.
  unfold isValidUnquotedKey, validKeyPattern, identifier_key.
  rewrite MatchString_spec, matches_cat_iff. split.
  - intros (s1 & s2 & -> & H1 & H2).
    apply matches_class_iff in H1 as (c & -> & Hc).
    apply matches_star_class in H2.
    exists c, s2. split; [reflexivity|]. split; [now apply key_start_spec|].
    eapply Forall_impl; [|exact H2]. intros a Ha. now apply key_byte_spec.
  - intros (c & rest & -> & Hc & Hrest).
    exists (String c EmptyString), rest. split; [reflexivity|]. split.
    + apply matches_class_iff. exists c. split; [reflexivity|].
      now apply key_start_spec.
    + apply matches_star_class. eapply Forall_impl; [|exact Hrest].
      intros a Ha. now apply key_byte_spec.
Qed.

Lemma append_cancel_r (a b c : string) : a ++ c = b ++ c -> a = b.
Proof.
  revert b. induction a as [|x a IH]; intros [|y b] H; simpl in H.
  - reflexivity.
  - apply (f_equal String.length) in H. simpl in H. rewrite length_append in H. lia.
  - apply (f_equal String.length) in H. simpl in H. rewrite length_append in H. lia.
  - injection H as -> H. f_equal. now apply IH.
Qed.

Lemma escapeString_injective (s1 s2 : string) :
  escapeString s1 = escapeString s2 -> s1 = s2.
Proof.
  intros H. apply (f_equal unescapeString) in H.
  rewrite !unescape_escape in H. now injection H.
Qed.

Lemma quoted_injective (s1 s2 : string) :
  DoubleQuote ++ escapeString s1 ++ DoubleQuote
  = DoubleQuote ++ escapeString s2 ++ DoubleQuote -> s1 = s2.
Proof.
  intros H. simpl in H. injection H as H.
  now apply escapeString_injective, append_cancel_r with (c := DoubleQuote).
Qed.

Lemma identifier_key_no_quote (k t : string) :
  identifier_key k -> k <> DoubleQuote ++ t.
Proof.
  intros (c & rest & -> & Hc & _) H. simpl in H. injection H as -> _.
  unfold key_start in Hc. change (nat_of_ascii (ascii_of_nat 34)) with 34 in Hc. lia.
Qed.

(** X1. [encodeKey] leaves a key as it is exactly when the key is an
    identifier, a byte of [A-Za-z_] followed by bytes of [A-Za-z0-9_.];
    every other key, the empty one included, is written between double
    quotes with its bytes escaped, and the unescape rule gives it
    back. *)
Theorem X1_key_unquoted_iff_identifier (k : string) :
  (isValidUnquotedKey k = true <-> identifier_key k)
  /\ (encodeKey k = k <-> identifier_key k)
  /\ (~ identifier_key k ->
      encodeKey k = DoubleQuote ++ escapeString k ++ DoubleQuote
      /\ unescapeString (escapeString k) = Some k).
Proof.
  split; [apply isValidUnquotedKey_spec|]. split.
  - rewrite <- isValidUnquotedKey_spec. unfold encodeKey.
    destruct (isValidUnquotedKey k); split; try reflexivity; try discriminate.
    intros H. apply (f_equal String.length) in H.
    simpl in H. rewrite length_append in H. simpl in H.
    pose proof (escapeString_length k). lia.
  - intros Hn. rewrite <- isValidUnquotedKey_spec in Hn. unfold encodeKey.
    destruct (isValidUnquotedKey k); [now elim Hn|].
    split; [reflexivity | apply unescape_escape].
Qed.

(** X2. [encodeKey] is injective: two different keys are never written
    the same way, so the keys of an object stay distinct in the
    output. *)
Theorem X2_encodeKey_injective (k1 k2 : string) :
  encodeKey k1 = encodeKey k2 <-> k1 = k2.
Proof.
  split; [|now intros ->].
  unfold encodeKey.
  destruct (isValidUnquotedKey k1) eqn:E1, (isValidUnquotedKey k2) eqn:E2; intros H.
  - exact H.
  - apply isValidUnquotedKey_spec in E1. now apply identifier_key_no_quote in H.
  - apply isValidUnquotedKey_spec in E2. symmetry in H.
    now apply identifier_key_no_quote in H.
  - now apply quoted_injective.
Qed.

Lemma safe_no_quote (s d t : string) :
  isSafeUnquoted s d = true -> s <> DoubleQuote ++ t.
Proof.
  intros Hsafe ->.
  assert (Hq : needs_quotes (DoubleQuote ++ t) d).
  { unfold needs_quotes. do 5 right. left. left. left. reflexivity. }
  apply isSafeUnquoted_false_iff in Hq. congruence.
Qed.

Lemma encodeStringLiteral_injective (s1 s2 d : string) :
  encodeStringLiteral s1 d = encodeStringLiteral s2 d -> s1 = s2.
Proof.
  unfold encodeStringLiteral.
  destruct (isSafeUnquoted s1 d) eqn:E1, (isSafeUnquoted s2 d) eqn:E2; intros H.
  - exact H.
  - now apply safe_no_quote with (d := d) in H.
  - symmetry in H. now apply safe_no_quote with (d := d) in H.
  - now apply quoted_injective.
Qed.

Lemma digits_first (s : string) :
  digits s -> exists c rest, s = String c rest /\ is_digit c.
Proof.
  intros [Hne Hall]. destruct s as [|c rest]; [now elim Hne|].
  exists c, rest. split; [reflexivity|]. now inversion Hall.
Qed.

Lemma isNumericLike_first (s : string) :
  isNumericLike s = true ->
  exists c rest, s = String c rest /\ (is_digit c \/ c = "-"%char).
Proof.
  intros H. apply isNumericLike_spec in H as [H|H].
  - destruct H as (sign & int & frac & exp & -> & Hsign & Hint & _).
    destruct Hsign as [-> | ->].
    + apply digits_first in Hint as (c & rest & -> & Hc).
      exists c, (rest ++ frac ++ exp). split; [reflexivity | now left].
    + exists "-"%char, (int ++ frac ++ exp). split; [reflexivity | now right].
  - destruct H as (ds & -> & _). exists "0"%char, ds.
    split; [reflexivity|]. left. unfold is_digit. change (nat_of_ascii "0") with 48. lia.
Qed.

Lemma encodeStringLiteral_not_literal (s d : string) :
  encodeStringLiteral s d <> NullLiteral
  /\ encodeStringLiteral s d <> TrueLiteral
  /\ encodeStringLiteral s d <> FalseLiteral
  /\ isNumericLike (encodeStringLiteral s d) = false.
Proof.
  unfold encodeStringLiteral. destruct (isSafeUnquoted s d) eqn:E.
  - assert (Hn : ~ needs_quotes s d).
    { intros Hq. apply isSafeUnquoted_false_iff in Hq. congruence. }
    unfold needs_quotes in Hn. repeat split.
    + intros ->. apply Hn. right. right. left. now right; right.
    + intros ->. apply Hn. right. right. left. now left.
    + intros ->. apply Hn. right. right. left. now right; left.
    + destruct (isNumericLike s) eqn:En; [|reflexivity].
      elim Hn. do 3 right. left. now apply isNumericLike_spec.
  - repeat split; try discriminate.
    destruct (isNumericLike _) eqn:En; [|reflexivity].
    apply isNumericLike_first in En as (c & rest & Heq & Hc).
    simpl in Heq. injection Heq as <- _.
    destruct Hc as [Hc|Hc]; [|discriminate].
    unfold is_digit in Hc. change (nat_of_ascii (ascii_of_nat 34)) with 34 in Hc. lia.
Qed.

(** X3. A string is never mistaken for another scalar: whatever the
    string and the delimiter, its encoding is none of [null], [true]
    and [false] and does not look like a number, and two different
    strings have different encodings.  So [encodePrimitive] is
    injective on the scalars that are not numbers. *)
Theorem X3_scalars_are_unambiguous (d : string) :
  (forall s,
      encodePrimitive (VString s) d <> NullLiteral
      /\ encodePrimitive (VString s) d <> TrueLiteral
      /\ encodePrimitive (VString s) d <> FalseLiteral
      /\ isNumericLike (encodePrimitive (VString s) d) = false)
  /\ (forall v1 v2,
        plain_scalar v1 -> plain_scalar v2 ->
        encodePrimitive v1 d = encodePrimitive v2 d -> v1 = v2).
Proof.
  split; [intros s; apply encodeStringLiteral_not_literal|].
  intros v1 v2 H1 H2 H.
  destruct v1 as [|b1| |s1| |], v2 as [|b2| |s2| |];
    try (now elim H1); try (now elim H2); cbn [encodePrimitive] in H;
    try (pose proof (encodeStringLiteral_not_literal s1 d) as (N1 & N2 & N3 & _));
    try (pose proof (encodeStringLiteral_not_literal s2 d) as (M1 & M2 & M3 & _));
    try (destruct b1); try (destruct b2);
    try reflexivity; try discriminate; try congruence.
  f_equal. now apply encodeStringLiteral_injective in H.
Qed.

Lemma has_byte_append (c : ascii) (a b : string) :
  has_byte c (a ++ b) <-> has_byte c a \/ has_byte c b.
Proof.
  unfold has_byte. induction a as [|x a IH]; simpl; [tauto|].
  rewrite IH. tauto.
Qed.

Lemma escape_byte_one_line (c : ascii) : one_line (escape_byte c).
Proof.
  unfold one_line, has_byte.
  destruct c as [[] [] [] [] [] [] [] []]; cbn;
    repeat split; intros H; repeat (destruct H as [H|H]; [discriminate|]); exact H.
Qed.

Lemma one_line_append (a b : string) : one_line a -> one_line b -> one_line (a ++ b).
Proof.
  unfold one_line. rewrite !has_byte_append. tauto.
Qed.

Lemma escapeString_one_line (s : string) : one_line (escapeString s).
Proof.
  rewrite escapeString_bytes. induction s as [|c s IH]; simpl.
  - unfold one_line, has_byte. simpl. tauto.
  - apply one_line_append; [apply escape_byte_one_line | exact IH].
Qed.

Lemma quoted_one_line (s : string) :
  one_line (DoubleQuote ++ escapeString s ++ DoubleQuote).
Proof.
  repeat apply one_line_append; try apply escapeString_one_line;
    unfold one_line, has_byte; cbn; repeat split; intros [H|[]]; discriminate.
Qed.

Lemma identifier_key_one_line (k : string) : identifier_key k -> one_line k.
Proof.
  intros (c & rest & -> & Hc & Hrest).
  assert (Hall : Forall key_byte (list_ascii_of_string (String c rest))).
  { simpl. constructor; [now left | exact Hrest]. }
  rewrite Forall_forall in Hall.
  unfold one_line, has_byte. repeat split; intros H; apply Hall in H;
    unfold key_byte, key_start, is_digit in H; cbn in H; lia.
Qed.

Lemma encodeKey_one_line (k : string) : one_line (encodeKey k).
Proof.
  unfold encodeKey. destruct (isValidUnquotedKey k) eqn:E.
  - now apply identifier_key_one_line, isValidUnquotedKey_spec.
  - apply quoted_one_line.
Qed.

Lemma encodeStringLiteral_one_line (s d : string) :
  one_line (encodeStringLiteral s d).
Proof.
  unfold encodeStringLiteral. destruct (isSafeUnquoted s d) eqn:E.
  - assert (Hn : ~ needs_quotes s d).
    { intros Hq. apply isSafeUnquoted_false_iff in Hq. congruence. }
    unfold needs_quotes in Hn. unfold one_line. repeat split; intros H; apply Hn.
    + do 7 right. left. now left.
    + do 7 right. left. now right; left.
    + do 7 right. left. now right; right.
  - apply quoted_one_line.
Qed.

Lemma literal_one_line (s : string) :
  s = NullLiteral \/ s = TrueLiteral \/ s = FalseLiteral -> one_line s.
Proof.
  intros [-> | [-> | ->]]; unfold one_line, has_byte; cbn; repeat split; intros H;
    repeat (destruct H as [H|H]; [discriminate|]); exact H.
Qed.

(** X4. A key or a scalar never breaks a line: the text [encodeKey]
    gives for a key, and the text [encodePrimitive] gives for [nil], a
    boolean or a string, holds no newline, no carriage return and no
    tab, whatever bytes the key or the string holds. *)
Theorem X4_keys_and_scalars_stay_on_one_line (d : string) :
  (forall k, one_line (encodeKey k))
  /\ (forall v, plain_scalar v -> one_line (encodePrimitive v d)).
Proof.
  split; [apply encodeKey_one_line|].
  intros [|[]| |s| |] Hv; try now elim Hv.
  - apply literal_one_line. now left.
  - apply literal_one_line. now right; left.
  - apply literal_one_line. now right; right.
  - apply encodeStringLiteral_one_line.
Qed.

(** ** The writer: what the encoders do to it *)

Lemma repeat_string_succ_r (s : string) (n : nat) :
  repeat_string s (S n) = repeat_string s n ++ s.
Proof.
  induction n as [|n IH]; simpl; [now rewrite append_nil_r|].
  simpl in IH. now rewrite IH at 1; rewrite append_assoc.
Qed.

Lemma at_depth_intro (indent : string) (depth : nat) (content : string) :
  at_depth indent depth (repeat_string indent depth ++ content).
Proof. now exists content. Qed.

Lemma at_depth_succ (indent : string) (depth : nat) (line : string) :
  at_depth indent (S depth) line -> at_depth indent depth line.
Proof.
  intros [rest ->]. exists (indent ++ rest).
  now rewrite repeat_string_succ_r, append_assoc.
Qed.

Lemma at_depth_le (indent : string) (d d' : nat) (line : string) :
  d <= d' -> at_depth indent d' line -> at_depth indent d line.
Proof.
  induction 1 as [|d' Hle IH]; [auto|]. intros H. now apply IH, at_depth_succ.
Qed.

Lemma emits_id (indent : string) (P : string -> Prop) : emits indent P (fun w => w).
Proof.
  exists []. split; [constructor|]. intros [ls i] Hw. simpl in *.
  now rewrite app_nil_r, Hw.
Qed.

Lemma emits_Push (indent : string) (P : string -> Prop) (depth : nat)
  (content : string) :
  P (repeat_string indent depth ++ content) ->
  emits indent P (fun w => Push w depth content).
Proof.
  intros HP. exists [repeat_string indent depth ++ content].
  split; [now repeat constructor|]. intros w Hw. unfold Push. now rewrite Hw.
Qed.

Lemma emits_Push_at (indent : string) (d depth : nat) (content : string) :
  d <= depth -> emits indent (at_depth indent d) (fun w => Push w depth content).
Proof.
  intros Hle. apply emits_Push. apply (at_depth_le _ _ _ _ Hle), at_depth_intro.
Qed.

Lemma emits_comp (indent : string) (P : string -> Prop)
  (run1 run2 : LineWriter -> LineWriter) :
  emits indent P run1 -> emits indent P run2 ->
  emits indent P (fun w => run2 (run1 w)).
Proof.
  intros (n1 & H1 & E1) (n2 & H2 & E2). exists (List.app n1 n2).
  split; [now apply Forall_app|]. intros w Hw.
  rewrite (E1 w Hw), E2 by reflexivity. simpl. now rewrite app_assoc.
Qed.

Lemma emits_fold {A : Type} (indent : string) (P : string -> Prop)
  (step : LineWriter -> A -> LineWriter) (l : list A) :
  (forall x, In x l -> emits indent P (fun w => step w x)) ->
  emits indent P (fun w => fold_left step l w).
Proof.
  induction l as [|x l IH]; intros H; simpl; [apply emits_id|].
  apply (emits_comp indent P (fun w => step w x) (fun w => fold_left step l w)).
  - apply H. now left.
  - apply IH. intros y Hy. apply H. now right.
Qed.

Lemma emits_weaken (indent : string) (P Q : string -> Prop)
  (run : LineWriter -> LineWriter) :
  (forall line, P line -> Q line) -> emits indent P run -> emits indent Q run.
Proof.
  intros HPQ (new & Hnew & E). exists new. split; [|exact E].
  eapply Forall_impl; [exact HPQ | exact Hnew].
Qed.

Lemma emits_ext (indent : string) (P : string -> Prop)
  (run1 run2 : LineWriter -> LineWriter) :
  (forall w, run1 w = run2 w) -> emits indent P run1 -> emits indent P run2.
Proof.
  intros Hext (new & Hnew & E). exists new. split; [exact Hnew|].
  intros w Hw. now rewrite <- Hext, E.
Qed.

Lemma emits_shallower (indent : string) (d d' : nat)
  (run : LineWriter -> LineWriter) :
  d <= d' -> emits indent (at_depth indent d') run -> emits indent (at_depth indent d) run.
Proof. intros Hle. apply emits_weaken. intros line. now apply at_depth_le. Qed.

(** What a run gives on the writer that holds no line yet. *)
Lemma emits_fresh (indent : string) (P : string -> Prop)
  (run : LineWriter -> LineWriter) :
  emits indent P run ->
  Forall P (lines (run (mkLineWriter [] indent)))
  /\ forall w, indentationString w = indent ->
               run w
               = mkLineWriter
                   (List.app (lines w) (lines (run (mkLineWriter [] indent)))) indent.
Proof.
  intros (new & Hnew & E).
  assert (Hf : lines (run (mkLineWriter [] indent)) = new).
  { now rewrite E. }
  rewrite Hf. split; [exact Hnew | exact E].
Qed.

(** A run that follows a [Push]. *)
Lemma emits_after_Push (indent : string) (P : string -> Prop)
  (run : LineWriter -> LineWriter) :
  emits indent P run ->
  exists new,
    Forall P new
    /\ forall w depth content,
         indentationString w = indent ->
         run (Push w depth content)
         = mkLineWriter
             (List.app (lines w) ((repeat_string indent depth ++ content) :: new))
             indent.
Proof.
  intros (new & Hnew & E). exists new. split; [exact Hnew|].
  intros w depth content Hw. rewrite E by (now rewrite Push_indentation).
  rewrite Push_lines, Hw, <- app_assoc. reflexivity.
Qed.

Lemma emits_writeTabularRows (indent : string) (objects : list object)
  (header : list string) (depth : nat) (opts : EncodeOptions) :
  emits indent (at_depth indent depth)
    (fun w => writeTabularRows objects header w depth opts).
Proof.
  unfold writeTabularRows. apply emits_fold. intros obj _.
  now apply emits_Push_at.
Qed.

Lemma emits_encodeArrayOfObjectsAsTabular (indent prefix : string)
  (objects : list object) (header : list string) (depth : nat) (opts : EncodeOptions) :
  emits indent (at_depth indent depth)
    (fun w => encodeArrayOfObjectsAsTabular prefix objects header w depth opts).
Proof.
  unfold encodeArrayOfObjectsAsTabular.
  apply (emits_comp indent _ (fun w => Push w depth _)
           (fun w => writeTabularRows objects header w (depth + 1) opts)).
  - now apply emits_Push_at.
  - apply (emits_shallower _ depth (depth + 1)); [lia|].
    apply emits_writeTabularRows.
Qed.

Lemma emits_inline_item (indent : string) (depth : nat) (opts : EncodeOptions)
  (item : value) :
  emits indent (at_depth indent depth)
    (fun w =>
       match item with
       | VArray arr =>
           if isArrayOfPrimitives arr
           then Push w (depth + 1)
                  (ListItemPrefix
                     ++ formatInlineArray arr (Delimiter opts) "" (LengthMarker opts))
           else w
       | _ => w
       end).
Proof.
  destruct item as [| | | |arr|]; try apply emits_id.
  destruct (isArrayOfPrimitives arr); [|apply emits_id].
  apply emits_Push_at. lia.
Qed.

Lemma emits_encodeArrayOfArraysAsListItems (indent prefix : string)
  (arrays : list value) (depth : nat) (opts : EncodeOptions) :
  emits indent (at_depth indent depth)
    (fun w => encodeArrayOfArraysAsListItems prefix arrays w depth opts).
Proof.
  unfold encodeArrayOfArraysAsListItems.
  apply (emits_comp indent _ (fun w => Push w depth _)
           (fun w => fold_left _ arrays w)).
  - now apply emits_Push_at.
  - apply emits_fold. intros item _. apply emits_inline_item.
Qed.

Section Emitting.

Variable n : nat.
Hypothesis Hbelow : emits_below n.

Lemma emits_pair_index (indent : string) (obj : object) (key : string)
  (depth : nat) (opts : EncodeOptions) :
  (forall k v, In (k, v) obj -> value_size v < n) ->
  emits indent (at_depth indent depth)
    (fun w => encodeKeyValuePair key (index obj key) w depth opts).
Proof.
  intros Hsize. unfold index. destruct (lookup obj key) as [v|] eqn:E.
  - apply Hbelow. apply (Hsize key). now apply lookup_In.
  - apply (emits_ext _ _
             (fun w => Push w depth
                         (encodeKey key ++ ": " ++ encodePrimitive VNil (Delimiter opts)))).
    + intros w. now rewrite encodeKeyValuePair_eq.
    + now apply emits_Push_at.
Qed.

Lemma emits_encodeObject (indent : string) (obj : object) (depth : nat)
  (opts : EncodeOptions) :
  (forall k v, In (k, v) obj -> value_size v < n) ->
  emits indent (at_depth indent depth) (fun w => encodeObject obj w depth opts).
Proof.
  intros Hsize.
  apply (emits_ext _ _
           (fun w => fold_left
                       (fun writer key =>
                          encodeKeyValuePair key (index obj key) writer depth opts)
                       (GoSort.Strings (range_keys obj)) w)).
  - intros w. now rewrite encodeObject_eq.
  - apply emits_fold. intros key _. now apply emits_pair_index.
Qed.

Lemma emits_list_item (indent : string) (depth : nat) (opts : EncodeOptions)
  (item : value) :
  value_size item < n ->
  emits indent (at_depth indent depth)
    (fun w =>
       match item with
       | VArray arr =>
           if isArrayOfPrimitives arr
           then Push w (depth + 1)
                  (ListItemPrefix
                     ++ formatInlineArray arr (Delimiter opts) "" (LengthMarker opts))
           else w
       | VObject _ => encodeListItem item w (depth + 1) opts
       | _ => Push w (depth + 1)
                (ListItemPrefix ++ encodePrimitive item (Delimiter opts))
       end).
Proof.
  intros Hsize.
  destruct item as [| | | |arr|obj]; try (apply emits_Push_at; lia).
  - destruct (isArrayOfPrimitives arr); [apply emits_Push_at; lia | apply emits_id].
  - apply (emits_shallower _ depth (depth + 1)); [lia|]. now apply Hbelow.
Qed.

Lemma emits_encodeMixedArrayAsListItems (indent prefix : string)
  (items : list value) (depth : nat) (opts : EncodeOptions) :
  (forall x, In x items -> value_size x < n) ->
  emits indent (at_depth indent depth)
    (fun w => encodeMixedArrayAsListItems prefix items w depth opts).
Proof.
  intros Hsize. unfold encodeMixedArrayAsListItems, encodeMixedArrayAsListItems_body.
  apply (emits_comp indent _ (fun w => Push w depth _)
           (fun w => fold_left _ items w)).
  - now apply emits_Push_at.
  - apply emits_fold. intros item Hin. apply emits_list_item. now apply Hsize.
Qed.

Lemma emits_encodeArray (indent key : string) (arr : list value) (depth : nat)
  (opts : EncodeOptions) :
  (forall x, In x arr -> value_size x < n) ->
  emits indent (at_depth indent depth) (fun w => encodeArray key arr w depth opts).
Proof.
  intros Hsize. unfold encodeArray, encodeArray_body.
  destruct (List.length arr =? 0)%nat; [now apply emits_Push_at|].
  destruct (isArrayOfPrimitives arr).
  { unfold encodeInlinePrimitiveArray. now apply emits_Push_at. }
  destruct (isArrayOfArrays arr && _).
  { apply emits_encodeArrayOfArraysAsListItems. }
  destruct (isArrayOfObjects arr).
  - destruct (detectTabularHeader (as_objects arr)) as [header|].
    + apply emits_encodeArrayOfObjectsAsTabular.
    + now apply emits_encodeMixedArrayAsListItems.
  - now apply emits_encodeMixedArrayAsListItems.
Qed.

Lemma emits_object_items (indent : string) (arr : list value) (depth : nat)
  (opts : EncodeOptions) :
  (forall x, In x arr -> value_size x < n) ->
  emits indent (at_depth indent depth)
    (fun w =>
       fold_left
         (fun writer item =>
            match item with
            | VObject _ => encodeListItem item writer (depth + 1) opts
            | _ => writer
            end)
         arr w).
Proof.
  intros Hsize. apply emits_fold. intros item Hin.
  destruct item as [| | | | |obj]; try apply emits_id.
  apply (emits_shallower _ depth (depth + 1)); [lia|]. apply Hbelow. now apply Hsize.
Qed.

Lemma emits_encodeFirstField (indent firstKey : string) (firstValue : value)
  (depth : nat) (opts : EncodeOptions) :
  value_size firstValue <= n ->
  emits indent (at_depth indent depth)
    (fun w =>
       encodeFirstField encodeKeyValuePair encodeListItem
         firstKey firstValue w depth opts).
Proof.
  intros Hsize. unfold encodeFirstField.
  destruct firstValue as [| | | |arr|nested]; try (now apply emits_Push_at).
  - assert (Hel : forall x, In x arr -> value_size x < n).
    { intros x Hx. apply value_size_element in Hx. lia. }
    destruct (isArrayOfPrimitives arr); [now apply emits_Push_at|].
    destruct (isArrayOfObjects arr).
    + destruct (detectTabularHeader (as_objects arr)) as [header|].
      * apply (emits_comp indent _ (fun w => Push w depth _)
                 (fun w => writeTabularRows (as_objects arr) header w (depth + 1) opts)).
        -- now apply emits_Push_at.
        -- apply (emits_shallower _ depth (depth + 1)); [lia|].
           apply emits_writeTabularRows.
      * apply (emits_comp indent _ (fun w => Push w depth _)
                 (fun w => fold_left _ arr w)).
        -- now apply emits_Push_at.
        -- now apply emits_object_items.
    + apply (emits_comp indent _ (fun w => Push w depth _)
               (fun w => fold_left _ arr w)).
      * now apply emits_Push_at.
      * apply emits_fold. intros item Hin. apply emits_list_item. now apply Hel.
  - assert (Hf : forall k v, In (k, v) nested -> value_size v < n).
    { intros k v Hin. apply value_size_field in Hin. lia. }
    destruct (List.length (range_keys nested) =? 0)%nat; [now apply emits_Push_at|].
    apply (emits_comp indent _ (fun w => Push w depth _)
             (fun w => encodeObject nested w (depth + 2) opts)).
    + now apply emits_Push_at.
    + apply (emits_shallower _ depth (depth + 2)); [lia|].
      now apply emits_encodeObject.
Qed.

Lemma emits_encodeObjectAsListItem (indent : string) (obj : object) (depth : nat)
  (opts : EncodeOptions) :
  (forall k v, In (k, v) obj -> value_size v < n) ->
  emits indent (at_depth indent depth)
    (fun w => encodeObjectAsListItem obj w depth opts).
Proof.
  intros Hsize.
  destruct (GoSort.Strings (range_keys obj)) as [|firstKey remaining] eqn:Ek.
  - apply (emits_ext _ _ (fun w => Push w depth ListItemMarker)).
    + intros w. now rewrite encodeObjectAsListItem_eq, Ek.
    + now apply emits_Push_at.
  - apply (emits_ext _ _
             (fun w =>
                fold_left
                  (fun writer key =>
                     encodeKeyValuePair key (index obj key) writer (depth + 1) opts)
                  remaining
                  (encodeFirstField encodeKeyValuePair encodeListItem
                     firstKey (index obj firstKey) w depth opts))).
    + intros w. now rewrite encodeObjectAsListItem_eq, Ek.
    + apply (emits_comp indent _
               (fun w => encodeFirstField encodeKeyValuePair encodeListItem
                           firstKey (index obj firstKey) w depth opts)
               (fun w => fold_left _ remaining w)).
      * apply emits_encodeFirstField. unfold index.
        destruct (lookup obj firstKey) as [v|] eqn:E.
        -- apply lookup_In, Hsize in E. lia.
        -- simpl. destruct n; [|lia].
           destruct obj as [|[k v] rest]; [discriminate|].
           specialize (Hsize k v (or_introl eq_refl)). lia.
      * apply emits_fold. intros key _.
        apply (emits_shallower _ depth (depth + 1)); [lia|].
        now apply emits_pair_index.
Qed.

End Emitting.

Lemma emits_below_all (n : nat) : emits_below n.
Proof.
  induction n as [|n IH]; intros v Hs indent; [lia|].
  assert (Hle : value_size v <= n) by lia.
  split.
  - intros key depth opts.
    apply (emits_ext _ _
             (fun w =>
                match v with
                | VArray arr => encodeArray key arr w depth opts
                | VObject obj =>
                    encodeObject obj (Push w depth (encodeKey key ++ Colon))
                      (depth + 1) opts
                | _ => Push w depth
                         (encodeKey key ++ ": " ++ encodePrimitive v (Delimiter opts))
                end)).
    { intros w. now rewrite encodeKeyValuePair_eq. }
    destruct v as [| | | |arr|obj]; try (now apply emits_Push_at).
    + apply (emits_encodeArray n IH). intros x Hx.
      apply value_size_element in Hx. lia.
    + apply (emits_comp indent _ (fun w => Push w depth _)
               (fun w => encodeObject obj w (depth + 1) opts)).
      * now apply emits_Push_at.
      * apply (emits_shallower _ depth (depth + 1)); [lia|].
        apply (emits_encodeObject n IH). intros k x Hx.
        apply value_size_field in Hx. lia.
  - intros depth opts. destruct v as [| | | | |obj]; try apply emits_id.
    apply (emits_encodeObjectAsListItem n IH). intros k x Hx.
    apply value_size_field in Hx. lia.
Qed.

Lemma emits_pair (indent key : string) (v : value) (depth : nat)
  (opts : EncodeOptions) :
  emits indent (at_depth indent depth)
    (fun w => encodeKeyValuePair key v w depth opts).
Proof.
  destruct (emits_below_all (S (value_size v)) v (Nat.lt_succ_diag_r _) indent)
    as [H _].
  apply H.
Qed.

Lemma emits_object (indent : string) (obj : object) (depth : nat)
  (opts : EncodeOptions) :
  emits indent (at_depth indent depth) (fun w => encodeObject obj w depth opts).
Proof.
  apply (emits_encodeObject _ (emits_below_all (value_size (VObject obj)))).
  intros k v. apply value_size_field.
Qed.

Lemma emits_array (indent key : string) (arr : list value) (depth : nat)
  (opts : EncodeOptions) :
  emits indent (at_depth indent depth) (fun w => encodeArray key arr w depth opts).
Proof.
  apply (emits_encodeArray _ (emits_below_all (value_size (VArray arr)))).
  intros x. apply value_size_element.
Qed.

Lemma emits_mixed (indent prefix : string) (items : list value) (depth : nat)
  (opts : EncodeOptions) :
  emits indent (at_depth indent depth)
    (fun w => encodeMixedArrayAsListItems prefix items w depth opts).
Proof.
  apply (emits_encodeMixedArrayAsListItems _
           (emits_below_all (value_size (VArray items)))).
  intros x. apply value_size_element.
Qed.

Lemma emits_object_as_list_item (indent : string) (obj : object) (depth : nat)
  (opts : EncodeOptions) :
  emits indent (at_depth indent depth)
    (fun w => encodeObjectAsListItem obj w depth opts).
Proof.
  apply (emits_encodeObjectAsListItem _ (emits_below_all (value_size (VObject obj)))).
  intros k v. apply value_size_field.
Qed.

(** X5. The encoders only append to the writer: the lines it already
    holds are kept in place, its indentation string is left alone, and
    the lines that are added do not depend on the lines that were
    there, they are the ones the same call gives on a writer that holds
    no line yet. *)
Theorem X5_encoders_only_append (w : LineWriter) (depth : nat) (opts : EncodeOptions) :
  let fresh := mkLineWriter [] (indentationString w) in
  (forall key v,
      encodeKeyValuePair key v w depth opts
      = mkLineWriter
          (List.app (lines w) (lines (encodeKeyValuePair key v fresh depth opts)))
          (indentationString w))
  /\ (forall obj,
        encodeObject obj w depth opts
        = mkLineWriter
            (List.app (lines w) (lines (encodeObject obj fresh depth opts)))
            (indentationString w))
  /\ (forall key arr,
        encodeArray key arr w depth opts
        = mkLineWriter
            (List.app (lines w) (lines (encodeArray key arr fresh depth opts)))
            (indentationString w))
  /\ (forall prefix items,
        encodeMixedArrayAsListItems prefix items w depth opts
        = mkLineWriter
            (List.app (lines w)
               (lines (encodeMixedArrayAsListItems prefix items fresh depth opts)))
            (indentationString w))
  /\ (forall obj,
        encodeObjectAsListItem obj w depth opts
        = mkLineWriter
            (List.app (lines w) (lines (encodeObjectAsListItem obj fresh depth opts)))
            (indentationString w)).
Proof.
  cbv zeta. repeat split.
  - intros k v.
    now apply (emits_fresh _ _ _ (emits_pair (indentationString w) k v depth opts)).
  - intros obj.
    now apply (emits_fresh _ _ _ (emits_object (indentationString w) obj depth opts)).
  - intros k arr.
    now apply (emits_fresh _ _ _ (emits_array (indentationString w) k arr depth opts)).
  - intros prefix items.
    now apply (emits_fresh _ _ _
                 (emits_mixed (indentationString w) prefix items depth opts)).
  - intros obj.
    now apply (emits_fresh _ _ _
                 (emits_object_as_list_item (indentationString w) obj depth opts)).
Qed.

Lemma emits_lines (indent : string) (P : string -> Prop)
  (run : LineWriter -> LineWriter) (w : LineWriter) :
  emits indent P run -> indentationString w = indent ->
  exists new, lines (run w) = List.app (lines w) new /\ Forall P new.
Proof.
  intros (new & Hnew & E) Hw. exists new. split; [|exact Hnew]. now rewrite E.
Qed.

(** X6. Nothing is written above the depth an encoder is called at:
    every line an encoder adds starts with at least [depth] copies of
    the writer's indentation string. *)
Theorem X6_lines_are_indented_to_depth (w : LineWriter) (depth : nat)
  (opts : EncodeOptions) :
  (forall key v,
      exists new,
        lines (encodeKeyValuePair key v w depth opts) = List.app (lines w) new
        /\ Forall (at_depth (indentationString w) depth) new)
  /\ (forall obj,
        exists new,
          lines (encodeObject obj w depth opts) = List.app (lines w) new
          /\ Forall (at_depth (indentationString w) depth) new)
  /\ (forall key arr,
        exists new,
          lines (encodeArray key arr w depth opts) = List.app (lines w) new
          /\ Forall (at_depth (indentationString w) depth) new)
  /\ (forall obj,
        exists new,
          lines (encodeObjectAsListItem obj w depth opts) = List.app (lines w) new
          /\ Forall (at_depth (indentationString w) depth) new).
Proof.
  repeat split.
  - intros k v.
    now apply (emits_lines _ _ _ w (emits_pair (indentationString w) k v depth opts)).
  - intros obj.
    now apply (emits_lines _ _ _ w (emits_object (indentationString w) obj depth opts)).
  - intros k arr.
    now apply (emits_lines _ _ _ w (emits_array (indentationString w) k arr depth opts)).
  - intros obj.
    now apply (emits_lines _ _ _ w
                 (emits_object_as_list_item (indentationString w) obj depth opts)).
Qed.

(** ** Headers and keys at the start of what is written *)

Lemma formatHeader_shape (n : nat) (k : string) (fs : list string) (d : string)
  (m : bool) :
  exists rest,
    formatHeader n (mkHeaderOptions k fs d m)
    = (if String.eqb k "" then "" else encodeKey k) ++ "[" ++ rest.
Proof.
  unfold formatHeader. cbn [key fields delimiter lengthMarker].
  destruct (String.eqb k ""), m, (negb (String.eqb d DefaultDelimiter)),
    (0 <? List.length fs)%nat; cbn [negb]; rewrite ?append_assoc;
    eexists; reflexivity.
Qed.

Lemma fold_items_after_Push (indent : string) (P : string -> Prop)
  (step : LineWriter -> value -> LineWriter) (items : list value) :
  (forall x, In x items -> emits indent P (fun w => step w x)) ->
  exists new,
    forall w depth content,
      indentationString w = indent ->
      fold_left step items (Push w depth content)
      = mkLineWriter
          (List.app (lines w) ((repeat_string indent depth ++ content) :: new)) indent.
Proof.
  intros H.
  destruct (emits_after_Push indent P (fun w => fold_left step items w)
              (emits_fold indent P step items H)) as (new & _ & E).
  now exists new.
Qed.

(** The first line [encodeArray] writes. *)
Lemma encodeArray_header (indent key : string) (arr : list value) (depth : nat)
  (opts : EncodeOptions) :
  exists fields tail more,
    (forall w, indentationString w = indent ->
               encodeArray key arr w depth opts
               = mkLineWriter
                   (List.app (lines w)
                      ((repeat_string indent depth
                          ++ formatHeader (List.length arr)
                               (mkHeaderOptions key fields (Delimiter opts)
                                  (LengthMarker opts))
                          ++ tail) :: more))
                   indent)
    /\ (isArrayOfPrimitives arr = true ->
        fields = [] /\ more = []
        /\ tail = if (List.length arr =? 0)%nat then ""
                  else " " ++ joinEncodedValues arr (Delimiter opts)).
Proof.
  unfold encodeArray, encodeArray_body.
  destruct (List.length arr =? 0)%nat eqn:El.
  { exists [], "", []. split; [|now intros _].
    intros w Hw. apply Nat.eqb_eq in El. rewrite El. unfold Push.
    now rewrite Hw, append_nil_r. }
  destruct (isArrayOfPrimitives arr) eqn:Ep.
  { exists [], (" " ++ joinEncodedValues arr (Delimiter opts)), [].
    split; [|now intros _].
    intros w Hw. unfold encodeInlinePrimitiveArray, formatInlineArray, Push.
    now rewrite El, Hw. }
  destruct (isArrayOfArrays arr && _).
  { unfold encodeArrayOfArraysAsListItems.
    destruct (fold_items_after_Push indent (at_depth indent depth)
                (fun writer item =>
                   match item with
                   | VArray arr0 =>
                       if isArrayOfPrimitives arr0
                       then Push writer (depth + 1)
                              (ListItemPrefix
                                 ++ formatInlineArray arr0 (Delimiter opts) ""
                                      (LengthMarker opts))
                       else writer
                   | _ => writer
                   end) arr) as (new & E).
    { intros item _. apply emits_inline_item. }
    exists [], "", new. split; [|discriminate].
    intros w Hw. rewrite append_nil_r. now apply E. }
  assert (Hmixed :
            exists more,
              forall w, indentationString w = indent ->
                encodeMixedArrayAsListItems_body encodeListItem key arr w depth opts
                = mkLineWriter
                    (List.app (lines w)
                       ((repeat_string indent depth
                           ++ formatHeader (List.length arr)
                                (mkHeaderOptions key [] (Delimiter opts)
                                   (LengthMarker opts))
                           ++ "") :: more))
                    indent).
  { unfold encodeMixedArrayAsListItems_body.
    destruct (fold_items_after_Push indent (at_depth indent depth)
                (fun writer item =>
                   match item with
                   | VArray arr0 =>
                       if isArrayOfPrimitives arr0
                       then Push writer (depth + 1)
                              (ListItemPrefix
                                 ++ formatInlineArray arr0 (Delimiter opts) ""
                                      (LengthMarker opts))
                       else writer
                   | VObject _ => encodeListItem item writer (depth + 1) opts
                   | _ => Push writer (depth + 1)
                            (ListItemPrefix ++ encodePrimitive item (Delimiter opts))
                   end) arr) as (new & E).
    { intros item _.
      apply (emits_list_item _ (emits_below_all (S (value_size item)))). lia. }
    exists new. intros w Hw. rewrite append_nil_r. now apply E. }
  destruct (isArrayOfObjects arr).
  - destruct (detectTabularHeader (as_objects arr)) as [header|].
    + unfold encodeArrayOfObjectsAsTabular.
      destruct (emits_after_Push indent _ _
                  (emits_writeTabularRows indent (as_objects arr) header
                     (depth + 1) opts)) as (new & _ & E).
      exists header, "", new. split; [|discriminate].
      intros w Hw. rewrite append_nil_r.
      replace (List.length arr) with (List.length (as_objects arr))
        by (unfold as_objects; apply length_map).
      now apply E.
    + destruct Hmixed as (more & E). exists [], "", more. now split.
  - destruct Hmixed as (more & E). exists [], "", more. now split.
Qed.

(** X7. Every array is announced: the first line [encodeArray] writes
    is the header that [formatHeader] builds for the key, the number of
    elements, the delimiter and the length marker of the options.  An
    array of scalars gives that line alone: the header with no field
    list, followed, unless the array is empty, by a space and the
    scalars joined by the delimiter. *)
Theorem X7_array_starts_with_its_header (key : string) (arr : list value)
  (w : LineWriter) (depth : nat) (opts : EncodeOptions) :
  exists fields tail more,
    lines (encodeArray key arr w depth opts)
    = List.app (lines w)
        ((repeat_string (indentationString w) depth
            ++ formatHeader (List.length arr)
                 (mkHeaderOptions key fields (Delimiter opts) (LengthMarker opts))
            ++ tail) :: more)
    /\ (isArrayOfPrimitives arr = true ->
        fields = [] /\ more = []
        /\ tail = if (List.length arr =? 0)%nat then ""
                  else " " ++ joinEncodedValues arr (Delimiter opts)).
Proof.
  destruct (encodeArray_header (indentationString w) key arr depth opts)
    as (fs & tail & more & E & Hp).
  exists fs, tail, more. split; [|exact Hp]. now rewrite E.
Qed.

(** The first line [encodeKeyValuePair] writes. *)
Lemma encodeKeyValuePair_first_line (indent key : string) (v : value) (depth : nat)
  (opts : EncodeOptions) :
  exists rest more,
    forall w, indentationString w = indent ->
      encodeKeyValuePair key v w depth opts
      = mkLineWriter
          (List.app (lines w)
             ((repeat_string indent depth
                 ++ (if isArray v && String.eqb key "" then "" else encodeKey key)
                 ++ rest) :: more))
          indent
      /\ exists c rest', rest = String c rest' /\ (c = ":"%char \/ c = "["%char).
Proof.
  destruct v as [|b|f|s|arr|obj].
  1-4: eexists _, []; intros w Hw; rewrite encodeKeyValuePair_eq; unfold Push;
       rewrite Hw; (split; [reflexivity|]); eexists _, _; split;
       [reflexivity | now left].
  - destruct (encodeArray_header indent key arr depth opts)
      as (fs & tail & more & E & _).
    destruct (formatHeader_shape (List.length arr) key fs (Delimiter opts)
                (LengthMarker opts)) as (r & Hr).
    exists ("[" ++ r ++ tail), more. intros w Hw.
    rewrite encodeKeyValuePair_eq, (E w Hw), Hr. cbn [isArray andb].
    split; [|eexists _, _; split; [reflexivity | now right]].
    now rewrite !append_assoc.
  - destruct (emits_after_Push indent _ _ (emits_object indent obj (depth + 1) opts))
      as (new & _ & E).
    exists Colon, new. intros w Hw.
    rewrite encodeKeyValuePair_eq, E by exact Hw.
    split; [reflexivity|]. eexists _, _. split; [reflexivity | now left].
Qed.

(** X8. Every key of an object heads a line: the first line
    [encodeKeyValuePair] writes is, after the indentation of its depth,
    the encoded key followed by [:] or by the [[] of an array header.
    The one exception is the empty key before an array, which the
    header leaves out. *)
Theorem X8_every_key_heads_a_line (key : string) (v : value) (w : LineWriter)
  (depth : nat) (opts : EncodeOptions) :
  key <> "" \/ isArray v = false ->
  exists c rest more,
    lines (encodeKeyValuePair key v w depth opts)
    = List.app (lines w)
        ((repeat_string (indentationString w) depth
            ++ encodeKey key ++ String c rest) :: more)
    /\ (c = ":"%char \/ c = "["%char).
Proof.
  intros H.
  destruct (encodeKeyValuePair_first_line (indentationString w) key v depth opts)
    as (rest & more & E).
  destruct (E w eq_refl) as (Ew & c & rest' & -> & Hc).
  exists c, rest', more. split; [|exact Hc]. rewrite Ew. simpl.
  assert (Hk : isArray v && String.eqb key "" = false).
  { destruct H as [H|H]; [|now rewrite H].
    apply String.eqb_neq in H. rewrite H. apply andb_false_r. }
  now rewrite Hk.
Qed.

Lemma X8_every_key_heads_a_line_witness :
  exists c rest more,
    lines (encodeKeyValuePair "tags" (VArray [VString "a"; VString "b"])
             (mkLineWriter ["first:"] "  ") 1 defaultOptions)
    = List.app ["first:"]
        ((repeat_string "  " 1 ++ encodeKey "tags" ++ String c rest) :: more)
    /\ (c = ":"%char \/ c = "["%char).
Proof.
  apply (X8_every_key_heads_a_line "tags" (VArray [VString "a"; VString "b"])
           (mkLineWriter ["first:"] "  ") 1 defaultOptions).
  left. discriminate.
Defined.

(** X9. The empty key is lost before an array: an object whose only
    key is the empty string and holds an array is encoded as the bare
    array, whatever the array and the options. *)
Theorem X9_empty_key_is_lost_before_an_array (arr : list value)
  (opts : EncodeOptions) :
  encodeValue (VObject [("", VArray arr)]) opts = encodeValue (VArray arr) opts.
Proof.
  unfold encodeValue. cbn [isPrimitive].
  destruct (NewLineWriter (Indent opts)) as [w|msg]; [|reflexivity].
  rewrite encodeObject_eq. reflexivity.
Qed.

Lemma fold_pairs_lines (indent : string) (obj : object) (depth : nat)
  (opts : EncodeOptions) (keys : list string) :
  forall w, indentationString w = indent ->
    fold_left
      (fun writer key => encodeKeyValuePair key (index obj key) writer depth opts)
      keys w
    = mkLineWriter
        (List.app (lines w)
           (flat_map
              (fun key =>
                 lines (encodeKeyValuePair key (index obj key)
                          (mkLineWriter [] indent) depth opts))
              keys))
        indent.
Proof.
  induction keys as [|k keys IH]; intros w Hw; simpl.
  - rewrite app_nil_r. destruct w; simpl in *. now subst.
  - destruct (emits_fresh _ _ _ (emits_pair indent k (index obj k) depth opts))
      as [_ E].
    rewrite (E w Hw), IH by reflexivity. simpl. now rewrite app_assoc.
Qed.

(** X10. An object is written field by field: what [encodeObject] adds
    is, for each key in sorted order, what [encodeKeyValuePair] writes
    for that key and its value on its own, one block after the other;
    and no field is passed over, each block holds at least one line. *)
Theorem X10_object_is_its_fields_in_key_order (obj : object) (w : LineWriter)
  (depth : nat) (opts : EncodeOptions) :
  let block key :=
    lines (encodeKeyValuePair key (index obj key)
             (mkLineWriter [] (indentationString w)) depth opts) in
  lines (encodeObject obj w depth opts)
  = List.app (lines w) (flat_map block (GoSort.Strings (range_keys obj)))
  /\ (forall key, block key <> [])
  /\ List.length (lines w) + List.length obj
     <= List.length (lines (encodeObject obj w depth opts)).
Proof.
  cbv zeta.
  assert (Hblock : forall key,
             lines (encodeKeyValuePair key (index obj key)
                      (mkLineWriter [] (indentationString w)) depth opts) <> []).
  { intros key.
    destruct (encodeKeyValuePair_first_line (indentationString w) key
                (index obj key) depth opts) as (rest & more & E).
    destruct (E (mkLineWriter [] (indentationString w)) eq_refl) as [Ew _].
    rewrite Ew. discriminate. }
  assert (Hlines : lines (encodeObject obj w depth opts)
                   = List.app (lines w)
                       (flat_map
                          (fun key =>
                             lines (encodeKeyValuePair key (index obj key)
                                      (mkLineWriter [] (indentationString w))
                                      depth opts))
                          (GoSort.Strings (range_keys obj)))).
  { rewrite encodeObject_eq.
    now rewrite (fold_pairs_lines (indentationString w)). }
  split; [exact Hlines|]. split; [exact Hblock|].
  rewrite Hlines, length_app, <- range_keys_length, <- (Strings_length (range_keys obj)).
  apply Nat.add_le_mono_l.
  generalize (GoSort.Strings (range_keys obj)). intros ks.
  induction ks as [|k ks IH]; simpl; [lia|].
  rewrite length_app. specialize (Hblock k).
  remember (lines (encodeKeyValuePair k (index obj k)
                     (mkLineWriter [] (indentationString w)) depth opts)) as b.
  destruct b; [now elim Hblock|]. simpl. lia.
Qed.

(** ** The list of inline arrays *)

Lemma fold_inline_items (opts : EncodeOptions) (depth : nat) (arrays : list value) :
  forallb isArray arrays = true ->
  forallb (fun item => isArrayOfPrimitives (as_array item)) arrays = true ->
  forall w,
    fold_left
      (fun writer item =>
         match item with
         | VArray arr =>
             if isArrayOfPrimitives arr
             then Push writer (depth + 1)
                    (ListItemPrefix
                       ++ formatInlineArray arr (Delimiter opts) ""
                            (LengthMarker opts))
             else writer
         | _ => writer
         end)
      arrays w
    = mkLineWriter
        (List.app (lines w)
           (map (fun item =>
                   repeat_string (indentationString w) (depth + 1)
                     ++ ListItemPrefix
                     ++ formatInlineArray (as_array item) (Delimiter opts) ""
                          (LengthMarker opts))
              arrays))
        (indentationString w).
Proof.
  induction arrays as [|item arrays IH]; intros Ha Hp w; simpl.
  - rewrite app_nil_r. now destruct w.
  - simpl in Ha, Hp. apply andb_true_iff in Ha as [Ha1 Ha2].
    apply andb_true_iff in Hp as [Hp1 Hp2].
    destruct item as [| | | |arr|]; try discriminate. simpl in Hp1.
    rewrite Hp1, (IH Ha2 Hp2), Push_lines, Push_indentation, <- app_assoc.
    reflexivity.
Qed.

(** X11. The list of inline arrays: an array whose elements are all
    arrays of scalars is written as its header line followed by one
    line per element, in order, one level deeper: the list marker and
    the inline form of the element, with a header of its own that has
    no key.  The number of lines under the header is the number the
    header announces. *)
Theorem X11_list_of_inline_arrays (key : string) (arr : list value)
  (w : LineWriter) (depth : nat) (opts : EncodeOptions) :
  isArrayOfPrimitives arr = false ->
  isArrayOfArrays arr = true ->
  forallb (fun item => isArrayOfPrimitives (as_array item)) arr = true ->
  lines (encodeArray key arr w depth opts)
  = List.app (lines w)
      ((repeat_string (indentationString w) depth
          ++ formatHeader (List.length arr)
               (mkHeaderOptions key [] (Delimiter opts) (LengthMarker opts)))
       :: map (fun item =>
                 repeat_string (indentationString w) (depth + 1)
                   ++ ListItemPrefix
                   ++ formatInlineArray (as_array item) (Delimiter opts) ""
                        (LengthMarker opts))
            arr).
Proof.
  intros Hnp Ha Hp. unfold encodeArray, encodeArray_body.
  destruct arr as [|x arr]; [discriminate|].
  cbn [List.length Nat.eqb]. rewrite Hnp, Ha.
  assert (Hsub : forallb (fun item => match item with
                                      | VArray itemArr => isArrayOfPrimitives itemArr
                                      | _ => true
                                      end) (x :: arr) = true).
  { apply forallb_forall. intros item Hin.
    rewrite forallb_forall in Hp. specialize (Hp item Hin).
    now destruct item. }
  rewrite Hsub. cbn [andb]. unfold encodeArrayOfArraysAsListItems.
  rewrite (fold_inline_items opts depth (x :: arr) Ha Hp).
  now rewrite Push_lines, Push_indentation, <- app_assoc.
Qed.

Lemma X11_list_of_inline_arrays_witness :
  lines (encodeArray "pairs" [VArray [VBool true; VNil]; VArray []]
           (mkLineWriter [] "  ") 0 defaultOptions)
  = List.app []
      ((repeat_string "  " 0
          ++ formatHeader 2 (mkHeaderOptions "pairs" [] "," false))
       :: map (fun item =>
                 repeat_string "  " (0 + 1)
                   ++ ListItemPrefix
                   ++ formatInlineArray (as_array item) "," "" false)
            [VArray [VBool true; VNil]; VArray []]).
Proof.
  apply (X11_list_of_inline_arrays "pairs" [VArray [VBool true; VNil]; VArray []]
           (mkLineWriter [] "  ") 0 defaultOptions); reflexivity.
Defined.

(** ** The table header *)

(** X12. A table has no hole: when [detectTabularHeader] gives a
    header, the header is not empty, it is the sorted keys of the first
    object, and every object has as many entries as the header has
    fields and holds a scalar under every field, so no cell of the
    table is the [nil] of a missing key. *)
Theorem X12_tabular_header_fields_are_present (objects : list object)
  (header : list string) :
  detectTabularHeader objects = Some header ->
  header <> []
  /\ (exists first others,
         objects = first :: others /\ header = GoSort.Strings (range_keys first))
  /\ forall obj, In obj objects ->
       List.length obj = List.length header
       /\ forall k, In k header ->
            exists v, lookup obj k = Some v /\ isPrimitive v = true /\ index obj k = v.
Proof.
  unfold detectTabularHeader. destruct objects as [|first others]; [discriminate|].
  destruct (List.length first =? 0)%nat eqn:El; [discriminate|].
  destruct (isTabularArray _ _) eqn:Et; [|discriminate].
  intros H. injection H as <-. split; [|split].
  - intros Hnil. apply (f_equal (@List.length string)) in Hnil.
    rewrite Strings_length, range_keys_length in Hnil. simpl in Hnil.
    apply Nat.eqb_neq in El. lia.
  - now exists first, others.
  - intros obj Hin. unfold isTabularArray in Et. rewrite forallb_forall in Et.
    specialize (Et obj Hin). apply andb_true_iff in Et as [Hlen Hcells].
    split; [now apply Nat.eqb_eq|].
    intros k Hk. rewrite forallb_forall in Hcells. specialize (Hcells k Hk).
    unfold index. destruct (lookup obj k) as [v|]; [|discriminate].
    now exists v.
Qed.

Lemma X12_tabular_header_fields_are_present_witness :
  ["a"; "b"] <> []
  /\ (exists first others,
         [[("b", VNil); ("a", VBool true)]; [("a", VNil); ("b", VNil)]]
         = first :: others
         /\ ["a"; "b"] = GoSort.Strings (range_keys first))
  /\ forall obj,
       In obj [[("b", VNil); ("a", VBool true)]; [("a", VNil); ("b", VNil)]] ->
       List.length obj = List.length ["a"; "b"]
       /\ forall k, In k ["a"; "b"] ->
            exists v, lookup obj k = Some v /\ isPrimitive v = true /\ index obj k = v.
Proof.
  apply (X12_tabular_header_fields_are_present
           [[("b", VNil); ("a", VBool true)]; [("a", VNil); ("b", VNil)]]
           ["a"; "b"]).
  reflexivity.
Defined.

(** ** The width of the indentation *)

Lemma repeat_string_add (s : string) (a b : nat) :
  repeat_string s (a + b) = repeat_string s a ++ repeat_string s b.
Proof.
  induction a as [|a IH]; simpl; [reflexivity|]. now rewrite IH, append_assoc.
Qed.

Lemma repeat_string_mul (s : string) (a b : nat) :
  repeat_string (repeat_string s a) b = repeat_string s (a * b).
Proof.
  induction b as [|b IH]; simpl.
  - now rewrite Nat.mul_0_r.
  - now rewrite IH, Nat.mul_succ_r, Nat.add_comm, repeat_string_add.
Qed.

Lemma repeat_string_length (s : string) (n : nat) :
  String.length (repeat_string s n) = n * String.length s.
Proof.
  induction n as [|n IH]; simpl; [reflexivity|]. now rewrite length_append, IH.
Qed.

(** X13. A line pushed at a depth starts with the indent width times
    the depth spaces: a writer made by [NewLineWriter] for a width
    holds no line, the width is not negative, and [Push] on it, or on
    what the encoders make of it, appends the content after that many
    spaces. *)
Theorem X13_push_indents_by_width_times_depth (indentSize : Z) (w0 : LineWriter) :
  NewLineWriter indentSize = Returns w0 ->
  (0 <= indentSize)%Z
  /\ lines w0 = []
  /\ forall w depth content,
       indentationString w = indentationString w0 ->
       Push w depth content
       = mkLineWriter
           (List.app (lines w)
              [repeat_string " " (Z.to_nat indentSize * depth) ++ content])
           (indentationString w0)
       /\ String.length (repeat_string " " (Z.to_nat indentSize * depth))
          = Z.to_nat indentSize * depth.
Proof.
  unfold NewLineWriter, Repeat. destruct (indentSize <? 0)%Z eqn:E; [discriminate|].
  intros H. injection H as <-. apply Z.ltb_ge in E. cbn [lines indentationString].
  split; [exact E|]. split; [reflexivity|].
  intros w depth content Hw. unfold Push.
  rewrite Hw, repeat_string_mul, repeat_string_length. simpl. split; [reflexivity | lia].
Qed.

Lemma X13_push_indents_by_width_times_depth_witness :
  (0 <= 2)%Z
  /\ lines (mkLineWriter [] "  ") = []
  /\ forall w depth content,
       indentationString w = indentationString (mkLineWriter [] "  ") ->
       Push w depth content
       = mkLineWriter
           (List.app (lines w) [repeat_string " " (Z.to_nat 2 * depth) ++ content])
           (indentationString (mkLineWriter [] "  "))
       /\ String.length (repeat_string " " (Z.to_nat 2 * depth))
          = Z.to_nat 2 * depth.
Proof.
  apply (X13_push_indents_by_width_times_depth 2 (mkLineWriter [] "  ")).
  reflexivity.
Defined.

(** ** What [normalizeValue] makes of maps and structs *)

Lemma map_set_absent (obj : object) (k : string) (v : value) :
  ~ In k (range_keys obj) -> map_set obj k v = List.app obj [(k, v)].
Proof.
  induction obj as [|[k' v'] rest IH]; simpl; intros H; [reflexivity|].
  destruct (String.eqb k' k) eqn:E.
  - apply String.eqb_eq in E. elim H. now left.
  - f_equal. apply IH. intros Hin. apply H. now right.
Qed.

Lemma map_set_In_inv (obj : object) (k : string) (v : value) (k' : string)
  (v' : value) :
  In (k', v') (map_set obj k v) -> In (k', v') obj \/ (k', v') = (k, v).
Proof.
  induction obj as [|[k0 v0] rest IH]; simpl.
  - intros [H|[]]. now right.
  - destruct (String.eqb k0 k) eqn:E; simpl.
    + apply String.eqb_eq in E. subst k0. intros [H|H]; [now right | left; now right].
    + intros [H|H]; [left; now left|]. destruct (IH H) as [H'|H']; [left; now right|].
      now right.
Qed.

Lemma map_set_keys_mono (obj : object) (k : string) (v : value) (k' : string) :
  In k' (range_keys obj) -> In k' (range_keys (map_set obj k v)).
Proof.
  rewrite map_set_keys. destruct (existsb _ _); [auto|].
  intros H. apply in_or_app. now left.
Qed.

Lemma map_set_key_in (obj : object) (k : string) (v : value) :
  In k (range_keys (map_set obj k v)).
Proof.
  rewrite map_set_keys. destruct (existsb _ _) eqn:E.
  - apply existsb_exists in E as (x & Hx & Ex). apply String.eqb_eq in Ex. now subst.
  - apply in_or_app. right. now left.
Qed.

(** X14. A map is normalized entry by entry: the object made of a Go
    map with string keys holds, for each entry and in the order the map
    is ranged over, the key with the normalized value. *)
Theorem X14_map_is_normalized_entry_by_entry (entries : list (string * goValue)) :
  NoDup (map fst entries) ->
  normalizeValue (GoMap (Some entries))
  = VObject (map (fun e => (fst e, normalizeValue (snd e))) entries).
Proof.
  intros Hnd. simpl. f_equal.
  change (map (fun e => (fst e, normalizeValue (snd e))) entries)
    with (List.app [] (map (fun e => (fst e, normalizeValue (snd e))) entries)).
  assert (H : NoDup (List.app (range_keys []) (map fst entries))) by exact Hnd.
  clear Hnd. revert H. generalize (@nil (string * value)).
  induction entries as [|[k v] rest IH]; intros obj H; simpl.
  - now rewrite app_nil_r.
  - assert (Hk : ~ In k (range_keys obj)).
    { intros Hin. apply NoDup_remove_2 in H. apply H, in_or_app. now left. }
    rewrite (map_set_absent obj k _ Hk).
    rewrite IH.
    + now rewrite <- app_assoc.
    + unfold range_keys in *. rewrite map_app, <- app_assoc. exact H.
Qed.

Lemma X14_map_is_normalized_entry_by_entry_witness :
  normalizeValue (GoMap (Some [("b", GoInt 1); ("a", GoSlice [GoNil])]))
  = VObject (map (fun e => (fst e, normalizeValue (snd e)))
               [("b", GoInt 1); ("a", GoSlice [GoNil])]).
Proof.
  apply (X14_map_is_normalized_entry_by_entry [("b", GoInt 1); ("a", GoSlice [GoNil])]).
  repeat constructor; simpl; intuition discriminate.
Defined.

(** X15. A struct becomes the object of its exported fields: every
    entry of the object comes from an exported field, under its [json]
    tag, or under its name when the tag is empty or [-], with the
    normalized value of the field; every exported field has its key in
    the object; a field that is not exported leaves no trace. *)
Theorem X15_struct_keeps_its_exported_fields
  (fields : list (string * bool * string * goValue)) :
  exists obj,
    normalizeValue (GoStruct fields) = VObject obj
    /\ (forall k v, In (k, v) obj ->
          exists name tag fieldValue,
            In (name, true, tag, fieldValue) fields
            /\ k = external_name name tag /\ v = normalizeValue fieldValue)
    /\ (forall name tag fieldValue,
          In (name, true, tag, fieldValue) fields ->
          In (external_name name tag) (range_keys obj)).
Proof.
  simpl. eexists. split; [reflexivity|].
  assert (H : forall obj : object,
             let result :=
               (fix each (fields : list (string * bool * string * goValue))
                  (obj : object) : object :=
                  match fields with
                  | [] => obj
                  | (name, exported, tag, fieldValue) :: rest =>
                      if exported then
                        let name :=
                          if negb (String.eqb tag "") && negb (String.eqb tag "-")
                          then tag else name in
                        each rest (map_set obj name (normalizeValue fieldValue))
                      else each rest obj
                  end) fields obj in
             (forall k v, In (k, v) result ->
                In (k, v) obj
                \/ exists name tag fieldValue,
                     In (name, true, tag, fieldValue) fields
                     /\ k = external_name name tag /\ v = normalizeValue fieldValue)
             /\ (forall k, In k (range_keys obj) -> In k (range_keys result))
             /\ (forall name tag fieldValue,
                   In (name, true, tag, fieldValue) fields ->
                   In (external_name name tag) (range_keys result))).
  { induction fields as [|[[[name exported] tag] fv] rest IH]; intros obj; cbv zeta.
    - split; [auto|]. split; [auto|]. intros ? ? ? [].
    - destruct exported.
      + destruct (IH (map_set obj (external_name name tag) (normalizeValue fv)))
          as (I1 & I2 & I3).
        split; [|split].
        * intros k v Hin. apply I1 in Hin as [Hin|(n' & t' & f' & Hin & Hk & Hv)].
          -- apply map_set_In_inv in Hin as [Hin|Hin]; [now left|].
             right. injection Hin as -> ->. exists name, tag, fv.
             split; [now left | now split].
          -- right. exists n', t', f'. split; [now right | now split].
        * intros k Hk. now apply I2, map_set_keys_mono.
        * intros n' t' f' [Heq|Hin].
          -- injection Heq as <- <- <-. apply I2, map_set_key_in.
          -- now apply (I3 n' t' f').
      + destruct (IH obj) as (I1 & I2 & I3). split; [|split].
        * intros k v Hin. apply I1 in Hin as [Hin|(n' & t' & f' & Hin & Hk & Hv)].
          -- now left.
          -- right. exists n', t', f'. split; [now right | now split].
        * exact I2.
        * intros n' t' f' [Heq|Hin]; [discriminate|]. now apply (I3 n' t' f'). }
  destruct (H []) as (I1 & _ & I3). split; [|exact I3].
  intros k v Hin. now destruct (I1 k v Hin) as [[]|Hex].
Qed.

(** ** The options *)

Lemma calls_marker (calls : list optionCall) (o : EncodeOptions) :
  LengthMarker (fold_left (fun options opt => opt options) (map call calls) o) = true
  <-> LengthMarker o = true \/ In CallWithLengthMarker calls.
Proof.
  revert o. induction calls as [|c calls IH]; intros o; simpl; [tauto|].
  rewrite IH. destruct c; simpl; split; intros [H|H]; auto.
  - destruct H as [H|H]; [discriminate | auto].
  - destruct H as [H|H]; [discriminate | auto].
Qed.

Lemma calls_keep_indent (calls : list optionCall) (o : EncodeOptions) :
  (forall m, ~ In (CallWithIndent m) calls) ->
  Indent (fold_left (fun options opt => opt options) (map call calls) o) = Indent o.
Proof.
  revert o. induction calls as [|c calls IH]; intros o H; simpl; [reflexivity|].
  rewrite IH by (intros m Hm; apply (H m); now right).
  destruct c; simpl; try reflexivity. elim (H z). now left.
Qed.

Lemma calls_keep_delimiter (calls : list optionCall) (o : EncodeOptions) :
  (forall d, ~ In (CallWithDelimiter d) calls) ->
  Delimiter (fold_left (fun options opt => opt options) (map call calls) o)
  = Delimiter o.
Proof.
  revert o. induction calls as [|c calls IH]; intros o H; simpl; [reflexivity|].
  rewrite IH by (intros m Hm; apply (H m); now right).
  destruct c; simpl; try reflexivity. elim (H s). now left.
Qed.

(** X16. The options are applied in the order they are given: for the
    indent and for the delimiter the last call wins, whatever other
    options come before or after it, and an option that is not given
    keeps its default, 2 and the comma; the length marker is on exactly
    when [WithLengthMarker] is among the options, no option turns it
    off again. *)
Theorem X16_last_option_wins (calls : list optionCall) :
  let options := resolveOptions (map call calls) in
  (forall before n after,
      calls = List.app before (CallWithIndent n :: after) ->
      (forall m, ~ In (CallWithIndent m) after) -> Indent options = n)
  /\ ((forall m, ~ In (CallWithIndent m) calls) -> Indent options = 2%Z)
  /\ (forall before d after,
        calls = List.app before (CallWithDelimiter d :: after) ->
        (forall d', ~ In (CallWithDelimiter d') after) -> Delimiter options = d)
  /\ ((forall d, ~ In (CallWithDelimiter d) calls) -> Delimiter options = ",")
  /\ (LengthMarker options = true <-> In CallWithLengthMarker calls).
Proof.
  cbv zeta. unfold resolveOptions. repeat split.
  - intros before n after -> Hafter.
    rewrite map_app, fold_left_app. simpl.
    now rewrite calls_keep_indent.
  - intros H. now rewrite calls_keep_indent.
  - intros before d after -> Hafter.
    rewrite map_app, fold_left_app. simpl.
    now rewrite calls_keep_delimiter.
  - intros H. now rewrite calls_keep_delimiter.
  - intros H. apply calls_marker in H as [H|H]; [discriminate | exact H].
  - intros H. apply calls_marker. now right.
Qed.

(** ** The text of a number *)

Lemma list_ascii_of_string_append (a b : string) :
  list_ascii_of_string (a ++ b)
  = List.app (list_ascii_of_string a) (list_ascii_of_string b).
Proof. induction a as [|c a IH]; simpl; [reflexivity | now rewrite IH]. Qed.

Lemma digits_append (a b : string) :
  digits a -> Forall is_digit (list_ascii_of_string b) -> digits (a ++ b).
Proof.
  intros [Hne Ha] Hb. split.
  - destruct a; [now elim Hne | discriminate].
  - rewrite list_ascii_of_string_append. now apply Forall_app.
Qed.

Lemma string_of_uint_digits (d : Decimal.uint) :
  Forall is_digit (list_ascii_of_string (NilEmpty.string_of_uint d)).
Proof.
  induction d; simpl; constructor; try exact IHd;
    unfold is_digit; cbn; lia.
Qed.

Lemma NilZero_string_of_uint_digits (d : Decimal.uint) :
  digits (NilZero.string_of_uint d).
Proof.
  destruct d; try (split; [discriminate | apply string_of_uint_digits]).
  split; [discriminate|]. repeat constructor; unfold is_digit; cbn; lia.
Qed.

Lemma FormatInt_nonneg (i : Z) : (0 <= i)%Z -> digits (FormatInt i).
Proof.
  intros H. unfold FormatInt. destruct i as [|p|p]; [| |lia];
    apply NilZero_string_of_uint_digits.
Qed.

Lemma FormatInt_plain (i : Z) : plain_decimal (FormatInt i).
Proof.
  destruct i as [|p|p].
  - exists "", (FormatInt 0), "". rewrite append_nil_r.
    repeat split; [now left | discriminate | | now left].
    now apply FormatInt_nonneg.
  - exists "", (FormatInt (Zpos p)), "". rewrite append_nil_r.
    repeat split; try (now left); apply FormatInt_nonneg; lia.
  - exists "-", (NilZero.string_of_uint (Pos.to_uint p)), "".
    rewrite append_nil_r. repeat split; try (now left); try (now right);
      apply NilZero_string_of_uint_digits.
Qed.

Lemma zeros_digits (n : nat) : Forall is_digit (list_ascii_of_string (zeros n)).
Proof.
  induction n as [|n IH]; simpl; constructor; [|exact IH].
  unfold is_digit. cbn. lia.
Qed.

Lemma substring_bytes (P : ascii -> Prop) (s : string) :
  Forall P (list_ascii_of_string s) ->
  forall n m, Forall P (list_ascii_of_string (String.substring n m s)).
Proof.
  induction s as [|c s IH]; intros H n m.
  - destruct n, m; simpl; constructor.
  - inversion H; subst. destruct n as [|n].
    + destruct m as [|m]; simpl; [constructor|]. constructor; auto.
    + simpl. auto.
Qed.

Lemma substring_length (s : string) :
  forall n m, n + m <= String.length s -> String.length (String.substring n m s) = m.
Proof.
  induction s as [|c s IH]; intros n m H; simpl in H.
  - assert (n = 0) by lia. assert (m = 0) by lia. now subst.
  - destruct n as [|n].
    + destruct m as [|m]; simpl; [reflexivity|]. f_equal. apply (IH 0 m). lia.
    + simpl. apply IH. lia.
Qed.

Lemma digits_intro (s : string) :
  1 <= String.length s -> Forall is_digit (list_ascii_of_string s) -> digits s.
Proof.
  intros Hl H. split; [|exact H]. intros ->. simpl in Hl. lia.
Qed.

Lemma fixed_layout_digits (d k : Z) :
  (0 <= d)%Z ->
  exists int frac,
    fixed_layout d k = int ++ frac
    /\ digits int
    /\ (frac = EmptyString \/ exists f, frac = "." ++ f /\ digits f).
Proof.
  intros Hd. unfold fixed_layout.
  pose proof (FormatInt_nonneg d Hd) as Hds.
  destruct (0 <=? k)%Z eqn:Ek.
  - exists (FormatInt d ++ zeros (Z.to_nat k)), "". rewrite append_nil_r.
    split; [reflexivity|]. split; [|now left].
    apply digits_append; [exact Hds | apply zeros_digits].
  - apply Z.leb_gt in Ek.
    set (frac := Z.to_nat (- k)).
    set (padded := zeros (S frac - String.length (FormatInt d)) ++ FormatInt d).
    assert (Hfrac : 1 <= frac) by (unfold frac; lia).
    assert (Hbytes : Forall is_digit (list_ascii_of_string padded)).
    { unfold padded. rewrite list_ascii_of_string_append.
      apply Forall_app. split; [apply zeros_digits | apply Hds]. }
    assert (Hlen : S frac <= String.length padded).
    { unfold padded, zeros. rewrite length_append.
      clear. generalize (String.length (FormatInt d)) as l. intros l.
      assert (H : forall n, String.length (repeat_string "0" n) = n).
      { induction n as [|n IH]; simpl; [reflexivity | now rewrite IH]. }
      rewrite H. lia. }
    exists (String.substring 0 (String.length padded - frac) padded),
      ("." ++ String.substring (String.length padded - frac) frac padded).
    split; [reflexivity|]. split.
    + apply digits_intro; [|now apply substring_bytes].
      rewrite substring_length; lia.
    + right. eexists. split; [reflexivity|].
      apply digits_intro; [|now apply substring_bytes].
      rewrite substring_length; lia.
Qed.

Lemma multiple_in_interval_nonneg (lo mid hi den : Z) (incl : bool) (k d : Z) :
  (0 <= mid)%Z -> (0 < den)%Z ->
  multiple_in_interval lo mid hi den incl k = Some d -> (0 <= d)%Z.
Proof.
  intros Hmid Hden. unfold multiple_in_interval.
  set (up_scale := if (0 <=? k)%Z then 1%Z else (10 ^ (- k))%Z).
  set (down_scale := if (0 <=? k)%Z then (10 ^ k)%Z else 1%Z).
  assert (Hup : (0 < up_scale)%Z).
  { unfold up_scale. destruct (0 <=? k)%Z eqn:E; [lia|].
    apply Z.leb_gt in E. apply Z.pow_pos_nonneg; lia. }
  assert (Hdown : (0 < down_scale)%Z).
  { unfold down_scale. destruct (0 <=? k)%Z eqn:E; [|lia].
    apply Z.leb_le in E. apply Z.pow_pos_nonneg; lia. }
  assert (Hdn : (0 <= mid * up_scale / (down_scale * den))%Z).
  { apply Z.div_pos; nia. }
  set (dn := (mid * up_scale / (down_scale * den))%Z) in *.
  destruct (_ && _)%bool; destruct (if incl then _ else _);
    try destruct (_ <? _)%Z; try destruct (_ <? _)%Z; try destruct (Z.even dn);
    intros H; try discriminate; injection H as <-; lia.
Qed.

Lemma shortest_from_nonneg (lo mid hi den : Z) (incl : bool) (steps : nat) :
  (0 <= mid)%Z -> (0 < den)%Z ->
  forall k, (0 <= fst (shortest_from lo mid hi den incl k steps))%Z.
Proof.
  intros Hmid Hden. induction steps as [|n IH]; intros k; simpl.
  - destruct (multiple_in_interval lo mid hi den incl k) as [d|] eqn:E; simpl; [|lia].
    now apply (multiple_in_interval_nonneg _ _ _ _ _ _ _ Hmid Hden E).
  - destruct (multiple_in_interval lo mid hi den incl k) as [d|] eqn:E; simpl.
    + now apply (multiple_in_interval_nonneg _ _ _ _ _ _ _ Hmid Hden E).
    + apply IH.
Qed.

Lemma interval_positive (m : positive) (e : Z) :
  let '(lo, mid, hi, den) := interval m e in (0 <= mid)%Z /\ (0 < den)%Z.
Proof.
  unfold interval. destruct (0 <=? e - 2)%Z eqn:E.
  - apply Z.leb_le in E. split; [|lia].
    assert (0 < 2 ^ (e - 2))%Z by (apply Z.pow_pos_nonneg; lia). nia.
  - apply Z.leb_gt in E. split; [lia|]. apply Z.pow_pos_nonneg; lia.
Qed.

Lemma FormatFloat_plain (f : Float64.float64) :
  isNaN f = false -> isInf f = false -> plain_decimal (FormatFloat f).
Proof.
  destruct f as [s|s| |s m e]; try discriminate; intros _ _.
  - assert (Hz : digits "0").
    { split; [discriminate|]. constructor; [|constructor].
      unfold is_digit. cbn. lia. }
    destruct s.
    + exists "-", "0", "". split; [reflexivity|]. split; [now right|].
      split; [exact Hz | now left].
    + exists "", "0", "". split; [reflexivity|]. split; [now left|].
      split; [exact Hz | now left].
  - unfold FormatFloat. pose proof (interval_positive m e) as Hi.
    destruct (interval m e) as [[[lo mid] hi] den]. destruct Hi as [Hmid Hden].
    pose proof (shortest_from_nonneg lo mid hi den (Z.even (Z.pos m))
                  (Z.to_nat
                     (Z.of_nat (String.length (FormatInt (hi / den + 1)))
                      - Z.min 0 (e - 2)))
                  Hmid Hden
                  (Z.of_nat (String.length (FormatInt (hi / den + 1))))) as Hd.
    destruct (shortest_from _ _ _ _ _ _ _) as [d k]. simpl in Hd.
    destruct (fixed_layout_digits d k Hd) as (int & frac & -> & Hint & Hfrac).
    exists (if s then "-" else ""), int, frac.
    split; [reflexivity|]. split; [destruct s; auto|]. now split.
Qed.

Lemma formatNumber_plain (f : Float64.float64) :
  isNaN f = false -> isInf f = false -> plain_decimal (formatNumber f).
Proof.
  intros Hn Hi. unfold formatNumber. destruct (Float64.eqb _ _).
  - apply FormatInt_plain.
  - now apply FormatFloat_plain.
Qed.

Lemma plain_decimal_numeric (s : string) : plain_decimal s -> isNumericLike s = true.
Proof.
  intros (sign & int & frac & -> & Hs & Hi & Hf).
  apply isNumericLike_spec. left. exists sign, int, frac, "".
  rewrite append_nil_r. split; [reflexivity|]. split; [exact Hs|].
  split; [exact Hi|]. split; [exact Hf | now left].
Qed.

Lemma plain_decimal_bytes (c : ascii) (s : string) :
  plain_decimal s -> has_byte c s -> is_digit c \/ c = "-"%char \/ c = "."%char.
Proof.
  intros (sign & int & frac & -> & Hs & [_ Hi] & Hf) H.
  rewrite !has_byte_append in H. rewrite Forall_forall in Hi.
  destruct H as [H|[H|H]].
  - destruct Hs as [-> | ->]; [destruct H|]. destruct H as [<-|[]]. auto.
  - left. now apply Hi.
  - destruct Hf as [-> | (f & -> & _ & Hf)]; [destruct H|].
    rewrite Forall_forall in Hf. destruct H as [<-|H]; [auto|]. left. now apply Hf.
Qed.

Lemma plain_decimal_one_line (s : string) : plain_decimal s -> one_line s.
Proof.
  intros Hp. unfold one_line. repeat split; intros H;
    apply (plain_decimal_bytes _ _ Hp) in H as [H|[H|H]];
    try discriminate; unfold is_digit in H; cbn in H; lia.
Qed.

(** X17. A number that is neither NaN nor infinite, as every number
    [normalizeValue] lets through, is written as a plain decimal: an
    optional [-], digits, and optionally a point and digits, never an
    exponent.  It therefore reads as a number, stays on one line, and
    is never the text of a string, since a string that looks like a
    number is quoted. *)
Theorem X17_numbers_are_plain_decimals (f : Float64.float64) :
  isNaN f = false -> isInf f = false ->
  plain_decimal (formatNumber f)
  /\ isNumericLike (formatNumber f) = true
  /\ one_line (formatNumber f)
  /\ forall s d, encodePrimitive (VNumber f) d <> encodePrimitive (VString s) d.
Proof.
  intros Hn Hi. pose proof (formatNumber_plain f Hn Hi) as Hp.
  pose proof (plain_decimal_numeric _ Hp) as Hnum.
  split; [exact Hp|]. split; [exact Hnum|]. split.
  - now apply plain_decimal_one_line.
  - intros s d H. cbn [encodePrimitive] in H.
    destruct (encodeStringLiteral_not_literal s d) as (_ & _ & _ & Hs).
    rewrite <- H in Hs. congruence.
Qed.

Lemma X17_numbers_are_plain_decimals_witness :
  plain_decimal (formatNumber (Float64.of_ratio (-5) 1000))
  /\ isNumericLike (formatNumber (Float64.of_ratio (-5) 1000)) = true
  /\ one_line (formatNumber (Float64.of_ratio (-5) 1000))
  /\ forall s d,
       encodePrimitive (VNumber (Float64.of_ratio (-5) 1000)) d
       <> encodePrimitive (VString s) d.
Proof.
  apply (X17_numbers_are_plain_decimals (Float64.of_ratio (-5) 1000));
    vm_compute; reflexivity.
Defined.

(** ** The list of items *)

Lemma emits_nested_item (indent : string) (depth : nat) (opts : EncodeOptions)
  (item : value) :
  emits indent (at_depth indent depth)
    (fun w =>
       match item with
       | VObject _ => encodeListItem item w (depth + 1) opts
       | _ => w
       end).
Proof.
  destruct item as [| | | | |obj]; try apply emits_id.
  apply (emits_shallower _ depth (depth + 1)); [lia|].
  apply (emits_object_as_list_item indent obj (depth + 1) opts).
Qed.

Lemma emits_item (indent : string) (depth : nat) (opts : EncodeOptions)
  (item : value) :
  emits indent (at_depth indent depth) (fun w => encodeItem depth opts w item).
Proof.
  apply (emits_ext _ _
           (fun w =>
              match item with
              | VArray arr =>
                  if isArrayOfPrimitives arr
                  then Push w (depth + 1)
                         (ListItemPrefix
                            ++ formatInlineArray arr (Delimiter opts) ""
                                 (LengthMarker opts))
                  else w
              | VObject _ => encodeListItem item w (depth + 1) opts
              | _ => Push w (depth + 1)
                       (ListItemPrefix ++ encodePrimitive item (Delimiter opts))
              end)).
  - intros w. now rewrite encodeItem_eq.
  - apply (emits_list_item _ (emits_below_all (S (value_size item)))). lia.
Qed.

(** The first line [encodeObjectAsListItem] writes for the first
    key. *)
Lemma encodeFirstField_first_line (indent firstKey : string) (firstValue : value)
  (depth : nat) (opts : EncodeOptions) :
  exists rest more,
    forall w, indentationString w = indent ->
      encodeFirstField encodeKeyValuePair encodeListItem
        firstKey firstValue w depth opts
      = mkLineWriter
          (List.app (lines w)
             ((repeat_string indent depth ++ ListItemPrefix ++ rest) :: more))
          indent.
Proof.
  unfold encodeFirstField.
  destruct firstValue as [|b|f|s|arr|nested].
  1-4: eexists _, []; intros w Hw; unfold Push; rewrite Hw; reflexivity.
  - destruct (isArrayOfPrimitives arr).
    { eexists _, []. intros w Hw. unfold Push. rewrite Hw. reflexivity. }
    destruct (isArrayOfObjects arr).
    + destruct (detectTabularHeader (as_objects arr)) as [header|].
      * destruct (emits_after_Push indent _ _
                    (emits_writeTabularRows indent (as_objects arr) header
                       (depth + 1) opts)) as (new & _ & E).
        eexists _, new. intros w Hw. now apply E.
      * destruct (fold_items_after_Push indent (at_depth indent depth)
                    (fun writer item =>
                       match item with
                       | VObject _ => encodeListItem item writer (depth + 1) opts
                       | _ => writer
                       end) arr) as (new & E).
        { intros item _. apply emits_nested_item. }
        eexists _, new. intros w Hw. now apply E.
    + destruct (fold_items_after_Push indent (at_depth indent depth)
                  (fun writer item =>
                     match item with
                     | VArray itemArr =>
                         if isArrayOfPrimitives itemArr
                         then Push writer (depth + 1)
                                (ListItemPrefix
                                   ++ formatInlineArray itemArr (Delimiter opts) ""
                                        (LengthMarker opts))
                         else writer
                     | VObject _ => encodeListItem item writer (depth + 1) opts
                     | _ => Push writer (depth + 1)
                              (ListItemPrefix
                                 ++ encodePrimitive item (Delimiter opts))
                     end) arr) as (new & E).
      { intros item _.
        apply (emits_list_item _ (emits_below_all (S (value_size item)))). lia. }
      eexists _, new. intros w Hw. now apply E.
  - destruct (List.length (range_keys nested) =? 0)%nat.
    { eexists _, []. intros w Hw. unfold Push. rewrite Hw. reflexivity. }
    destruct (emits_after_Push indent _ _
                (emits_object indent nested (depth + 2) opts)) as (new & _ & E).
    eexists _, new. intros w Hw. now apply E.
Qed.

(** The first line [encodeObjectAsListItem] writes. *)
Lemma encodeObjectAsListItem_first_line (indent : string) (obj : object)
  (depth : nat) (opts : EncodeOptions) :
  exists rest more,
    forall w, indentationString w = indent ->
      encodeObjectAsListItem obj w depth opts
      = mkLineWriter
          (List.app (lines w)
             ((repeat_string indent depth ++ ListItemMarker ++ rest) :: more))
          indent.
Proof.
  destruct (GoSort.Strings (range_keys obj)) as [|firstKey remaining] eqn:Ek.
  - exists "", []. intros w Hw. rewrite encodeObjectAsListItem_eq, Ek.
    unfold Push. now rewrite Hw.
  - destruct (encodeFirstField_first_line indent firstKey (index obj firstKey)
                depth opts) as (rest & more & E).
    destruct (emits_fold indent (at_depth indent depth)
                (fun writer key =>
                   encodeKeyValuePair key (index obj key) writer (depth + 1) opts)
                remaining) as (new & _ & En).
    { intros key _. apply (emits_shallower _ depth (depth + 1)); [lia|].
      apply emits_pair. }
    exists (" " ++ rest), (List.app more new). intros w Hw.
    rewrite encodeObjectAsListItem_eq, Ek, (E w Hw), En by reflexivity.
    simpl. now rewrite <- app_assoc.
Qed.

Lemma fold_items_lines (indent : string) (depth : nat) (opts : EncodeOptions)
  (items : list value) :
  forall w, indentationString w = indent ->
    fold_left (encodeItem depth opts) items w
    = mkLineWriter
        (List.app (lines w)
           (flat_map
              (fun item => lines (encodeItem depth opts (mkLineWriter [] indent) item))
              items))
        indent.
Proof.
  induction items as [|x items IH]; intros w Hw; simpl.
  - rewrite app_nil_r. destruct w; simpl in *. now subst.
  - destruct (emits_fresh _ _ _ (emits_item indent depth opts x)) as [_ E].
    rewrite (E w Hw), IH by reflexivity. simpl. now rewrite app_assoc.
Qed.

(** X18. The list of items, element by element: what
    [encodeMixedArrayAsListItems] adds is its header line followed, for
    each element in order, by what is written for that element on its
    own.  An element gives no line at all exactly when it is an array
    that holds something else than scalars; every other element gives a
    block whose first line is a list marker one level deeper than the
    header. *)
Theorem X18_list_of_items_element_by_element (prefix : string) (items : list value)
  (w : LineWriter) (depth : nat) (opts : EncodeOptions) :
  let indent := indentationString w in
  let block item := lines (encodeItem depth opts (mkLineWriter [] indent) item) in
  lines (encodeMixedArrayAsListItems prefix items w depth opts)
  = List.app (lines w)
      ((repeat_string indent depth
          ++ formatHeader (List.length items)
               (mkHeaderOptions prefix [] (Delimiter opts) (LengthMarker opts)))
       :: flat_map block items)
  /\ (forall item,
         block item = []
         <-> exists arr, item = VArray arr /\ isArrayOfPrimitives arr = false)
  /\ (forall item line more,
         block item = line :: more ->
         exists rest,
           line = repeat_string indent (depth + 1) ++ ListItemMarker ++ rest).
Proof.
  cbv zeta. split; [|split].
  - rewrite encodeMixedArrayAsListItems_eq.
    change (fold_left _ items ?a) with (fold_left (encodeItem depth opts) items a).
    rewrite (fold_items_lines (indentationString w))
      by apply Push_indentation.
    simpl. now rewrite <- app_assoc.
  - intros item. split.
    + intros H. destruct item as [| | | |arr|obj]; try discriminate.
      * exists arr. split; [reflexivity|]. simpl in H.
        destruct (isArrayOfPrimitives arr); [discriminate | reflexivity].
      * exfalso. simpl in H.
        destruct (encodeObjectAsListItem_first_line (indentationString w) obj
                    (depth + 1) opts) as (rest & more & E).
        rewrite E in H by reflexivity. discriminate.
    + intros (arr & -> & Hp). simpl. now rewrite Hp.
  - intros item line more H. destruct item as [| | | |arr|obj].
    1-4: simpl in H; injection H as <- _; eexists; reflexivity.
    + simpl in H. destruct (isArrayOfPrimitives arr); [|discriminate].
      simpl in H. injection H as <- _. eexists; reflexivity.
    + simpl in H.
      destruct (encodeObjectAsListItem_first_line (indentationString w) obj
                  (depth + 1) opts) as (rest & more' & E).
      rewrite E in H by reflexivity. simpl in H. injection H as <- _.
      now exists rest.
Qed.

(** ** No line of the output is broken *)

Lemma one_line_empty : one_line "".
Proof. unfold one_line, has_byte. simpl. tauto. Qed.

Lemma one_line_repeat (s : string) (n : nat) :
  one_line s -> one_line (repeat_string s n).
Proof.
  intros H. induction n as [|n IH]; simpl; [apply one_line_empty|].
  now apply one_line_append.
Qed.

Lemma one_line_Join (elems : list string) (sep : string) :
  Forall one_line elems -> one_line sep -> one_line (Join elems sep).
Proof.
  intros H Hsep. unfold Join. induction H as [|x l Hx Hl IH]; simpl.
  - apply one_line_empty.
  - destruct l as [|y l]; [exact Hx|].
    apply one_line_append; [exact Hx|]. now apply one_line_append.
Qed.

Lemma digits_one_line (s : string) :
  Forall is_digit (list_ascii_of_string s) -> one_line s.
Proof.
  intros H. rewrite Forall_forall in H.
  unfold one_line, has_byte. repeat split; intros Hin; apply H in Hin;
    unfold is_digit in Hin; cbn in Hin; lia.
Qed.

Lemma Itoa_one_line (n : nat) : one_line (Itoa n).
Proof. apply digits_one_line, FormatInt_nonneg. lia. Qed.

Lemma encodePrimitive_one_line (v : value) (d : string) :
  finite_value v -> one_line (encodePrimitive v d).
Proof.
  intros H. destruct H as [|b|f Hn Hi|s|arr _|obj _]; simpl.
  - apply literal_one_line. now left.
  - destruct b; apply literal_one_line; [now right; left | now right; right].
  - now apply plain_decimal_one_line, formatNumber_plain.
  - apply encodeStringLiteral_one_line.
  - apply literal_one_line. now left.
  - apply literal_one_line. now left.
Qed.

Lemma joinEncodedValues_one_line (values : list value) (d : string) :
  Forall finite_value values -> one_line d -> one_line (joinEncodedValues values d).
Proof.
  intros H Hd. unfold joinEncodedValues. apply one_line_Join; [|exact Hd].
  apply Forall_map. eapply Forall_impl; [|exact H].
  intros v Hv. now apply encodePrimitive_one_line.
Qed.

Lemma one_line_checked (s : string) : one_lineb s = true -> one_line s.
Proof.
  unfold one_lineb, one_line. rewrite !andb_true_iff, !negb_true_iff.
  intros [[H1 H2] H3]. repeat split; intros H; apply mem_byte_spec in H; congruence.
Qed.

Lemma formatHeader_one_line (n : nat) (k : string) (fs : list string) (d : string)
  (m : bool) :
  one_line d -> one_line (formatHeader n (mkHeaderOptions k fs d m)).
Proof.
  intros Hd. unfold formatHeader. cbn [key fields delimiter lengthMarker].
  assert (Hfields : one_line (Join (map encodeKey fs) d)).
  { apply one_line_Join; [|exact Hd]. apply Forall_map, Forall_forall.
    intros x _. apply encodeKey_one_line. }
  destruct (negb (String.eqb k "")), m, (negb (String.eqb d DefaultDelimiter)),
    (0 <? List.length fs)%nat;
    repeat match goal with
           | |- one_line (_ ++ _) => apply one_line_append
           end;
    first [ exact Hd | exact Hfields | apply encodeKey_one_line
          | apply Itoa_one_line | apply one_line_checked; reflexivity ].
Qed.

Lemma formatInlineArray_one_line (values : list value) (d prefix : string) (m : bool) :
  Forall finite_value values -> one_line d ->
  one_line (formatInlineArray values d prefix m).
Proof.
  intros H Hd. unfold formatInlineArray.
  destruct (List.length values =? 0)%nat; [now apply formatHeader_one_line|].
  apply one_line_append; [now apply formatHeader_one_line|].
  apply one_line_append; [apply one_line_checked; reflexivity|].
  now apply joinEncodedValues_one_line.
Qed.

Lemma key_scalar_one_line (k : string) (v : value) (d : string) :
  finite_value v -> one_line (encodeKey k ++ ": " ++ encodePrimitive v d).
Proof.
  intros H. apply one_line_append; [apply encodeKey_one_line|].
  apply one_line_append; [apply one_line_checked; reflexivity|].
  now apply encodePrimitive_one_line.
Qed.

Lemma key_colon_one_line (k : string) : one_line (encodeKey k ++ Colon).
Proof.
  apply one_line_append; [apply encodeKey_one_line|].
  apply one_line_checked. reflexivity.
Qed.

Lemma bullet_one_line (content : string) :
  one_line content -> one_line (ListItemPrefix ++ content).
Proof.
  intros H. apply one_line_append; [|exact H]. apply one_line_checked. reflexivity.
Qed.

Lemma sprintf_header_one_line (firstKey : string) (count : nat) :
  one_line (ListItemPrefix ++ encodeKey firstKey ++ "[" ++ Itoa count ++ "]:").
Proof.
  apply bullet_one_line.
  apply one_line_append; [apply encodeKey_one_line|].
  apply one_line_append; [apply one_line_checked; reflexivity|].
  apply one_line_append; [apply Itoa_one_line|].
  apply one_line_checked. reflexivity.
Qed.

Lemma spaces_one_line (n : nat) : one_line (repeat_string " " n).
Proof. apply one_line_repeat. apply one_line_checked. reflexivity. Qed.

Lemma finite_array_inv (arr : list value) :
  finite_value (VArray arr) -> Forall finite_value arr.
Proof. intros H. now inversion H. Qed.

Lemma finite_object_inv (obj : object) :
  finite_value (VObject obj) -> Forall (fun e => finite_value (snd e)) obj.
Proof. intros H. now inversion H. Qed.

Lemma finite_index (obj : object) (k : string) :
  Forall (fun e => finite_value (snd e)) obj -> finite_value (index obj k).
Proof.
  intros H. unfold index. destruct (lookup obj k) as [v|] eqn:E; [|constructor].
  apply lookup_In in E. rewrite Forall_forall in H. apply (H (k, v) E).
Qed.

Lemma finite_as_object (item : value) :
  finite_value item -> Forall (fun e => finite_value (snd e)) (as_object item).
Proof.
  intros H. destruct item; simpl; try constructor. now apply finite_object_inv.
Qed.

Section Unbroken.

Variable indent : string.
Variable opts : EncodeOptions.
Hypothesis Hindent : one_line indent.
Hypothesis Hdelimiter : one_line (Delimiter opts).

Lemma emits_Push_one (depth : nat) (content : string) :
  one_line content -> emits indent one_line (fun w => Push w depth content).
Proof.
  intros H. apply emits_Push. apply one_line_append; [|exact H].
  now apply one_line_repeat.
Qed.

Lemma unbroken_writeTabularRows (objects : list object) (header : list string)
  (depth : nat) :
  Forall (fun obj => Forall (fun e => finite_value (snd e)) obj) objects ->
  emits indent one_line (fun w => writeTabularRows objects header w depth opts).
Proof.
  intros H. unfold writeTabularRows. apply emits_fold. intros obj Hin.
  apply emits_Push_one, joinEncodedValues_one_line; [|exact Hdelimiter].
  apply Forall_map, Forall_forall. intros k _. apply finite_index.
  rewrite Forall_forall in H. now apply H.
Qed.

Lemma finite_as_objects (arr : list value) :
  Forall finite_value arr ->
  Forall (fun obj => Forall (fun e => finite_value (snd e)) obj) (as_objects arr).
Proof.
  intros H. unfold as_objects. apply Forall_map.
  eapply Forall_impl; [|exact H]. intros x. apply finite_as_object.
Qed.

Lemma unbroken_inline_item (depth : nat) (item : value) :
  finite_value item ->
  emits indent one_line
    (fun w =>
       match item with
       | VArray arr =>
           if isArrayOfPrimitives arr
           then Push w (depth + 1)
                  (ListItemPrefix
                     ++ formatInlineArray arr (Delimiter opts) "" (LengthMarker opts))
           else w
       | _ => w
       end).
Proof.
  intros H. destruct item as [| | | |arr|]; try apply emits_id.
  destruct (isArrayOfPrimitives arr); [|apply emits_id].
  apply emits_Push_one, bullet_one_line, formatInlineArray_one_line;
    [now apply finite_array_inv | exact Hdelimiter].
Qed.

Variable n : nat.
Hypothesis Hbelow : one_line_below indent opts n.

Lemma unbroken_pair_index (obj : object) (key : string) (depth : nat) :
  (forall k v, In (k, v) obj -> value_size v < n) ->
  Forall (fun e => finite_value (snd e)) obj ->
  emits indent one_line
    (fun w => encodeKeyValuePair key (index obj key) w depth opts).
Proof.
  intros Hsize Hfin. unfold index. destruct (lookup obj key) as [v|] eqn:E.
  - apply lookup_In in E. apply Hbelow; [now apply (Hsize key)|].
    rewrite Forall_forall in Hfin. apply (Hfin (key, v) E).
  - apply (emits_ext _ _
             (fun w => Push w depth
                         (encodeKey key ++ ": " ++ encodePrimitive VNil (Delimiter opts)))).
    + intros w. now rewrite encodeKeyValuePair_eq.
    + apply emits_Push_one, key_scalar_one_line. constructor.
Qed.

Lemma unbroken_encodeObject (obj : object) (depth : nat) :
  (forall k v, In (k, v) obj -> value_size v < n) ->
  Forall (fun e => finite_value (snd e)) obj ->
  emits indent one_line (fun w => encodeObject obj w depth opts).
Proof.
  intros Hsize Hfin.
  apply (emits_ext _ _
           (fun w => fold_left
                       (fun writer key =>
                          encodeKeyValuePair key (index obj key) writer depth opts)
                       (GoSort.Strings (range_keys obj)) w)).
  - intros w. now rewrite encodeObject_eq.
  - apply emits_fold. intros key _. now apply unbroken_pair_index.
Qed.

Lemma unbroken_list_item (depth : nat) (item : value) :
  value_size item < n -> finite_value item ->
  emits indent one_line
    (fun w =>
       match item with
       | VArray arr =>
           if isArrayOfPrimitives arr
           then Push w (depth + 1)
                  (ListItemPrefix
                     ++ formatInlineArray arr (Delimiter opts) "" (LengthMarker opts))
           else w
       | VObject _ => encodeListItem item w (depth + 1) opts
       | _ => Push w (depth + 1)
                (ListItemPrefix ++ encodePrimitive item (Delimiter opts))
       end).
Proof.
  intros Hsize Hfin.
  destruct item as [| | | |arr|obj];
    try (apply emits_Push_one, bullet_one_line; now apply encodePrimitive_one_line).
  - now apply (unbroken_inline_item depth (VArray arr)).
  - now apply Hbelow.
Qed.

Lemma unbroken_items (depth : nat) (items : list value) :
  (forall x, In x items -> value_size x < n) ->
  Forall finite_value items ->
  emits indent one_line
    (fun w =>
       fold_left
         (fun writer item =>
            match item with
            | VArray arr =>
                if isArrayOfPrimitives arr
                then Push writer (depth + 1)
                       (ListItemPrefix
                          ++ formatInlineArray arr (Delimiter opts) ""
                               (LengthMarker opts))
                else writer
            | VObject _ => encodeListItem item writer (depth + 1) opts
            | _ => Push writer (depth + 1)
                     (ListItemPrefix ++ encodePrimitive item (Delimiter opts))
            end)
         items w).
Proof.
  intros Hsize Hfin. apply emits_fold. intros item Hin.
  apply unbroken_list_item; [now apply Hsize|].
  rewrite Forall_forall in Hfin. now apply Hfin.
Qed.

Lemma unbroken_encodeMixedArrayAsListItems (prefix : string) (items : list value)
  (depth : nat) :
  (forall x, In x items -> value_size x < n) ->
  Forall finite_value items ->
  emits indent one_line
    (fun w => encodeMixedArrayAsListItems prefix items w depth opts).
Proof.
  intros Hsize Hfin.
  unfold encodeMixedArrayAsListItems, encodeMixedArrayAsListItems_body.
  apply (emits_comp indent _ (fun w => Push w depth _)
           (fun w => fold_left _ items w)).
  - now apply emits_Push_one, formatHeader_one_line.
  - now apply unbroken_items.
Qed.

Lemma unbroken_encodeArray (key : string) (arr : list value) (depth : nat) :
  (forall x, In x arr -> value_size x < n) ->
  Forall finite_value arr ->
  emits indent one_line (fun w => encodeArray key arr w depth opts).
Proof.
  intros Hsize Hfin. unfold encodeArray, encodeArray_body.
  destruct (List.length arr =? 0)%nat.
  { now apply emits_Push_one, formatHeader_one_line. }
  destruct (isArrayOfPrimitives arr).
  { unfold encodeInlinePrimitiveArray.
    now apply emits_Push_one, formatInlineArray_one_line. }
  destruct (isArrayOfArrays arr && _).
  { unfold encodeArrayOfArraysAsListItems.
    apply (emits_comp indent _ (fun w => Push w depth _)
             (fun w => fold_left _ arr w)).
    - now apply emits_Push_one, formatHeader_one_line.
    - apply emits_fold. intros item Hin. apply unbroken_inline_item.
      rewrite Forall_forall in Hfin. now apply Hfin. }
  destruct (isArrayOfObjects arr).
  - destruct (detectTabularHeader (as_objects arr)) as [header|].
    + unfold encodeArrayOfObjectsAsTabular.
      apply (emits_comp indent _ (fun w => Push w depth _)
               (fun w => writeTabularRows (as_objects arr) header w (depth + 1) opts)).
      * now apply emits_Push_one, formatHeader_one_line.
      * now apply unbroken_writeTabularRows, finite_as_objects.
    + now apply unbroken_encodeMixedArrayAsListItems.
  - now apply unbroken_encodeMixedArrayAsListItems.
Qed.

Lemma unbroken_encodeFirstField (firstKey : string) (firstValue : value)
  (depth : nat) :
  value_size firstValue <= n -> finite_value firstValue ->
  emits indent one_line
    (fun w =>
       encodeFirstField encodeKeyValuePair encodeListItem
         firstKey firstValue w depth opts).
Proof.
  intros Hsize Hfin. unfold encodeFirstField.
  assert (Hscalar : one_line (ListItemPrefix ++ encodeKey firstKey ++ ": "
                                ++ encodePrimitive firstValue (Delimiter opts))).
  { now apply bullet_one_line, key_scalar_one_line. }
  assert (Hcolon : one_line (ListItemPrefix ++ encodeKey firstKey ++ Colon)).
  { apply bullet_one_line, key_colon_one_line. }
  destruct firstValue as [| | | |arr|nested]; try (now apply emits_Push_one).
  - assert (Hel : forall x, In x arr -> value_size x < n).
    { intros x Hx. apply value_size_element in Hx. lia. }
    apply finite_array_inv in Hfin.
    destruct (isArrayOfPrimitives arr).
    { now apply emits_Push_one, bullet_one_line, formatInlineArray_one_line. }
    destruct (isArrayOfObjects arr).
    + destruct (detectTabularHeader (as_objects arr)) as [header|].
      * apply (emits_comp indent _ (fun w => Push w depth _)
                 (fun w => writeTabularRows (as_objects arr) header w (depth + 1) opts)).
        -- now apply emits_Push_one, bullet_one_line, formatHeader_one_line.
        -- now apply unbroken_writeTabularRows, finite_as_objects.
      * apply (emits_comp indent _ (fun w => Push w depth _)
                 (fun w => fold_left _ arr w)).
        -- apply emits_Push_one, sprintf_header_one_line.
        -- apply emits_fold. intros item Hin.
           destruct item as [| | | | |obj]; try apply emits_id.
           apply Hbelow; [now apply Hel|].
           rewrite Forall_forall in Hfin. now apply Hfin.
    + apply (emits_comp indent _ (fun w => Push w depth _)
               (fun w => fold_left _ arr w)).
      * apply emits_Push_one, sprintf_header_one_line.
      * now apply unbroken_items.
  - assert (Hf : forall k v, In (k, v) nested -> value_size v < n).
    { intros k v Hin. apply value_size_field in Hin. lia. }
    apply finite_object_inv in Hfin.
    destruct (List.length (range_keys nested) =? 0)%nat; [now apply emits_Push_one|].
    apply (emits_comp indent _ (fun w => Push w depth _)
             (fun w => encodeObject nested w (depth + 2) opts)).
    + now apply emits_Push_one.
    + now apply unbroken_encodeObject.
Qed.

Lemma unbroken_encodeObjectAsListItem (obj : object) (depth : nat) :
  (forall k v, In (k, v) obj -> value_size v < n) ->
  Forall (fun e => finite_value (snd e)) obj ->
  emits indent one_line (fun w => encodeObjectAsListItem obj w depth opts).
Proof.
  intros Hsize Hfin.
  destruct (GoSort.Strings (range_keys obj)) as [|firstKey remaining] eqn:Ek.
  - apply (emits_ext _ _ (fun w => Push w depth ListItemMarker)).
    + intros w. now rewrite encodeObjectAsListItem_eq, Ek.
    + apply emits_Push_one, one_line_checked. reflexivity.
  - apply (emits_ext _ _
             (fun w =>
                fold_left
                  (fun writer key =>
                     encodeKeyValuePair key (index obj key) writer (depth + 1) opts)
                  remaining
                  (encodeFirstField encodeKeyValuePair encodeListItem
                     firstKey (index obj firstKey) w depth opts))).
    + intros w. now rewrite encodeObjectAsListItem_eq, Ek.
    + apply (emits_comp indent _
               (fun w => encodeFirstField encodeKeyValuePair encodeListItem
                           firstKey (index obj firstKey) w depth opts)
               (fun w => fold_left _ remaining w)).
      * apply unbroken_encodeFirstField; [|now apply finite_index].
        unfold index. destruct (lookup obj firstKey) as [v|] eqn:E.
        -- apply lookup_In, Hsize in E. lia.
        -- simpl. destruct n; [|lia].
           destruct obj as [|[k v] rest]; [discriminate|].
           specialize (Hsize k v (or_introl eq_refl)). lia.
      * apply emits_fold. intros key _. now apply unbroken_pair_index.
Qed.

End Unbroken.

Lemma one_line_below_all (indent : string) (opts : EncodeOptions) (n : nat) :
  one_line indent -> one_line (Delimiter opts) -> one_line_below indent opts n.
Proof.
  intros Hindent Hdelimiter.
  induction n as [|n IH]; intros v Hs Hfin; [lia|].
  assert (Hle : value_size v <= n) by lia.
  split.
  - intros key depth.
    apply (emits_ext _ _
             (fun w =>
                match v with
                | VArray arr => encodeArray key arr w depth opts
                | VObject obj =>
                    encodeObject obj (Push w depth (encodeKey key ++ Colon))
                      (depth + 1) opts
                | _ => Push w depth
                         (encodeKey key ++ ": " ++ encodePrimitive v (Delimiter opts))
                end)).
    { intros w. now rewrite encodeKeyValuePair_eq. }
    assert (Hscalar : one_line (encodeKey key ++ ": "
                                  ++ encodePrimitive v (Delimiter opts))).
    { now apply key_scalar_one_line. }
    destruct v as [| | | |arr|obj];
      try (now apply (emits_Push_one indent Hindent)).
    + apply unbroken_encodeArray with (n := n); try assumption.
      * intros x Hx. apply value_size_element in Hx. lia.
      * now apply finite_array_inv.
    + apply (emits_comp indent _ (fun w => Push w depth _)
               (fun w => encodeObject obj w (depth + 1) opts)).
      * apply (emits_Push_one indent Hindent), key_colon_one_line.
      * apply unbroken_encodeObject with (n := n); try assumption.
        -- intros k x Hx. apply value_size_field in Hx. lia.
        -- now apply finite_object_inv.
  - intros depth. destruct v as [| | | | |obj]; try apply emits_id.
    apply unbroken_encodeObjectAsListItem with (n := n); try assumption.
    + intros k x Hx. apply value_size_field in Hx. lia.
    + now apply finite_object_inv.
Qed.

Lemma unbroken_top (indent : string) (opts : EncodeOptions) (v : value) :
  one_line indent -> one_line (Delimiter opts) -> finite_value v ->
  emits indent one_line
    (fun w =>
       match v with
       | VArray arr => encodeArray "" arr w 0 opts
       | VObject obj => encodeObject obj w 0 opts
       | _ => w
       end).
Proof.
  intros Hi Hd Hfin.
  pose proof (one_line_below_all indent opts (value_size v) Hi Hd) as Hb.
  destruct v as [| | | |arr|obj]; try apply emits_id.
  - apply unbroken_encodeArray with (n := value_size (VArray arr));
      try assumption.
    + intros x. apply value_size_element.
    + now apply finite_array_inv.
  - apply unbroken_encodeObject with (n := value_size (VObject obj));
      try assumption.
    + intros k x. apply value_size_field.
    + now apply finite_object_inv.
Qed.



(** ** The numbers [normalizeValue] makes

    [float64(i)] of a 64-bit integer is a finite float: the rounding
    of the standard library's [binary_normalize] shifts the integer to
    53 bits and never reaches the largest exponent. *)

Section Rounding.

Local Open Scope Z_scope.

Lemma digits2_pos_size (p : positive) : digits2_pos p = Pos.size p.
Proof. induction p; simpl; now rewrite ?IHp. Qed.

Lemma Zdigits2_log2 (p : positive) : Zdigits2 (Zpos p) = Z.log2 (Zpos p) + 1.
Proof.
  simpl. rewrite digits2_pos_size. destruct p; simpl; lia.
Qed.

Lemma Zdigits2_mono (a b : Z) : 0 < a -> a <= b -> Zdigits2 a <= Zdigits2 b.
Proof.
  intros Ha Hab. destruct a as [|a|a]; try lia. destruct b as [|b|b]; try lia.
  rewrite !Zdigits2_log2. pose proof (Z.log2_le_mono (Zpos a) (Zpos b) Hab). lia.
Qed.

Lemma Zdigits2_succ (a : Z) : 0 < a -> Zdigits2 (a + 1) <= Zdigits2 a + 1.
Proof.
  intros Ha. assert (H : Zdigits2 (a + 1) <= Zdigits2 (2 * a)).
  { apply Zdigits2_mono; lia. }
  destruct a as [|a|a]; try lia.
  change (2 * Zpos a) with (Zpos a~0) in H. rewrite Zdigits2_log2 in H.
  rewrite (Zdigits2_log2 a).
  change (Zpos a~0) with (2 * Zpos a) in H. rewrite Z.log2_double in H; lia.
Qed.

Lemma pow2_le_digits (p : positive) (n : Z) :
  0 <= n -> n < Zdigits2 (Zpos p) -> 2 ^ n <= Zpos p.
Proof.
  intros Hn H. rewrite Zdigits2_log2 in H.
  pose proof (Z.log2_spec (Zpos p) ltac:(lia)) as [Hl _].
  apply Z.le_trans with (2 ^ Z.log2 (Zpos p)); [|exact Hl].
  apply Z.pow_le_mono_r; lia.
Qed.

Lemma shr_1_m (r : shr_record) : 0 <= shr_m r -> shr_m (shr_1 r) = shr_m r / 2.
Proof.
  destruct r as [m b s]. simpl. intros H. rewrite <- Z.div2_div.
  destruct m as [|[p|p|]|p]; try reflexivity; lia.
Qed.

Lemma iter_shr_1_m (p : positive) :
  forall r, 0 <= shr_m r ->
    shr_m (iter_pos shr_1 p r) = shr_m r / 2 ^ Zpos p.
Proof.
  induction p as [p IH|p IH|]; intros r Hr; simpl iter_pos.
  - assert (Hp : 0 < 2 ^ Zpos p) by (apply Z.pow_pos_nonneg; lia).
    assert (H1 : 0 <= shr_m (shr_1 r)).
    { rewrite shr_1_m by exact Hr. apply Z.div_pos; lia. }
    assert (H2 : 0 <= shr_m (iter_pos shr_1 p (shr_1 r))).
    { rewrite IH by exact H1. now apply Z.div_pos. }
    rewrite IH, IH, shr_1_m by assumption.
    rewrite !Z.div_div by lia. f_equal.
    replace (Zpos p~1) with (1 + Zpos p + Zpos p) by lia.
    rewrite !Z.pow_add_r by lia. change (2 ^ 1) with 2. lia.
  - assert (Hp : 0 < 2 ^ Zpos p) by (apply Z.pow_pos_nonneg; lia).
    assert (H2 : 0 <= shr_m (iter_pos shr_1 p r)).
    { rewrite IH by exact Hr. now apply Z.div_pos. }
    rewrite IH, IH by assumption.
    rewrite !Z.div_div by lia. f_equal.
    replace (Zpos p~0) with (Zpos p + Zpos p) by lia.
    rewrite !Z.pow_add_r by lia. reflexivity.
  - rewrite shr_1_m by exact Hr. reflexivity.
Qed.

Lemma round_nearest_even_bounds (m : Z) (l : location) :
  m <= round_nearest_even m l <= m + 1.
Proof.
  unfold round_nearest_even. destruct l as [|[]]; try destruct (Z.even m); lia.
Qed.

Lemma shr_fexp_spec (m : positive) (e : Z) :
  -1074 <= e ->
  0 < shr_m (fst (shr_fexp 53 1024 (Zpos m) e loc_Exact)) <= Zpos m
  /\ e <= snd (shr_fexp 53 1024 (Zpos m) e loc_Exact)
          <= e + Z.max 0 (Zdigits2 (Zpos m) - 53).
Proof.
  intros He. unfold shr_fexp, shr, fexp, emin.
  change (3 - 1024 - 53) with (-1074).
  destruct (Z.max (Zdigits2 (Zpos m) + e - 53) (-1074) - e) as [|p|p] eqn:En;
    cbn [fst snd shr_record_of_loc shr_m]; try lia.
  rewrite iter_shr_1_m by (simpl; lia). cbn [shr_m].
  assert (Hp : Zpos p = Zdigits2 (Zpos m) - 53) by lia.
  assert (Hpow : 2 ^ Zpos p <= Zpos m) by (apply pow2_le_digits; lia).
  assert (H2 : 0 < 2 ^ Zpos p) by (apply Z.pow_pos_nonneg; lia).
  split; [|lia]. split.
  - apply Z.div_str_pos. lia.
  - apply Z.div_le_upper_bound; nia.
Qed.

Lemma binary_round_aux_finite (sx : bool) (mz : positive) (ez : Z) :
  -1074 <= ez <= 0 -> Zdigits2 (Zpos mz) <= 500 ->
  exists m e, binary_round_aux 53 1024 sx (Zpos mz) ez loc_Exact = S754_finite sx m e.
Proof.
  intros Hez Hd. unfold binary_round_aux.
  pose proof (shr_fexp_spec mz ez ltac:(lia)) as (Hm1 & He1).
  destruct (shr_fexp 53 1024 (Zpos mz) ez loc_Exact) as [r1 e1]. cbn [fst snd] in *.
  pose proof (round_nearest_even_bounds (shr_m r1) (loc_of_shr_record r1)) as Hr.
  assert (Hd1 : Zdigits2 (round_nearest_even (shr_m r1) (loc_of_shr_record r1))
                <= Zdigits2 (Zpos mz) + 1).
  { apply Z.le_trans with (Zdigits2 (shr_m r1 + 1)).
    - apply Zdigits2_mono; lia.
    - apply Z.le_trans with (Zdigits2 (shr_m r1) + 1).
      + apply Zdigits2_succ. lia.
      + pose proof (Zdigits2_mono (shr_m r1) (Zpos mz)). lia. }
  destruct (round_nearest_even (shr_m r1) (loc_of_shr_record r1)) as [|q|q];
    try lia.
  pose proof (shr_fexp_spec q e1 ltac:(lia)) as (Hm2 & He2).
  destruct (shr_fexp 53 1024 (Zpos q) e1 loc_Exact) as [r2 e2]. cbn [fst snd] in *.
  destruct (shr_m r2) as [|m|m]; try lia.
  assert (Hle : (e2 <=? 1024 - 53) = true) by (apply Z.leb_le; lia).
  rewrite Hle. now exists m, e2.
Qed.

Lemma digits2_pos_iter_xO (m k : positive) :
  Zpos (digits2_pos (Pos.iter xO m k)) = Zpos (digits2_pos m) + Zpos k.
Proof.
  induction k as [|k IH] using Pos.peano_ind.
  - simpl. lia.
  - rewrite Pos.iter_succ. simpl digits2_pos. lia.
Qed.

Lemma binary_round_finite (sx : bool) (m : positive) :
  Zdigits2 (Zpos m) <= 64 ->
  exists m' e, binary_round 53 1024 sx m 0 = S754_finite sx m' e.
Proof.
  intros Hd. unfold binary_round, shl_align, fexp, emin.
  change (3 - 1024 - 53) with (-1074). simpl Zdigits2 in Hd.
  assert (Hpos : 0 < Zpos (digits2_pos m)) by lia.
  destruct (Z.max (Zpos (digits2_pos m) + 0 - 53) (-1074) - 0) as [|k|k] eqn:Ek.
  - apply binary_round_aux_finite; simpl Zdigits2; lia.
  - apply binary_round_aux_finite; simpl Zdigits2; lia.
  - apply binary_round_aux_finite; [lia|].
    simpl Zdigits2. rewrite digits2_pos_iter_xO. lia.
Qed.

End Rounding.

Lemma of_int64_proper (i : Z) :
  (Z.abs i < 2 ^ 64)%Z -> proper_number (Float64.of_int64 i).
Proof.
  intros Hi. unfold Float64.of_int64, binary_normalize, Float64.prec, Float64.emax.
  destruct i as [|p|p].
  - repeat split. discriminate.
  - destruct (binary_round_finite false p) as (m & e & ->).
    + rewrite Zdigits2_log2.
      assert (Z.log2 (Zpos p) < 64)%Z by (apply Z.log2_lt_pow2; lia). lia.
    + repeat split. discriminate.
  - destruct (binary_round_finite true p) as (m & e & ->).
    + rewrite Zdigits2_log2.
      assert (Z.log2 (Zpos p) < 64)%Z by (apply Z.log2_lt_pow2; lia). lia.
    + repeat split. discriminate.
Qed.

Lemma normalized_float_proper (f : Float64.float64) :
  every_number proper_number (normalizeValue (GoFloat f)).
Proof.
  simpl. destruct (isNaN f || isInf f) eqn:E; [constructor|].
  apply orb_false_iff in E as [En Ei].
  destruct (Float64.eqb f (S754_zero false)) eqn:Ez; constructor.
  - repeat split. discriminate.
  - split; [exact En|]. split; [exact Ei|]. intros ->. discriminate.
Qed.

Lemma map_set_every (Q : value -> Prop) (obj : object) (k : string) (v : value) :
  Forall (fun e => Q (snd e)) obj -> Q v ->
  Forall (fun e => Q (snd e)) (map_set obj k v).
Proof.
  intros H Hv. induction obj as [|[k' v'] rest IH]; simpl.
  - now repeat constructor.
  - inversion H; subst. destruct (String.eqb k' k); constructor; auto.
Qed.

Lemma normalizeValue_numbers :
  forall input : goValue,
    host_ints_fit input -> every_number proper_number (normalizeValue input).
Proof.
  fix normalizeValue_numbers 1. intros input Hfit.
  destruct input as [ |b|i|u|f|s|elems|entries|formatted|fields|target| ].
  - constructor.
  - constructor.
  - simpl. constructor. apply of_int64_proper. inversion Hfit; subst.
    unfold Float64.MinInt64, Float64.MaxInt64 in *. lia.
  - simpl. constructor. apply of_int64_proper. inversion Hfit; subst. lia.
  - apply normalized_float_proper.
  - constructor.
  - simpl. constructor.
    assert (Hel : Forall host_ints_fit elems) by (now inversion Hfit).
    clear Hfit. induction elems as [|x elems IH]; simpl; constructor.
    + apply normalizeValue_numbers. now inversion Hel.
    + apply IH. now inversion Hel.
  - destruct entries as [entries|]; [|constructor].
    assert (Hen : Forall (fun e => host_ints_fit (snd e)) entries)
      by (now inversion Hfit).
    clear Hfit. simpl. constructor.
    assert (H : forall obj : object,
               Forall (fun e => every_number proper_number (snd e)) obj ->
               Forall (fun e => every_number proper_number (snd e))
                 ((fix each (entries : list (string * goValue)) (obj : object)
                     : object :=
                     match entries with
                     | [] => obj
                     | (key, v) :: rest =>
                         each rest (map_set obj key (normalizeValue v))
                     end) entries obj)).
    { induction entries as [|[key v] rest IH]; intros obj Hobj; simpl.
      - exact Hobj.
      - apply IH; [now inversion Hen|].
        apply map_set_every; [exact Hobj|].
        apply normalizeValue_numbers. now inversion Hen. }
    apply H. constructor.
  - constructor.
  - assert (Hfl : Forall (fun field => host_ints_fit (snd field)) fields)
      by (now inversion Hfit).
    clear Hfit. simpl. constructor.
    assert (H : forall obj : object,
               Forall (fun e => every_number proper_number (snd e)) obj ->
               Forall (fun e => every_number proper_number (snd e))
                 ((fix each (fields : list (string * bool * string * goValue))
                     (obj : object) : object :=
                     match fields with
                     | [] => obj
                     | (name, exported, tag, fieldValue) :: rest =>
                         if exported then
                           let name :=
                             if negb (String.eqb tag "") && negb (String.eqb tag "-")
                             then tag else name in
                           each rest (map_set obj name (normalizeValue fieldValue))
                         else each rest obj
                     end) fields obj)).
    { induction fields as [|[[[name exported] tag] v] rest IH]; intros obj Hobj; simpl.
      - exact Hobj.
      - destruct exported.
        + apply IH; [now inversion Hfl|].
          apply map_set_every; [exact Hobj|].
          apply normalizeValue_numbers. now inversion Hfl.
        + apply IH; [now inversion Hfl | exact Hobj]. }
    apply H. constructor.
  - destruct target as [target|]; [|constructor].
    simpl. apply normalizeValue_numbers. now inversion Hfit.
  - constructor.
Qed.

(** X20. What [normalizeValue] hands to the encoder keeps the
    invariants of the value model, for every Go value whose integers
    are 64-bit integers: no number is NaN or infinite, no number is the
    negative zero, at any depth, and the keys of every object are
    distinct. *)
Theorem X20_normalized_values_are_proper (input : goValue) :
  host_ints_fit input ->
  every_number proper_number (normalizeValue input)
  /\ wf_value (normalizeValue input).
Proof.
  intros Hfit. split; [now apply normalizeValue_numbers | apply normalizeValue_wf].
Qed.

Lemma X20_normalized_values_are_proper_witness :
  every_number proper_number
    (normalizeValue
       (GoStruct [("N", true, "n", GoSlice [GoInt (-7); GoFloat S754_nan;
                                             GoFloat (S754_zero true)])]))
  /\ wf_value
       (normalizeValue
          (GoStruct [("N", true, "n", GoSlice [GoInt (-7); GoFloat S754_nan;
                                                GoFloat (S754_zero true)])])).
Proof.
  apply (X20_normalized_values_are_proper
           (GoStruct [("N", true, "n", GoSlice [GoInt (-7); GoFloat S754_nan;
                                                 GoFloat (S754_zero true)])])).
  repeat constructor; simpl; unfold Float64.MinInt64, Float64.MaxInt64; lia.
Defined.

Lemma proper_finite :
  forall v : value, every_number proper_number v -> finite_value v.
Proof.
  fix proper_finite 1. intros v H.
  destruct v as [|b|f|s|arr|obj]; try constructor.
  - inversion H as [| |f' (Hn & Hi & _)| | |]. exact Hn.
  - inversion H as [| |f' (Hn & Hi & _)| | |]. exact Hi.
  - assert (Hall : Forall (every_number proper_number) arr) by (now inversion H).
    clear H. induction arr as [|x arr IH]; constructor.
    + apply proper_finite. now inversion Hall.
    + apply IH. now inversion Hall.
  - assert (Hall : Forall (fun e => every_number proper_number (snd e)) obj)
      by (now inversion H).
    clear H. induction obj as [|[k x] obj IH]; constructor.
    + apply proper_finite. now inversion Hall.
    + apply IH. now inversion Hall.
Qed.



(** ** The depth only shows as indentation *)

Lemma shifts_id (indent : string) : shifts indent (fun _ w => w).
Proof.
  exists []. intros depth [ls i] Hw. simpl in *. now rewrite app_nil_r, Hw.
Qed.

Lemma shifts_Push (indent : string) (k : nat) (content : string) :
  shifts indent (fun depth w => Push w (depth + k) content).
Proof.
  exists [repeat_string indent k ++ content]. intros depth w Hw.
  unfold Push. rewrite Hw, repeat_string_add, append_assoc. reflexivity.
Qed.

Lemma shifts_ext (indent : string) (run1 run2 : nat -> LineWriter -> LineWriter) :
  (forall depth w, run1 depth w = run2 depth w) ->
  shifts indent run1 -> shifts indent run2.
Proof.
  intros Hext (new & E). exists new. intros depth w Hw. now rewrite <- Hext, E.
Qed.

Lemma shifts_Push_here (indent : string) (content : string) :
  shifts indent (fun depth w => Push w depth content).
Proof.
  apply (shifts_ext _ (fun depth w => Push w (depth + 0) content)).
  - intros depth w. now rewrite Nat.add_0_r.
  - apply shifts_Push.
Qed.

Lemma shifts_comp (indent : string) (run1 run2 : nat -> LineWriter -> LineWriter) :
  shifts indent run1 -> shifts indent run2 ->
  shifts indent (fun depth w => run2 depth (run1 depth w)).
Proof.
  intros (n1 & E1) (n2 & E2). exists (List.app n1 n2). intros depth w Hw.
  rewrite (E1 depth w Hw), E2 by reflexivity. simpl.
  now rewrite map_app, app_assoc.
Qed.

Lemma shifts_fold {A : Type} (indent : string)
  (step : nat -> LineWriter -> A -> LineWriter) (l : list A) :
  (forall x, In x l -> shifts indent (fun depth w => step depth w x)) ->
  shifts indent (fun depth w => fold_left (step depth) l w).
Proof.
  induction l as [|x l IH]; intros H; simpl; [apply shifts_id|].
  apply (shifts_comp indent (fun depth w => step depth w x)
           (fun depth w => fold_left (step depth) l w)).
  - apply H. now left.
  - apply IH. intros y Hy. apply H. now right.
Qed.

Lemma shifts_deeper (indent : string) (k : nat)
  (run : nat -> LineWriter -> LineWriter) :
  shifts indent run -> shifts indent (fun depth w => run (depth + k) w).
Proof.
  intros (new & E). exists (map (fun line => repeat_string indent k ++ line) new).
  intros depth w Hw. rewrite (E (depth + k) w Hw), map_map. f_equal. f_equal.
  apply map_ext. intros line. now rewrite repeat_string_add, append_assoc.
Qed.

Lemma shifts_writeTabularRows (indent : string) (objects : list object)
  (header : list string) (opts : EncodeOptions) (k : nat) :
  shifts indent (fun depth w => writeTabularRows objects header w (depth + k) opts).
Proof.
  unfold writeTabularRows.
  apply (shifts_fold indent
           (fun depth writer obj =>
              Push writer (depth + k)
                (joinEncodedValues (map (fun key => index obj key) header)
                   (Delimiter opts)))).
  intros obj _. apply shifts_Push.
Qed.

Lemma shifts_inline_item (indent : string) (opts : EncodeOptions) (item : value) :
  shifts indent
    (fun depth w =>
       match item with
       | VArray arr =>
           if isArrayOfPrimitives arr
           then Push w (depth + 1)
                  (ListItemPrefix
                     ++ formatInlineArray arr (Delimiter opts) "" (LengthMarker opts))
           else w
       | _ => w
       end).
Proof.
  destruct item as [| | | |arr|]; try apply shifts_id.
  destruct (isArrayOfPrimitives arr); [apply shifts_Push | apply shifts_id].
Qed.

Section Shifting.

Variable indent : string.
Variable n : nat.
Hypothesis Hbelow : shifts_below indent n.

Lemma shifts_pair_index (obj : object) (key : string) (opts : EncodeOptions) :
  (forall k v, In (k, v) obj -> value_size v < n) ->
  shifts indent
    (fun depth w => encodeKeyValuePair key (index obj key) w depth opts).
Proof.
  intros Hsize. unfold index. destruct (lookup obj key) as [v|] eqn:E.
  - apply Hbelow. apply (Hsize key). now apply lookup_In.
  - apply (shifts_ext _
             (fun depth w =>
                Push w depth
                  (encodeKey key ++ ": " ++ encodePrimitive VNil (Delimiter opts)))).
    + intros depth w. now rewrite encodeKeyValuePair_eq.
    + apply shifts_Push_here.
Qed.

Lemma shifts_encodeObject (obj : object) (opts : EncodeOptions) :
  (forall k v, In (k, v) obj -> value_size v < n) ->
  shifts indent (fun depth w => encodeObject obj w depth opts).
Proof.
  intros Hsize.
  apply (shifts_ext _
           (fun depth w =>
              fold_left
                (fun writer key =>
                   encodeKeyValuePair key (index obj key) writer depth opts)
                (GoSort.Strings (range_keys obj)) w)).
  - intros depth w. now rewrite encodeObject_eq.
  - apply (shifts_fold indent
             (fun depth writer key =>
                encodeKeyValuePair key (index obj key) writer depth opts)).
    intros key _. now apply shifts_pair_index.
Qed.

Lemma shifts_list_item (opts : EncodeOptions) (item : value) :
  value_size item < n ->
  shifts indent
    (fun depth w =>
       match item with
       | VArray arr =>
           if isArrayOfPrimitives arr
           then Push w (depth + 1)
                  (ListItemPrefix
                     ++ formatInlineArray arr (Delimiter opts) "" (LengthMarker opts))
           else w
       | VObject _ => encodeListItem item w (depth + 1) opts
       | _ => Push w (depth + 1)
                (ListItemPrefix ++ encodePrimitive item (Delimiter opts))
       end).
Proof.
  intros Hsize.
  destruct item as [| | | |arr|obj]; try apply shifts_Push.
  - destruct (isArrayOfPrimitives arr); [apply shifts_Push | apply shifts_id].
  - apply (shifts_deeper indent 1
             (fun depth w => encodeListItem (VObject obj) w depth opts)).
    now apply Hbelow.
Qed.

Lemma shifts_items (opts : EncodeOptions) (items : list value) :
  (forall x, In x items -> value_size x < n) ->
  shifts indent
    (fun depth w =>
       fold_left
         (fun writer item =>
            match item with
            | VArray arr =>
                if isArrayOfPrimitives arr
                then Push writer (depth + 1)
                       (ListItemPrefix
                          ++ formatInlineArray arr (Delimiter opts) ""
                               (LengthMarker opts))
                else writer
            | VObject _ => encodeListItem item writer (depth + 1) opts
            | _ => Push writer (depth + 1)
                     (ListItemPrefix ++ encodePrimitive item (Delimiter opts))
            end)
         items w).
Proof.
  intros Hsize.
  apply (shifts_fold indent
           (fun depth writer item =>
              match item with
              | VArray arr =>
                  if isArrayOfPrimitives arr
                  then Push writer (depth + 1)
                         (ListItemPrefix
                            ++ formatInlineArray arr (Delimiter opts) ""
                                 (LengthMarker opts))
                  else writer
              | VObject _ => encodeListItem item writer (depth + 1) opts
              | _ => Push writer (depth + 1)
                       (ListItemPrefix ++ encodePrimitive item (Delimiter opts))
              end)).
  intros item Hin. apply shifts_list_item. now apply Hsize.
Qed.

Lemma shifts_encodeMixedArrayAsListItems (prefix : string) (items : list value)
  (opts : EncodeOptions) :
  (forall x, In x items -> value_size x < n) ->
  shifts indent
    (fun depth w => encodeMixedArrayAsListItems prefix items w depth opts).
Proof.
  intros Hsize.
  unfold encodeMixedArrayAsListItems, encodeMixedArrayAsListItems_body.
  apply (shifts_comp indent
           (fun depth w =>
              Push w depth
                (formatHeader (List.length items)
                   (mkHeaderOptions prefix [] (Delimiter opts) (LengthMarker opts))))
           (fun depth w => fold_left _ items w)).
  - apply shifts_Push_here.
  - now apply shifts_items.
Qed.

Lemma shifts_encodeArray (key : string) (arr : list value) (opts : EncodeOptions) :
  (forall x, In x arr -> value_size x < n) ->
  shifts indent (fun depth w => encodeArray key arr w depth opts).
Proof.
  intros Hsize. unfold encodeArray, encodeArray_body.
  destruct (List.length arr =? 0)%nat; [apply shifts_Push_here|].
  destruct (isArrayOfPrimitives arr).
  { unfold encodeInlinePrimitiveArray. apply shifts_Push_here. }
  destruct (isArrayOfArrays arr && _).
  { unfold encodeArrayOfArraysAsListItems.
    apply (shifts_comp indent
             (fun depth w =>
                Push w depth
                  (formatHeader (List.length arr)
                     (mkHeaderOptions key [] (Delimiter opts) (LengthMarker opts))))
             (fun depth w => fold_left _ arr w)).
    - apply shifts_Push_here.
    - apply (shifts_fold indent
               (fun depth writer item =>
                  match item with
                  | VArray arr0 =>
                      if isArrayOfPrimitives arr0
                      then Push writer (depth + 1)
                             (ListItemPrefix
                                ++ formatInlineArray arr0 (Delimiter opts) ""
                                     (LengthMarker opts))
                      else writer
                  | _ => writer
                  end)).
      intros item _. apply shifts_inline_item. }
  destruct (isArrayOfObjects arr).
  - destruct (detectTabularHeader (as_objects arr)) as [header|].
    + unfold encodeArrayOfObjectsAsTabular.
      apply (shifts_comp indent
               (fun depth w =>
                  Push w depth
                    (formatHeader (List.length (as_objects arr))
                       (mkHeaderOptions key header (Delimiter opts)
                          (LengthMarker opts))))
               (fun depth w =>
                  writeTabularRows (as_objects arr) header w (depth + 1) opts)).
      * apply shifts_Push_here.
      * apply shifts_writeTabularRows.
    + now apply shifts_encodeMixedArrayAsListItems.
  - now apply shifts_encodeMixedArrayAsListItems.
Qed.

Lemma shifts_encodeFirstField (firstKey : string) (firstValue : value)
  (opts : EncodeOptions) :
  value_size firstValue <= n ->
  shifts indent
    (fun depth w =>
       encodeFirstField encodeKeyValuePair encodeListItem
         firstKey firstValue w depth opts).
Proof.
  intros Hsize. unfold encodeFirstField.
  destruct firstValue as [| | | |arr|nested]; try apply shifts_Push_here.
  - assert (Hel : forall x, In x arr -> value_size x < n).
    { intros x Hx. apply value_size_element in Hx. lia. }
    destruct (isArrayOfPrimitives arr); [apply shifts_Push_here|].
    destruct (isArrayOfObjects arr).
    + destruct (detectTabularHeader (as_objects arr)) as [header|].
      * apply (shifts_comp indent
                 (fun depth w =>
                    Push w depth
                      (ListItemPrefix
                         ++ formatHeader (List.length arr)
                              (mkHeaderOptions firstKey header (Delimiter opts)
                                 (LengthMarker opts))))
                 (fun depth w =>
                    writeTabularRows (as_objects arr) header w (depth + 1) opts)).
        -- apply shifts_Push_here.
        -- apply shifts_writeTabularRows.
      * apply (shifts_comp indent
                 (fun depth w =>
                    Push w depth
                      (ListItemPrefix ++ encodeKey firstKey ++ "["
                         ++ Itoa (List.length arr) ++ "]:"))
                 (fun depth w => fold_left _ arr w)).
        -- apply shifts_Push_here.
        -- apply (shifts_fold indent
                    (fun depth writer item =>
                       match item with
                       | VObject _ => encodeListItem item writer (depth + 1) opts
                       | _ => writer
                       end)).
           intros item Hin. destruct item as [| | | | |obj]; try apply shifts_id.
           apply (shifts_deeper indent 1
                    (fun depth w => encodeListItem (VObject obj) w depth opts)).
           apply Hbelow. now apply Hel.
    + apply (shifts_comp indent
               (fun depth w =>
                  Push w depth
                    (ListItemPrefix ++ encodeKey firstKey ++ "["
                       ++ Itoa (List.length arr) ++ "]:"))
               (fun depth w => fold_left _ arr w)).
      * apply shifts_Push_here.
      * now apply shifts_items.
  - assert (Hf : forall k v, In (k, v) nested -> value_size v < n).
    { intros k v Hin. apply value_size_field in Hin. lia. }
    destruct (List.length (range_keys nested) =? 0)%nat; [apply shifts_Push_here|].
    apply (shifts_comp indent
             (fun depth w =>
                Push w depth (ListItemPrefix ++ encodeKey firstKey ++ Colon))
             (fun depth w => encodeObject nested w (depth + 2) opts)).
    + apply shifts_Push_here.
    + apply (shifts_deeper indent 2
               (fun depth w => encodeObject nested w depth opts)).
      now apply shifts_encodeObject.
Qed.

Lemma shifts_encodeObjectAsListItem (obj : object) (opts : EncodeOptions) :
  (forall k v, In (k, v) obj -> value_size v < n) ->
  shifts indent (fun depth w => encodeObjectAsListItem obj w depth opts).
Proof.
  intros Hsize.
  destruct (GoSort.Strings (range_keys obj)) as [|firstKey remaining] eqn:Ek.
  - apply (shifts_ext _ (fun depth w => Push w depth ListItemMarker)).
    + intros depth w. now rewrite encodeObjectAsListItem_eq, Ek.
    + apply shifts_Push_here.
  - apply (shifts_ext _
             (fun depth w =>
                fold_left
                  (fun writer key =>
                     encodeKeyValuePair key (index obj key) writer (depth + 1) opts)
                  remaining
                  (encodeFirstField encodeKeyValuePair encodeListItem
                     firstKey (index obj firstKey) w depth opts))).
    + intros depth w. now rewrite encodeObjectAsListItem_eq, Ek.
    + apply (shifts_comp indent
               (fun depth w =>
                  encodeFirstField encodeKeyValuePair encodeListItem
                    firstKey (index obj firstKey) w depth opts)
               (fun depth w =>
                  fold_left
                    (fun writer key =>
                       encodeKeyValuePair key (index obj key) writer (depth + 1) opts)
                    remaining w)).
      * apply shifts_encodeFirstField. unfold index.
        destruct (lookup obj firstKey) as [v|] eqn:E.
        -- apply lookup_In, Hsize in E. lia.
        -- simpl. destruct n; [|lia].
           destruct obj as [|[k v] rest]; [discriminate|].
           specialize (Hsize k v (or_introl eq_refl)). lia.
      * apply (shifts_fold indent
                 (fun depth writer key =>
                    encodeKeyValuePair key (index obj key) writer (depth + 1) opts)).
        intros key _.
        apply (shifts_deeper indent 1
                 (fun depth w =>
                    encodeKeyValuePair key (index obj key) w depth opts)).
        now apply shifts_pair_index.
Qed.

End Shifting.

Lemma shifts_below_all (indent : string) (n : nat) : shifts_below indent n.
Proof.
  induction n as [|n IH]; intros v Hs; [lia|].
  assert (Hle : value_size v <= n) by lia.
  split.
  - intros key opts.
    apply (shifts_ext _
             (fun depth w =>
                match v with
                | VArray arr => encodeArray key arr w depth opts
                | VObject obj =>
                    encodeObject obj (Push w depth (encodeKey key ++ Colon))
                      (depth + 1) opts
                | _ => Push w depth
                         (encodeKey key ++ ": " ++ encodePrimitive v (Delimiter opts))
                end)).
    { intros depth w. now rewrite encodeKeyValuePair_eq. }
    destruct v as [| | | |arr|obj]; try apply shifts_Push_here.
    + apply (shifts_encodeArray indent n IH). intros x Hx.
      apply value_size_element in Hx. lia.
    + apply (shifts_comp indent
               (fun depth w => Push w depth (encodeKey key ++ Colon))
               (fun depth w => encodeObject obj w (depth + 1) opts)).
      * apply shifts_Push_here.
      * apply (shifts_deeper indent 1 (fun depth w => encodeObject obj w depth opts)).
        apply (shifts_encodeObject indent n IH). intros k x Hx.
        apply value_size_field in Hx. lia.
  - intros opts. destruct v as [| | | | |obj]; try apply shifts_id.
    apply (shifts_encodeObjectAsListItem indent n IH). intros k x Hx.
    apply value_size_field in Hx. lia.
Qed.

(** What a run that shifts gives at a depth, from what it gives at
    depth 0 on the writer that holds no line. *)
Lemma shifts_from_zero (indent : string) (run : nat -> LineWriter -> LineWriter) :
  shifts indent run ->
  forall depth w,
    indentationString w = indent ->
    run depth w
    = mkLineWriter
        (List.app (lines w)
           (map (fun line => repeat_string indent depth ++ line)
              (lines (run 0 (mkLineWriter [] indent)))))
        indent.
Proof.
  intros (new & E) depth w Hw.
  assert (H0 : lines (run 0 (mkLineWriter [] indent)) = new).
  { rewrite E by reflexivity. simpl. apply map_id. }
  rewrite H0. now apply E.
Qed.

(** With an empty indentation string a run gives the same at every
    depth. *)
Lemma shifts_blind (run : nat -> LineWriter -> LineWriter) :
  shifts "" run ->
  forall depth w, indentationString w = "" -> run depth w = run 0 w.
Proof.
  intros (new & E) depth w Hw. rewrite (E depth w Hw), (E 0 w Hw).
  f_equal. f_equal. apply map_ext. intros line.
  clear. induction depth as [|d IH]; simpl; [reflexivity | exact IH].
Qed.

(** X22. The depth only shows as indentation: what an encoder adds
    when called at a depth is what it adds at depth 0, each line
    preceded by that many copies of the indentation string.  With an
    empty indentation string, the one of [WithIndent(0)], the depth
    leaves no trace: an encoder adds the same lines at every depth. *)
Theorem X22_depth_only_indents (w : LineWriter) (depth : nat) (opts : EncodeOptions) :
  let indent := indentationString w in
  let fresh := mkLineWriter [] indent in
  let shifted ls := map (fun line => repeat_string indent depth ++ line) ls in
  (forall key v,
      lines (encodeKeyValuePair key v w depth opts)
      = List.app (lines w) (shifted (lines (encodeKeyValuePair key v fresh 0 opts))))
  /\ (forall obj,
        lines (encodeObject obj w depth opts)
        = List.app (lines w) (shifted (lines (encodeObject obj fresh 0 opts))))
  /\ (forall key arr,
        lines (encodeArray key arr w depth opts)
        = List.app (lines w) (shifted (lines (encodeArray key arr fresh 0 opts))))
  /\ (forall obj,
        lines (encodeObjectAsListItem obj w depth opts)
        = List.app (lines w)
            (shifted (lines (encodeObjectAsListItem obj fresh 0 opts))))
  /\ (indent = "" ->
      forall obj, encodeObject obj w depth opts = encodeObject obj w 0 opts).
Proof.
  cbv zeta.
  assert (Hpair : forall key v,
             shifts (indentationString w)
               (fun d w' => encodeKeyValuePair key v w' d opts)).
  { intros k v.
    destruct (shifts_below_all (indentationString w) (S (value_size v)) v
                (Nat.lt_succ_diag_r _)) as [H _].
    apply H. }
  assert (Hobj : forall obj,
             shifts (indentationString w) (fun d w' => encodeObject obj w' d opts)).
  { intros obj.
    apply (shifts_encodeObject _ _
             (shifts_below_all (indentationString w) (value_size (VObject obj)))).
    intros k v. apply value_size_field. }
  assert (Harr : forall key arr,
             shifts (indentationString w)
               (fun d w' => encodeArray key arr w' d opts)).
  { intros k arr.
    apply (shifts_encodeArray _ _
             (shifts_below_all (indentationString w) (value_size (VArray arr)))).
    intros x. apply value_size_element. }
  assert (Hitem : forall obj,
             shifts (indentationString w)
               (fun d w' => encodeObjectAsListItem obj w' d opts)).
  { intros obj.
    apply (shifts_encodeObjectAsListItem _ _
             (shifts_below_all (indentationString w) (value_size (VObject obj)))).
    intros k v. apply value_size_field. }
  split; [|split; [|split; [|split]]].
  - intros k v. now rewrite (shifts_from_zero _ _ (Hpair k v) depth w eq_refl).
  - intros obj. now rewrite (shifts_from_zero _ _ (Hobj obj) depth w eq_refl).
  - intros k arr. now rewrite (shifts_from_zero _ _ (Harr k arr) depth w eq_refl).
  - intros obj. now rewrite (shifts_from_zero _ _ (Hitem obj) depth w eq_refl).
  - intros Hempty obj. specialize (Hobj obj). rewrite Hempty in Hobj.
    now apply (shifts_blind _ Hobj).
Qed.

Lemma Strings_pair (k1 k2 : string) :
  lex_le k1 k2 -> GoSort.Strings [k1; k2] = [k1; k2].
Proof.
  intros Hle. apply sorted_permutation_unique.
  - apply Strings_sorted.
  - repeat constructor. exact Hle.
  - apply Permutation_sym, Strings_permutation.
Qed.

(** X23. Without indentation the nesting is lost: with an indent of
    0, an object that holds a second key inside the object of its
    first key is written exactly as the object that holds the two keys
    side by side, the first with an empty object, whatever the value
    of the second key. *)
Theorem X23_zero_indent_hides_nesting (k1 k2 : string) (v : value)
  (opts : EncodeOptions) :
  Indent opts = 0%Z -> k1 <> k2 -> lex_le k1 k2 ->
  encodeValue (VObject [(k1, VObject [(k2, v)])]) opts
  = encodeValue (VObject [(k1, VObject []); (k2, v)]) opts.
Proof.
  intros Hi Hne Hle. unfold encodeValue. cbn [isPrimitive]. rewrite Hi.
  cbn [NewLineWriter Repeat Z.ltb Z.compare Z.to_nat repeat_string].
  f_equal. f_equal. rewrite !encodeObject_eq.
  cbn [range_keys map fst]. rewrite (Strings_pair k1 k2 Hle).
  change (GoSort.Strings [k1]) with [k1]. cbn [fold_left].
  apply String.eqb_neq in Hne.
  unfold index. cbn [lookup]. rewrite !String.eqb_refl, Hne.
  rewrite (encodeKeyValuePair_eq k1 (VObject [(k2, v)])).
  rewrite (encodeKeyValuePair_eq k1 (VObject [])).
  rewrite encodeObject_empty, encodeObject_eq.
  cbn [range_keys map fst]. change (GoSort.Strings [k2]) with [k2].
  cbn [fold_left]. unfold index. cbn [lookup]. rewrite String.eqb_refl.
  destruct (shifts_below_all "" (S (value_size v)) v (Nat.lt_succ_diag_r _))
    as [Hpair _].
  apply (shifts_blind _ (Hpair k2 opts)). reflexivity.
Qed.

Lemma X23_zero_indent_hides_nesting_witness :
  encodeValue (VObject [("a", VObject [("b", VArray [VNil])])])
    (mkEncodeOptions 0 "," false)
  = encodeValue (VObject [("a", VObject []); ("b", VArray [VNil])])
      (mkEncodeOptions 0 "," false).
Proof.
  apply (X23_zero_indent_hides_nesting "a" "b" (VArray [VNil])
           (mkEncodeOptions 0 "," false)).
  - reflexivity.
  - discriminate.
  - reflexivity.
Defined.
